(** * TextCleaner: the cleaning engine and its edit replay model

    A shallow embedding of [src/textcleaner/cleaner.py] and of the parts of
    Python's standard library it calls ([str] slicing, [difflib]'s
    [SequenceMatcher] with [autojunk=False]), followed by the properties
    of the edit differencer, the edit replayer, the normalizer, the
    distance evaluator and the spell corrector. *)

From Stdlib Require Import ZArith NArith Ascii String.
From stdpp Require Import base tactics option list numbers strings gmap sorting
  pretty.

Open Scope Z_scope.

(** ** Python values *)

(** A Python [str] is a sequence of Unicode code points. *)
Abbreviation codepoint := N (only parsing).
Abbreviation str := (list N) (only parsing).

(** ASCII literals, for the examples. *)
Fixpoint lit (s : string) : str :=
  match s with
  | EmptyString => []
  | String c r => N_of_ascii c :: lit r
  end.

Definition LF : codepoint := 10%N.
Definition TAB : codepoint := 9%N.
Definition CR : codepoint := 13%N.
Definition APOSTROPHE : codepoint := 39%N.

(** Exceptions the module raises. *)
Inductive exn : Type :=
  | ValueError (msg : str)
  | UnicodeDecodeError
  | UnicodeEncodeError
  | RuntimeError (msg : str)
  (** not a Python exception: a loop of the model was given too few turns *)
  | OutOfTurns.

Inductive outcome (A : Type) : Type :=
  | Ok (a : A)
  | Raise (e : exn).
Arguments Ok {A} a.
Arguments Raise {A} e.

#[global] Instance outcome_ret : MRet outcome := fun A a => Ok a.
#[global] Instance outcome_bind : MBind outcome := fun A B k m =>
  match m with
  | Ok a => k a
  | Raise e => Raise e
  end.

(** *** Slicing

    [s[lo:hi]] with step 1, as [PySlice_AdjustIndices] computes it: a
    negative index counts from the end, and both indices are clamped to
    [0, len(s)]. *)
Definition adjust_index (len i : Z) : Z :=
  if i <? 0 then Z.max 0 (i + len) else Z.min i len.

Definition py_slice (s : str) (lo hi : Z) : str :=
  let n := Z.of_nat (length s) in
  let lo' := adjust_index n lo in
  let hi' := adjust_index n hi in
  take (Z.to_nat (hi' - lo')) (drop (Z.to_nat lo') s).

(** [s[lo:]] *)
Definition py_slice_from (s : str) (lo : Z) : str :=
  drop (Z.to_nat (adjust_index (Z.of_nat (length s)) lo)) s.

(** ** The edit replayer: [apply_edits] *)

Record Edit : Type := mkEdit {
  start : Z;
  end_ : Z;
  replacement : str
}.

Definition OverlapError : exn :=
  ValueError (lit "Edits overlap or are out of order.").

(** The body of the [for edit in edits] loop, threading [cursor] and the
    list of pieces [result]. *)
Fixpoint apply_edits_loop (original : str) (edits : list Edit)
    (cursor : Z) (result : list str) : outcome (Z * list str) :=
  match edits with
  | [] => Ok (cursor, result)
  | edit :: edits' =>
      if start edit <? cursor then Raise OverlapError
      else
        let result := result ++ [py_slice original cursor (start edit)] in
        let result := result ++ [replacement edit] in
        apply_edits_loop original edits' (end_ edit) result
  end.

Definition apply_edits (original : str) (edits : list Edit) : outcome str :=
  '(cursor, result) ← apply_edits_loop original edits 0 [];
  Ok (concat (result ++ [py_slice_from original cursor])).

(** The cursor the loop holds after the edits [pre]: the [end] of the last
    one, or [0] before the first. *)
Definition running_cursor (pre : list Edit) : Z :=
  match last pre with
  | Some e => end_ e
  | None => 0
  end.

(** What a successful replay writes, from [cursor] on. *)
Fixpoint replayed (original : str) (cursor : Z) (edits : list Edit) : str :=
  match edits with
  | [] => py_slice_from original cursor
  | e :: edits' =>
      py_slice original cursor (start e) ++ replacement e
        ++ replayed original (end_ e) edits'
  end.

(** [seg] occurs at two disjoint places of [out]. *)
Definition occurs_twice (seg out : str) : Prop :=
  exists x y z, out = x ++ seg ++ y ++ seg ++ z.

(** ** The distance evaluator: [_edit_distance] *)

(** [l[i]]; wherever the loops read a row the index is in range:
    [row_loop_spec] carries [len(current) = j] and [len(prev) = len(b) + 1]. *)
Definition getitem (l : list nat) (i : nat) : nat := nth i l 0%nat.

(** [int(char_a != char_b)] *)
Definition differ (char_a char_b : codepoint) : nat :=
  if N.eqb char_a char_b then 0%nat else 1%nat.

(** [for j, char_b in enumerate(b, start=1)]: [bs] is what is left of [b]. *)
Fixpoint row_loop (char_a : codepoint) (bs : str) (j : nat)
    (prev current : list nat) : list nat :=
  match bs with
  | [] => current
  | char_b :: bs' =>
      let insert_cost := (getitem current (j - 1) + 1)%nat in
      let delete_cost := (getitem prev j + 1)%nat in
      let subst_cost := (getitem prev (j - 1) + differ char_a char_b)%nat in
      row_loop char_a bs' (S j) prev
        (current ++ [Nat.min insert_cost (Nat.min delete_cost subst_cost)])
  end.

(** [for i, char_a in enumerate(a, start=1)]: [as_] is what is left of [a]. *)
Fixpoint rows_loop (as_ : str) (i : nat) (b : str) (prev : list nat) : list nat :=
  match as_ with
  | [] => prev
  | char_a :: as' =>
      let current := [i] in
      let current := row_loop char_a b 1 prev current in
      rows_loop as' (S i) b current
  end.

Definition _edit_distance (a b : str) : nat :=
  if decide (a = b) then 0%nat
  else if decide (a = []) then length b
  else if decide (b = []) then length a
  else
    let prev := seq 0 (length b + 1) in
    let prev := rows_loop a 1 b prev in
    List.last prev 0%nat.

(** The classic recurrence of the Levenshtein distance (Wagner and
    Fischer): deleting, inserting and substituting a character cost 1. *)
Fixpoint lev (a b : str) {struct a} : nat :=
  match a with
  | [] => length b
  | x :: a' =>
      (fix lev_a (b : str) {struct b} : nat :=
         match b with
         | [] => length a
         | y :: b' =>
             Nat.min (lev a' b + 1)
               (Nat.min (lev_a b' + 1) (lev a' b' + differ x y))
         end) b
  end%nat.

(** Edit scripts: [script a b n] when [a] is turned into [b] by deleting,
    inserting and substituting single characters, left to right, for a
    total cost of [n]. *)
Inductive script : str -> str -> nat -> Prop :=
  | script_nil : script [] [] 0
  | script_delete x a b n : script a b n -> script (x :: a) b (S n)
  | script_insert y a b n : script a b n -> script a (y :: b) (S n)
  | script_keep x y a b n :
      script a b n -> script (x :: a) (y :: b) (n + differ x y).

(** ** The alignment: [difflib.SequenceMatcher(a, b, autojunk=False)]

    [build_edits] reads the opcodes of a [SequenceMatcher] built without a
    junk predicate and with the popularity heuristic switched off, so no
    element of [b] is junk. *)

(** [__chain_b]: [b2j] maps each character of [b] to the ascending list of
    the positions where it occurs; [i] is the position of the head of
    what is left of [b]. *)
Fixpoint chain_b (b : str) (i : nat) (b2j : gmap N (list nat)) : gmap N (list nat) :=
  match b with
  | [] => b2j
  | elt :: b' =>
      let indices := default [] (b2j !! elt) in
      chain_b b' (S i) (<[elt := indices ++ [i]]> b2j)
  end.

(** A matching block [(i, j, k)]: [a[i:i+k] == b[j:j+k]]. *)
Abbreviation block := (nat * nat * nat)%type (only parsing).

(** [a[i] == b[j]], for positions inside both strings. *)
Definition same_at (a : str) (i : nat) (b : str) (j : nat) : bool :=
  match a !! i, b !! j with
  | Some x, Some y => N.eqb x y
  | _, _ => false
  end.

Section find_longest_match.
Context (a b : str) (b2j : gmap N (list nat)).
Context (alo ahi blo bhi : nat).

(** [for j in b2j.get(a[i], nothing)]. The keys of [j2len] are integers:
    [j2len.get(j-1, 0)] asks for [-1] when [j] is [0]. With [k] at most
    [i - alo + 1], [i-k+1] is written [i + 1 - k]. *)
Fixpoint row_scan (js : list nat) (i : nat) (j2len newj2len : gmap Z nat)
    (best : block) : gmap Z nat * block :=
  match js with
  | [] => (newj2len, best)
  | j :: js' =>
      if (j <? blo)%nat then row_scan js' i j2len newj2len best
      else if (bhi <=? j)%nat then (newj2len, best)
      else
        let k := (default 0 (j2len !! (Z.of_nat j - 1)%Z) + 1)%nat in
        let newj2len := <[Z.of_nat j := k]> newj2len in
        let '(besti, bestj, bestsize) := best in
        if (bestsize <? k)%nat
        then row_scan js' i j2len newj2len ((i + 1 - k)%nat, (j + 1 - k)%nat, k)
        else row_scan js' i j2len newj2len best
  end.

(** [for i in range(alo, ahi)], with [n] rows left to scan. *)
Fixpoint rows_scan (n : nat) (i : nat) (j2len : gmap Z nat) (best : block) : block :=
  match n with
  | O => best
  | S n' =>
      let js := match a !! i with
                | Some elt => default [] (b2j !! elt)
                | None => []
                end in
      let '(newj2len, best) := row_scan js i j2len ∅ best in
      rows_scan n' (S i) newj2len best
  end.

(** The first [while]: the block grows to the left while the characters
    before it agree. It runs at most [besti] times, the value of [n] at the
    start. *)
Fixpoint extend_left (n : nat) (best : block) : block :=
  let '(besti, bestj, bestsize) := best in
  match n with
  | O => best
  | S n' =>
      if (alo <? besti)%nat && (blo <? bestj)%nat
         && same_at a (besti - 1) b (bestj - 1)
      then extend_left n' ((besti - 1)%nat, (bestj - 1)%nat, (bestsize + 1)%nat)
      else best
  end.

(** The second [while]: the block grows to the right. It runs at most
    [ahi - (besti + bestsize)] times, the value of [n] at the start. *)
Fixpoint extend_right (n : nat) (best : block) : block :=
  let '(besti, bestj, bestsize) := best in
  match n with
  | O => best
  | S n' =>
      if (besti + bestsize <? ahi)%nat && (bestj + bestsize <? bhi)%nat
         && same_at a (besti + bestsize) b (bestj + bestsize)
      then extend_right n' (besti, bestj, (bestsize + 1)%nat)
      else best
  end.

(** The last two [while] loops of the function extend the block over junk
    only; with no junk their conditions never hold. *)
Definition find_longest_match : block :=
  let best := rows_scan (ahi - alo) alo ∅ (alo, blo, 0%nat) in
  let best := extend_left (fst (fst best)) best in
  let '(besti, _, bestsize) := best in
  extend_right (ahi - (besti + bestsize)) best.

End find_longest_match.

(** Tuples compare lexicographically. *)
Definition block_le (x y : block) : Prop :=
  let '(i1, j1, k1) := x in
  let '(i2, j2, k2) := y in
  (i1 < i2 \/ (i1 = i2 /\ (j1 < j2 \/ (j1 = j2 /\ k1 <= k2))))%nat.

#[global] Instance block_le_dec : RelDecision block_le.
Proof. intros [[i1 j1] k1] [[i2 j2] k2]. unfold block_le. apply _. Defined.

Inductive tag : Type := replace_tag | delete_tag | insert_tag | equal_tag.

#[global] Instance tag_eq_dec : EqDecision tag.
Proof. solve_decision. Defined.

(** An opcode [(tag, i1, i2, j1, j2)]. *)
Abbreviation opcode := (tag * nat * nat * nat * nat)%type (only parsing).

Section get_opcodes.
Context (a b : str).

(** The [while queue] loop of [get_matching_blocks]. The head of [queue] is
    the end of the Python list, where [append] and [pop] work. Each turn
    removes one range and adds at most two strictly shorter ones, and the
    loop is given [fuel] turns. *)
Fixpoint blocks_loop (fuel : nat) (b2j : gmap N (list nat))
    (queue : list (nat * nat * nat * nat)) (matching_blocks : list block)
    : option (list block) :=
  match queue with
  | [] => Some matching_blocks
  | (alo, ahi, blo, bhi) :: queue =>
      match fuel with
      | O => None
      | S fuel =>
          let '(i, j, k) := find_longest_match a b b2j alo ahi blo bhi in
          if (0 <? k)%nat then
            let matching_blocks := matching_blocks ++ [(i, j, k)] in
            let queue :=
              if (alo <? i)%nat && (blo <? j)%nat
              then (alo, i, blo, j) :: queue else queue in
            let queue :=
              if (i + k <? ahi)%nat && (j + k <? bhi)%nat
              then ((i + k)%nat, ahi, (j + k)%nat, bhi) :: queue else queue in
            blocks_loop fuel b2j queue matching_blocks
          else blocks_loop fuel b2j queue matching_blocks
      end
  end.

(** The loop that merges adjacent blocks; it returns the pending block
    [(i1, j1, k1)] with the list. *)
Fixpoint collapse_loop (matching_blocks : list block) (pending : block)
    (non_adjacent : list block) : block * list block :=
  match matching_blocks with
  | [] => (pending, non_adjacent)
  | (i2, j2, k2) :: rest =>
      let '(i1, j1, k1) := pending in
      if ((i1 + k1 =? i2) && (j1 + k1 =? j2))%nat
      then collapse_loop rest (i1, j1, (k1 + k2)%nat) non_adjacent
      else
        let non_adjacent :=
          if (0 <? k1)%nat then non_adjacent ++ [(i1, j1, k1)] else non_adjacent in
        collapse_loop rest (i2, j2, k2) non_adjacent
  end.

Definition get_matching_blocks : option (list block) :=
  let la := length a in
  let lb := length b in
  let b2j := chain_b b 0 ∅ in
  matching_blocks ← blocks_loop (2 * la + 1) b2j [(0, la, 0, lb)%nat] [];
  let matching_blocks := merge_sort block_le matching_blocks in
  let '((i1, j1, k1), non_adjacent) :=
    collapse_loop matching_blocks (0, 0, 0)%nat [] in
  let non_adjacent :=
    if (0 <? k1)%nat then non_adjacent ++ [(i1, j1, k1)] else non_adjacent in
  Some (non_adjacent ++ [(la, lb, 0%nat)]).

(** The loop of [get_opcodes] over the matching blocks. *)
Fixpoint opcodes_loop (blocks : list block) (i j : nat) (answer : list opcode)
    : list opcode :=
  match blocks with
  | [] => answer
  | (ai, bj, size) :: rest =>
      let tag :=
        if (i <? ai)%nat && (j <? bj)%nat then Some replace_tag
        else if (i <? ai)%nat then Some delete_tag
        else if (j <? bj)%nat then Some insert_tag
        else None in
      let answer :=
        match tag with
        | Some t => answer ++ [(t, i, ai, j, bj)]
        | None => answer
        end in
      let i' := (ai + size)%nat in
      let j' := (bj + size)%nat in
      let answer :=
        if (0 <? size)%nat then answer ++ [(equal_tag, ai, i', bj, j')] else answer in
      opcodes_loop rest i' j' answer
  end.

Definition get_opcodes : option (list opcode) :=
  blocks ← get_matching_blocks;
  Some (opcodes_loop blocks 0 0 []).

End get_opcodes.

(** ** The edit differencer: [build_edits] *)

Fixpoint build_edits_loop (cleaned : str) (opcodes : list opcode) (edits : list Edit)
    : list Edit :=
  match opcodes with
  | [] => edits
  | (tag, i1, i2, j1, j2) :: rest =>
      if decide (tag = equal_tag) then build_edits_loop cleaned rest edits
      else
        build_edits_loop cleaned rest
          (edits ++ [ {| start := Z.of_nat i1;
                         end_ := Z.of_nat i2;
                         replacement := py_slice cleaned (Z.of_nat j1) (Z.of_nat j2) |} ])
  end.

(** [None] stands for a matcher that was not given turns enough, which
    [build_edits_total] rules out. *)
Definition build_edits (original cleaned : str) : option (list Edit) :=
  opcodes ← get_opcodes original cleaned;
  Some (build_edits_loop cleaned opcodes []).

(** *** What the alignment guarantees *)

(** [a[i:i+k]] and [b[j:j+k]] exist and agree. *)
Definition block_ok (a b : str) (x : block) : Prop :=
  let '(i, j, k) := x in
  forall d, (d < k)%nat ->
    exists c, a !! (i + d)%nat = Some c /\ b !! (j + d)%nat = Some c.

(** The block lies in [a[alo:ahi]] and [b[blo:bhi]]. *)
Definition in_box (alo ahi blo bhi : nat) (x : block) : Prop :=
  let '(i, j, k) := x in
  (alo <= i /\ i + k <= ahi /\ blo <= j /\ j + k <= bhi)%nat.

(** [b2j] lists positions of [b] only. *)
Definition b2j_sound (b : str) (b2j : gmap N (list nat)) : Prop :=
  forall x js j, b2j !! x = Some js -> j ∈ js -> b !! j = Some x.

(** The blocks follow one another in both strings, from [(i, j)] on. *)
Fixpoint chain (i j : nat) (blocks : list block) : Prop :=
  match blocks with
  | [] => True
  | (ai, bj, size) :: rest =>
      (i <= ai)%nat /\ (j <= bj)%nat /\ chain (ai + size) (bj + size) rest
  end.

(** The edits [build_edits] makes of the blocks, read off directly. *)
Fixpoint edits_of_blocks (cleaned : str) (blocks : list block) (i j : nat) : list Edit :=
  match blocks with
  | [] => []
  | (ai, bj, size) :: rest =>
      (if (i <? ai)%nat || (j <? bj)%nat
       then [ {| start := Z.of_nat i; end_ := Z.of_nat ai;
                 replacement := py_slice cleaned (Z.of_nat j) (Z.of_nat bj) |} ]
       else [])
      ++ edits_of_blocks cleaned rest (ai + size) (bj + size)
  end.

(** Every edit starts at or after [cursor] and the end of the edit before. *)
Fixpoint in_order (cursor : Z) (edits : list Edit) : Prop :=
  match edits with
  | [] => True
  | e :: edits' => cursor <= start e /\ in_order (end_ e) edits'
  end.

(** The edit an opcode becomes. *)
Definition edit_of_opcode (cleaned : str) (op : opcode) : Edit :=
  let '(_, i1, i2, j1, j2) := op in
  {| start := Z.of_nat i1; end_ := Z.of_nat i2;
     replacement := py_slice cleaned (Z.of_nat j1) (Z.of_nat j2) |}.

Definition non_equal (op : opcode) : bool :=
  let '(t, _, _, _, _) := op in
  if decide (t = equal_tag) then false else true.

(** A range [(alo, ahi, blo, bhi)] of the queue; a block spans one too. *)
Abbreviation box := (nat * nat * nat * nat)%type (only parsing).

Definition box_of (x : block) : box :=
  let '(i, j, k) := x in (i, (i + k)%nat, j, (j + k)%nat).

(** [r1] ends, in both strings, where [r2] starts or earlier. *)
Definition before (r1 r2 : box) : Prop :=
  let '(_, ahi1, _, bhi1) := r1 in
  let '(alo2, _, blo2, _) := r2 in
  (ahi1 <= alo2 /\ bhi1 <= blo2)%nat.

Definition apart (r1 r2 : box) : Prop := before r1 r2 \/ before r2 r1.

Definition inside (r outer : box) : Prop :=
  let '(alo, ahi, blo, bhi) := r in
  let '(alo', ahi', blo', bhi') := outer in
  (alo' <= alo /\ ahi <= ahi' /\ blo' <= blo /\ bhi <= bhi')%nat.

Definition box_wf (la lb : nat) (r : box) : Prop :=
  let '(alo, ahi, blo, bhi) := r in
  (alo <= ahi /\ ahi <= la /\ blo <= bhi /\ bhi <= lb)%nat.

Fixpoint pairwise {A} (R : A -> A -> Prop) (l : list A) : Prop :=
  match l with
  | [] => True
  | x :: l' => Forall (R x) l' /\ pairwise R l'
  end.

(** A bound on the turns the queue still takes. *)
Fixpoint turns (queue : list box) : nat :=
  match queue with
  | [] => 0
  | (alo, ahi, _, _) :: queue' => (2 * (ahi - alo) + 1 + turns queue')%nat
  end.

(** ** The Unicode character database

    [cleaner.py] reads it through [unicodedata] and the [str] methods. The
    tables are a parameter of the embedding. *)

(** The values of [unicodedata.category]. *)
Inductive general_category : Type :=
  | Lu | Ll | Lt | Lm | Lo
  | Mn | Mc | Me
  | Nd | Nl | No
  | Pc | Pd | Ps | Pe | Pi | Pf | Po
  | Sm | Sc | Sk | So
  | Zs | Zl | Zp
  | Cc | Cf | Cs | Co | Cn.

(** [category(ch)[0]], the major class. *)
Definition category_group (c : general_category) : ascii :=
  match c with
  | Lu | Ll | Lt | Lm | Lo => "L"
  | Mn | Mc | Me => "M"
  | Nd | Nl | No => "N"
  | Pc | Pd | Ps | Pe | Pi | Pf | Po => "P"
  | Sm | Sc | Sk | So => "S"
  | Zs | Zl | Zp => "Z"
  | Cc | Cf | Cs | Co | Cn => "C"
  end%char.

Record unicode_data : Type := {
  (** [unicodedata.category] *)
  category : codepoint -> general_category;
  (** [unicodedata.normalize("NFKC", _)] *)
  nfkc : str -> str;
  (** the character predicates behind [str.isupper], [str.islower] and
      [str.istitle] *)
  ch_isupper : codepoint -> bool;
  ch_islower : codepoint -> bool;
  ch_istitle : codepoint -> bool;
  (** the full case mappings behind [str.upper], [str.lower] and
      [str.capitalize] *)
  to_upper_full : codepoint -> str;
  to_lower_full : codepoint -> str;
  to_title_full : codepoint -> str;
  (** the properties Cased and Case_Ignorable, read by [str.lower] around a
      capital sigma *)
  ch_iscased : codepoint -> bool;
  ch_iscaseignorable : codepoint -> bool
}.

(** ** The [str] methods [_match_case] calls *)

Section str_methods.
Context (U : unicode_data).

(** [str.isupper]: no lowercase or titlecase character, and at least one
    uppercase one. *)
Fixpoint isupper_loop (s : str) (cased : bool) : bool :=
  match s with
  | [] => cased
  | ch :: s' =>
      if ch_islower U ch || ch_istitle U ch then false
      else if negb cased && ch_isupper U ch then isupper_loop s' true
      else isupper_loop s' cased
  end.

Definition str_isupper (s : str) : bool :=
  match s with
  | [] => false
  | [ch] => ch_isupper U ch
  | _ => isupper_loop s false
  end.

(** [str.islower] *)
Fixpoint islower_loop (s : str) (cased : bool) : bool :=
  match s with
  | [] => cased
  | ch :: s' =>
      if ch_isupper U ch || ch_istitle U ch then false
      else if negb cased && ch_islower U ch then islower_loop s' true
      else islower_loop s' cased
  end.

Definition str_islower (s : str) : bool :=
  match s with
  | [] => false
  | [ch] => ch_islower U ch
  | _ => islower_loop s false
  end.

(** [str.istitle]: uppercase and titlecase characters only after uncased
    ones, lowercase characters only after cased ones, and at least one
    cased character. *)
Fixpoint istitle_loop (s : str) (cased previous_is_cased : bool) : bool :=
  match s with
  | [] => cased
  | ch :: s' =>
      if ch_isupper U ch || ch_istitle U ch then
        if previous_is_cased then false else istitle_loop s' true true
      else if ch_islower U ch then
        if negb previous_is_cased then false else istitle_loop s' true true
      else istitle_loop s' cased false
  end.

Definition str_istitle (s : str) : bool :=
  match s with
  | [] => false
  | [ch] => ch_istitle U ch || ch_isupper U ch
  | _ => istitle_loop s false false
  end.

(** [str.upper] *)
Definition str_upper (s : str) : str := s ≫= to_upper_full U.

(** U+03A3 is lowered to the final sigma U+03C2 when a cased character
    precedes it and none follows it, case-ignorable characters aside.
    [before] holds the characters before it, nearest first. *)
Definition GREEK_CAPITAL_SIGMA : codepoint := 931%N.

Fixpoint skip_ignorable (s : str) : str :=
  match s with
  | [] => []
  | c :: s' => if ch_iscaseignorable U c then skip_ignorable s' else s
  end.

Definition final_sigma (before after : str) : bool :=
  match skip_ignorable before with
  | [] => false
  | c :: _ =>
      ch_iscased U c &&
      match skip_ignorable after with
      | [] => true
      | c' :: _ => negb (ch_iscased U c')
      end
  end.

Definition lower_char (before : str) (c : codepoint) (after : str) : str :=
  if N.eqb c GREEK_CAPITAL_SIGMA then
    [if final_sigma before after then 962%N else 963%N]
  else to_lower_full U c.

Fixpoint lower_from (before s : str) : str :=
  match s with
  | [] => []
  | c :: s' => lower_char before c s' ++ lower_from (c :: before) s'
  end.

(** [str.lower] *)
Definition str_lower (s : str) : str := lower_from [] s.

(** [str.capitalize]: the first character in title case, the rest lowered. *)
Definition str_capitalize (s : str) : str :=
  match s with
  | [] => []
  | c :: s' => to_title_full U c ++ lower_from [c] s'
  end.

(** ** The case-pattern transfer: [_match_case] *)

Definition _match_case (source suggestion : str) : str :=
  if str_isupper source then str_upper suggestion
  else if str_istitle source then str_capitalize suggestion
  else if str_islower source then str_lower suggestion else suggestion.

(** How [str.istitle] classifies a character. *)
Inductive letter_case : Type := Upper | Lower | Uncased.

#[global] Instance letter_case_eq_dec : EqDecision letter_case.
Proof. solve_decision. Defined.

Definition case_of (ch : codepoint) : letter_case :=
  if ch_isupper U ch || ch_istitle U ch then Upper
  else if ch_islower U ch then Lower
  else Uncased.

(** "First letter upper, rest lower." *)
Definition first_upper_rest_lower (s : str) : Prop :=
  match s with
  | [] => False
  | c :: rest => case_of c = Upper /\ Forall (fun r => case_of r = Lower) rest
  end.

(** Title case as [str.istitle] has it, stated over positions:
    [previous_is_cased] tells whether the character before is cased. *)
Fixpoint title_pattern (previous_is_cased : bool) (s : str) : Prop :=
  match s with
  | [] => True
  | ch :: s' =>
      match case_of ch with
      | Upper => previous_is_cased = false /\ title_pattern true s'
      | Lower => previous_is_cased = true /\ title_pattern true s'
      | Uncased => title_pattern false s'
      end
  end.

Definition has_cased (s : str) : Prop := Exists (fun ch => case_of ch <> Uncased) s.

End str_methods.

(** *** An excerpt of the database

    The entries of the ASCII range, of U+00C9 and U+00E9 (E and e with
    acute), of U+0301 (combining acute accent) and of U+200B (zero width
    space). A code point outside the excerpt is reported as unassigned,
    uncased and mapped to itself. *)

Definition in_range (lo hi c : N) : bool := (N.leb lo c && N.leb c hi)%N.

Definition excerpt_category (c : codepoint) : general_category :=
  if in_range 0 31 c then Cc
  else if N.eqb c 32 then Zs
  else if in_range 48 57 c then Nd
  else if in_range 65 90 c then Lu
  else if in_range 97 122 c then Ll
  else if N.eqb c 36 then Sc
  else if N.eqb c 40 || N.eqb c 91 || N.eqb c 123 then Ps
  else if N.eqb c 41 || N.eqb c 93 || N.eqb c 125 then Pe
  else if N.eqb c 43 || in_range 60 62 c || N.eqb c 124 || N.eqb c 126 then Sm
  else if N.eqb c 45 then Pd
  else if N.eqb c 94 || N.eqb c 96 then Sk
  else if N.eqb c 95 then Pc
  else if in_range 33 126 c then Po
  else if N.eqb c 127 then Cc
  else if N.eqb c 201 then Lu
  else if N.eqb c 233 then Ll
  else if N.eqb c 769 then Mn
  else if N.eqb c 8203 then Cf
  else Cn.

(** Over the excerpt the one composition is that of [E] or [e] with an
    acute accent right after it; this is NFKC on the strings of the
    examples below, which hold no other letter before U+0301. *)
Fixpoint excerpt_nfkc (s : str) : str :=
  match s with
  | [] => []
  | c :: s' =>
      match s' with
      | 769%N :: s'' =>
          if N.eqb c 69 then 201%N :: excerpt_nfkc s''
          else if N.eqb c 101 then 233%N :: excerpt_nfkc s''
          else c :: excerpt_nfkc s'
      | _ => c :: excerpt_nfkc s'
      end
  end.

Definition excerpt_isupper (c : codepoint) : bool := in_range 65 90 c || N.eqb c 201.
Definition excerpt_islower (c : codepoint) : bool := in_range 97 122 c || N.eqb c 233.

Definition excerpt_to_upper (c : codepoint) : str :=
  if excerpt_islower c then [(c - 32)%N] else [c].
Definition excerpt_to_lower (c : codepoint) : str :=
  if excerpt_isupper c then [(c + 32)%N] else [c].

Definition excerpt_iscaseignorable (c : codepoint) : bool :=
  N.eqb c 39 || N.eqb c 46 || N.eqb c 58 || N.eqb c 94 || N.eqb c 96
  || N.eqb c 769 || N.eqb c 8203.

Definition excerpt : unicode_data := {|
  category := excerpt_category;
  nfkc := excerpt_nfkc;
  ch_isupper := excerpt_isupper;
  ch_islower := excerpt_islower;
  ch_istitle := fun _ => false;
  to_upper_full := excerpt_to_upper;
  to_lower_full := excerpt_to_lower;
  to_title_full := excerpt_to_upper;
  ch_iscased := fun c => excerpt_isupper c || excerpt_islower c;
  ch_iscaseignorable := excerpt_iscaseignorable
|}.

(** ** The normalizer: [normalize_charset] *)

(** [s.startswith(old)] *)
Fixpoint starts_with (old s : str) : bool :=
  match old, s with
  | [], _ => true
  | _ :: _, [] => false
  | o :: old', c :: s' => N.eqb o c && starts_with old' s'
  end.

(** [s.replace(old, new)] for a non-empty [old]: occurrences are found
    left to right and do not overlap; [skip] counts the characters of the
    occurrence just replaced that are still to be passed over. *)
Fixpoint replace_from (old new s : str) (skip : nat) : str :=
  match s with
  | [] => []
  | c :: s' =>
      match skip with
      | S k => replace_from old new s' k
      | O =>
          if starts_with old s then new ++ replace_from old new s' (length old - 1)
          else c :: replace_from old new s' 0
      end
  end.

Definition replace (old new s : str) : str := replace_from old new s 0.

(** The codecs of the narrow charsets, over bytes held as numbers. *)
Inductive codec : Type := Latin1 | Ascii7.

Definition codec_limit (c : codec) : N :=
  match c with Latin1 => 256 | Ascii7 => 128 end%N.

(** [s.encode(codec, errors="ignore")]: what the codec cannot encode is
    dropped. *)
Definition encode_ignore (c : codec) (s : str) : list N :=
  List.filter (fun ch => N.ltb ch (codec_limit c)) s.

(** [bs.decode(codec)], strict. *)
Definition decode (c : codec) (bs : list N) : outcome str :=
  if forallb (fun b => N.ltb b (codec_limit c)) bs then Ok bs
  else Raise UnicodeDecodeError.

Section normalizer.
Context (U : unicode_data).

(** The characters the generator expression of line 48 keeps. *)
Definition kept (ch : codepoint) : bool :=
  N.eqb ch LF || N.eqb ch TAB
  || negb (Ascii.eqb (category_group (category U ch)) "C").

Definition normalize_charset (text target_charset : str) : outcome str :=
  let normalized := nfkc U (replace [CR] [LF] (replace [CR; LF] [LF] text)) in
  let normalized := List.filter kept normalized in
  if decide (target_charset = lit "utf-8") then Ok normalized
  else if decide (target_charset ∈ [lit "latin-1"; lit "ascii"]) then
    let codec := if decide (target_charset = lit "latin-1") then Latin1 else Ascii7 in
    decode codec (encode_ignore codec normalized)
  else Raise (ValueError (lit "Unsupported target charset: " ++ target_charset)).

End normalizer.

(** What [normalize_charset] computes for a recognized charset, step by
    step. *)
Definition narrowed (target_charset : str) (s : str) : str :=
  if decide (target_charset = lit "utf-8") then s
  else if decide (target_charset = lit "latin-1") then encode_ignore Latin1 s
  else encode_ignore Ascii7 s.

Definition UnsupportedCharsetError (target_charset : str) : exn :=
  ValueError (lit "Unsupported target charset: " ++ target_charset).

Definition is_newline_or_tab (ch : codepoint) : bool := N.eqb ch LF || N.eqb ch TAB.

(** The three recognized target charsets. *)
Definition recognized (target_charset : str) : Prop :=
  target_charset = lit "utf-8" \/ target_charset = lit "latin-1"
  \/ target_charset = lit "ascii".

(** Line endings unified in one pass: CR LF and a lone CR become LF. *)
Fixpoint unify_line_endings (s : str) : str :=
  match s with
  | [] => []
  | c :: s' =>
      if N.eqb c CR then
        match s' with
        | c' :: s'' => if N.eqb c' LF then LF :: unify_line_endings s''
                       else LF :: unify_line_endings s'
        | [] => [LF]
        end
      else c :: unify_line_endings s'
  end.

(** ** The spell corrector and the cleaning engine *)

(** [WORD_RE = re.compile(r"[A-Za-z][A-Za-z']+")] *)
Definition is_ascii_letter (c : codepoint) : bool :=
  in_range 65 90 c || in_range 97 122 c.

Definition is_word_char (c : codepoint) : bool :=
  is_ascii_letter c || N.eqb c APOSTROPHE.

(** The longest run of [[A-Za-z']] at the head of [s]. *)
Fixpoint word_run (s : str) : str :=
  match s with
  | [] => []
  | c :: s' => if is_word_char c then c :: word_run s' else []
  end.

(** [WORD_RE.match(s)]: a letter, then one or more word characters, as
    many as there are. *)
Definition WORD_RE_match (s : str) : option str :=
  match s with
  | [] => None
  | c :: s' =>
      if is_ascii_letter c then
        match word_run s' with
        | [] => None
        | run => Some (c :: run)
        end
      else None
  end.

(** [WORD_RE.finditer(s)]: the matches [(start, end, token)], left to
    right and not overlapping; [pos] is the position of the head of [s] and
    [skip] counts the characters of the last match still to be passed. *)
Fixpoint WORD_RE_finditer_from (s : str) (pos skip : nat) : list (nat * nat * str) :=
  match s with
  | [] => []
  | _ :: s' =>
      match skip with
      | S k => WORD_RE_finditer_from s' (S pos) k
      | O =>
          match WORD_RE_match s with
          | Some token =>
              (pos, (pos + length token)%nat, token)
                :: WORD_RE_finditer_from s' (S pos) (length token - 1)
          | None => WORD_RE_finditer_from s' (S pos) 0
          end
      end
  end.

Definition WORD_RE_finditer (s : str) : list (nat * nat * str) :=
  WORD_RE_finditer_from s 0 0.

Record CleanerConfig : Type := {
  target_charset : str;
  spellcheck : bool;
  language : str;
  max_suggestion_distance : Z
}.

(** [enchant.Dict]: the dictionary capability. *)
Record Dictionary : Type := {
  check : str -> bool;
  suggest : str -> list str
}.

Record TextCleaner : Type := {
  config : CleanerConfig;
  _dictionary : option Dictionary
}.

(** [TextCleaner.__init__]; [enchant] is the module when it can be
    imported. *)
Definition TextCleaner_init (enchant : option (str -> outcome Dictionary))
    (config : CleanerConfig) : outcome TextCleaner :=
  if spellcheck config then
    match enchant with
    | None =>
        Raise (RuntimeError
                 (lit "Spellcheck is enabled, but pyenchant is unavailable. "
                  ++ lit "Install pyenchant (and Enchant system libs), or pass --no-spellcheck."))
    | Some Dict =>
        dictionary ← Dict (language config);
        Ok {| config := config; _dictionary := Some dictionary |}
    end
  else Ok {| config := config; _dictionary := None |}.

(** A [Counter] keyed by (token, replacement), in insertion order. *)
Fixpoint counter_incr (key : str * str) (counter : list (str * str * nat))
    : list (str * str * nat) :=
  match counter with
  | [] => [(key, 1%nat)]
  | (k, n) :: counter' =>
      if decide (k = key) then (k, S n) :: counter'
      else (k, n) :: counter_incr key counter'
  end.

(** [Counter.most_common(n)]: by count, largest first, ties in insertion
    order. *)
Fixpoint insert_by_count (x : str * str * nat) (sorted : list (str * str * nat))
    : list (str * str * nat) :=
  match sorted with
  | [] => [x]
  | y :: sorted' =>
      if (y.2 <? x.2)%nat then x :: sorted else y :: insert_by_count x sorted'
  end.

Definition most_common (n : nat) (counter : list (str * str * nat))
    : list (str * str * nat) :=
  take n (foldl (fun sorted x => insert_by_count x sorted) [] counter).

Record Summary : Type := {
  edit_count : nat;
  (** [(from, to, count)] *)
  top_replacements : list (str * str * nat)
}.

Record CleaningResult : Type := {
  cleaned_text : str;
  edits : list Edit;
  input_md5 : str;
  output_md5 : str;
  changed : bool;
  summary : Summary
}.

(** A surrogate code point, U+D800 to U+DFFF: the strict UTF-8 codec
    refuses it. *)
Definition is_surrogate (ch : codepoint) : bool :=
  (N.leb 55296 ch && N.leb ch 57343)%N.

(** The bytes of one code point in UTF-8 (a Python string holds code points
    up to U+10FFFF). *)
Definition utf8_bytes (ch : codepoint) : list N :=
  (if ch <? 128 then [ch]
   else if ch <? 2048 then
     [N.lor 192 (N.shiftr ch 6); N.lor 128 (N.land ch 63)]
   else if ch <? 65536 then
     [N.lor 224 (N.shiftr ch 12); N.lor 128 (N.land (N.shiftr ch 6) 63);
      N.lor 128 (N.land ch 63)]
   else
     [N.lor 240 (N.shiftr ch 18); N.lor 128 (N.land (N.shiftr ch 12) 63);
      N.lor 128 (N.land (N.shiftr ch 6) 63); N.lor 128 (N.land ch 63)])%N.

(** [text.encode("utf-8")], strict: a surrogate raises. *)
Definition encode_utf8 (text : str) : outcome (list N) :=
  if forallb (fun ch => negb (is_surrogate ch)) text
  then Ok (flat_map utf8_bytes text)
  else Raise UnicodeEncodeError.

(** [md5_text]; [md5] is [hashlib]'s [md5(data).hexdigest()], the digest
    of a byte string as hexadecimal text. *)
Definition md5_text (md5 : list N -> str) (text : str) : outcome str :=
  data ← encode_utf8 text;
  Ok (md5 data).

Section clean.
Context (U : unicode_data).
(** [hashlib]'s [md5(data).hexdigest()] *)
Context (md5 : list N -> str).

(** Lines 122 to 130: what a token is replaced by. *)
Definition correct_token (dictionary : Dictionary) (max_distance : Z)
    (token : str) : str :=
  let replacement := token in
  if negb (check dictionary token) then
    let suggestions := suggest dictionary token in
    match suggestions with
    | candidate :: _ =>
        let candidate := _match_case U token candidate in
        let distance := _edit_distance (str_lower U token) (str_lower U candidate) in
        if Z.of_nat distance <=? max_distance then candidate else replacement
    | [] => replacement
    end
  else replacement.

(** [for match in WORD_RE.finditer(normalized)] *)
Fixpoint spell_loop (normalized : str) (dictionary : Dictionary) (max_distance : Z)
    (matches : list (nat * nat * str)) (pieces : list str) (cursor : nat)
    (replacement_counter : list (str * str * nat))
    : list str * nat * list (str * str * nat) :=
  match matches with
  | [] => (pieces, cursor, replacement_counter)
  | (start, end', token) :: matches' =>
      let replacement := correct_token dictionary max_distance token in
      let pieces :=
        pieces ++ [py_slice normalized (Z.of_nat cursor) (Z.of_nat start)] in
      let pieces := pieces ++ [replacement] in
      let cursor := end' in
      let replacement_counter :=
        if decide (replacement <> token)
        then counter_incr (token, replacement) replacement_counter
        else replacement_counter in
      spell_loop normalized dictionary max_distance matches' pieces cursor
        replacement_counter
  end.

Definition clean (self : TextCleaner) (raw_text : str) : outcome CleaningResult :=
  normalized ← normalize_charset U raw_text (target_charset (config self));
  let '(cleaned, replacement_counter) :=
    match spellcheck (config self), _dictionary self with
    | true, Some dictionary =>
        let '(pieces, cursor, replacement_counter) :=
          spell_loop normalized dictionary
            (max_suggestion_distance (config self))
            (WORD_RE_finditer normalized) [] 0%nat [] in
        let pieces := pieces ++ [py_slice_from normalized (Z.of_nat cursor)] in
        (concat pieces, replacement_counter)
    | _, _ => (normalized, [])
    end in
  edits ← match build_edits raw_text cleaned with
          | Some edits => Ok edits
          | None => Raise OutOfTurns
          end;
  let top_replacements := most_common 8 replacement_counter in
  input_digest ← md5_text md5 raw_text;
  output_digest ← md5_text md5 cleaned;
  Ok {| cleaned_text := cleaned;
        edits := edits;
        input_md5 := input_digest;
        output_md5 := output_digest;
        changed := bool_decide (raw_text <> cleaned);
        summary := {| edit_count := length edits;
                      top_replacements := top_replacements |} |}.

End clean.

(** The matches lie in [s], left to right from [cursor] on, each token
    being the characters of its span. *)
Fixpoint matches_ok (s : str) (cursor : nat) (matches : list (nat * nat * str)) : Prop :=
  match matches with
  | [] => True
  | (start, end', token) :: matches' =>
      (cursor <= start)%nat /\ end' = (start + length token)%nat
      /\ (end' <= length s)%nat
      /\ py_slice s (Z.of_nat start) (Z.of_nat end') = token
      /\ matches_ok s end' matches'
  end.

(** The text the spell corrector writes from [cursor] on: what lies
    between the tokens as it is, and each token as [correct_token] has it. *)
Fixpoint spelled (U : unicode_data) (dictionary : Dictionary) (max_distance : Z)
    (normalized : str) (matches : list (nat * nat * str)) (cursor : nat) : str :=
  match matches with
  | [] => py_slice_from normalized (Z.of_nat cursor)
  | (start, end', token) :: matches' =>
      py_slice normalized (Z.of_nat cursor) (Z.of_nat start)
        ++ correct_token U dictionary max_distance token
        ++ spelled U dictionary max_distance normalized matches' end'
  end.

(** The text [clean] makes of the normalized text: the spell corrector's
    when it is on and has a dictionary, the normalized text as it is
    otherwise. *)
Definition spell_corrected (U : unicode_data) (self : TextCleaner)
    (normalized : str) : str :=
  match spellcheck (config self), _dictionary self with
  | true, Some dictionary =>
      spelled U dictionary (max_suggestion_distance (config self)) normalized
        (WORD_RE_finditer normalized) 0
  | _, _ => normalized
  end.

(** A text with no surrogate, which the strict UTF-8 codec encodes. *)
Definition encodable (s : str) : Prop :=
  Forall (fun ch => is_surrogate ch = false) s.

(** A dictionary for the examples: it knows "the" and "package" and
    suggests "package" for "pakge". *)
Definition example_dictionary : Dictionary := {|
  check := fun w => bool_decide (w ∈ [lit "the"; lit "package"]);
  suggest := fun w => if decide (w = lit "pakge") then [lit "package"] else []
|}.

Definition example_cleaner (max_distance : Z) : TextCleaner := {|
  config := {| target_charset := lit "utf-8"; spellcheck := true;
               language := lit "en_US"; max_suggestion_distance := max_distance |};
  _dictionary := Some example_dictionary
|}.

(** The case transfer with "title-case" read as "first letter upper, rest
    lower". *)
Definition first_upper_rest_lowerb (U : unicode_data) (s : str) : bool :=
  match s with
  | [] => false
  | c :: rest =>
      bool_decide (case_of U c = Upper)
      && forallb (fun r => bool_decide (case_of U r = Lower)) rest
  end.

Definition match_case_by_first_letter (U : unicode_data) (source suggestion : str) : str :=
  if str_isupper U source then str_upper U suggestion
  else if first_upper_rest_lowerb U source then str_capitalize U suggestion
  else if str_islower U source then str_lower U suggestion else suggestion.

(** What [j2len] holds before row [i]: the lengths of the matches that end
    at [a[i-1]] and [b[j]]. *)
Definition j2len_ok (a b : str) (alo blo : nat) (i : nat) (j2len : gmap Z nat) : Prop :=
  forall z k, j2len !! z = Some k ->
    exists j, z = Z.of_nat j
      /\ (1 <= k)%nat /\ (k <= i - alo)%nat /\ (k <= j + 1 - blo)%nat
      /\ block_ok a b ((i - k)%nat, (j + 1 - k)%nat, k).

(** The best block so far lies in the rows scanned and is a match. *)
Definition best_ok (a b : str) (alo blo bhi : nat) (i : nat) (best : block) : Prop :=
  in_box alo i blo bhi best /\ block_ok a b best.

(** The queue and the blocks found so far: ranges inside the strings,
    blocks that match, and no two of them overlapping in either string. *)
Definition found_ok (a b : str) (x : block) : Prop :=
  block_ok a b x /\ (0 < x.2)%nat /\ in_box 0 (length a) 0 (length b) x.

Definition blocks_inv (a b : str) (queue : list box) (matching_blocks : list block) : Prop :=
  Forall (box_wf (length a) (length b)) queue
  /\ Forall (found_ok a b) matching_blocks
  /\ pairwise apart (queue ++ map box_of matching_blocks).

Definition block_fits (a b : str) (x : block) : Prop :=
  block_ok a b x /\ in_box 0 (length a) 0 (length b) x.

(** The rolling rows: after the characters [ap] of [a], row entry [k] is
    the distance between [ap] and the first [k] characters of [b] (both
    read backwards, which [lev_rev] shows does not matter). *)
Definition cell (b : str) (ra : str) (k : nat) : nat := lev ra (rev (take k b)).

(** The replay of malformed spans as first stated: with every start at or after the running cursor the
    replay succeeds, and each span with [end < start] shows up twice. *)
Definition malformed_spans_claim : Prop :=
  forall (original : str) (edits : list Edit),
    (forall pre e post, edits = pre ++ e :: post -> running_cursor pre <= start e) ->
    exists out, apply_edits original edits = Ok out
      /\ forall e, e ∈ edits -> end_ e < start e ->
           occurs_twice (py_slice original (end_ e) (start e)) out.

(** ** More of what the alignment guarantees *)

(** The positions of [x] in [bs], ascending, counted from [i]. *)
Fixpoint positions_from (bs : str) (i : nat) (x : codepoint) : list nat :=
  match bs with
  | [] => []
  | c :: bs' => (if N.eqb c x then [i] else []) ++ positions_from bs' (S i) x
  end.

(** Each edit starts strictly after [cursor] and the end of the edit
    before. *)
Fixpoint strictly_after (cursor : Z) (edits : list Edit) : Prop :=
  match edits with
  | [] => True
  | e :: edits' => cursor < start e /\ strictly_after (end_ e) edits'
  end.

(** [sum(e.end - e.start)] and [sum(len(e.replacement))] over the edits. *)
Definition removed (edits : list Edit) : Z :=
  foldr (fun e n => (end_ e - start e) + n) 0 edits.

Definition inserted (edits : list Edit) : Z :=
  foldr (fun e n => Z.of_nat (length (replacement e)) + n) 0 edits.

(** A token of [WORD_RE]: a letter, then one or more letters or
    apostrophes. *)
Definition word_token (token : str) : Prop :=
  match token with
  | [] => False
  | c :: rest =>
      is_ascii_letter c = true /\ rest <> []
      /\ Forall (fun r => is_word_char r = true) rest
  end.

(** A match is a token that the text does not continue: the character
    after it, if any, is no letter and no apostrophe. *)
Definition match_ok (s : str) (m : nat * nat * str) : Prop :=
  word_token m.2
  /\ match s !! m.1.2 with
     | Some c => is_word_char c = false
     | None => True
     end.

(** What the replacement counter holds: distinct pairs of different words,
    each counted at least once. *)
Definition counter_ok (counter : list (str * str * nat)) : Prop :=
  NoDup (map fst counter)
  /\ Forall (fun x => x.1.1 <> x.1.2 /\ (1 <= x.2)%nat) counter.

(** A cleaner with the spell corrector off, as [TextCleaner.__init__]
    builds it. *)
Definition plain_cleaner (charset : str) : TextCleaner := {|
  config := {| target_charset := charset; spellcheck := false;
               language := lit "en_US"; max_suggestion_distance := 2 |};
  _dictionary := None
|}.

(** [counter[key]]: the count of a key, [0] when the key is absent. *)
Fixpoint counter_get (key : str * str) (counter : list (str * str * nat)) : nat :=
  match counter with
  | [] => 0%nat
  | (k, n) :: counter' => if decide (k = key) then n else counter_get key counter'
  end.

(** How many of the matches have the token [token]. *)
Definition occurrences (token : str) (matches : list (nat * nat * str)) : nat :=
  length (List.filter (fun m => bool_decide (m.2 = token)) matches).

(** A letter followed by a letter or an apostrophe at position [i]. *)
Definition word_start (s : str) (i : nat) : Prop :=
  exists c d, s !! i = Some c /\ s !! S i = Some d
              /\ is_ascii_letter c = true /\ is_word_char d = true.

(** The counter after the loop has seen [seen]: a pair has the count of
    its token when the token is replaced by the second component, and is
    absent otherwise. *)
Definition counter_counts (U : unicode_data) (dictionary : Dictionary)
    (max_distance : Z) (seen : list (nat * nat * str))
    (counter : list (str * str * nat)) : Prop :=
  forall token rep,
    counter_get (token, rep) counter
    = if decide (rep = correct_token U dictionary max_distance token /\ rep <> token)
      then occurrences token seen else 0%nat.

(** ** The command line in CSV mode: [__main__.py] *)

(** What ends a command early: [SystemExit] with its message, the
    [KeyError] of a key that a changelog item lacks, or an exception of the
    cleaning engine. *)
Inductive failure : Type :=
  | SystemExit (msg : str)
  | KeyError (key : str)
  | Uncaught (e : exn).

Inductive run (A : Type) : Type :=
  | Done (a : A)
  | Stop (f : failure).
Arguments Done {A} a.
Arguments Stop {A} f.

#[global] Instance run_ret : MRet run := fun A a => Done a.
#[global] Instance run_bind : MBind run := fun A B k m =>
  match m with
  | Done a => k a
  | Stop f => Stop f
  end.

(** A call of the engine inside a command. *)
Definition lift {A : Type} (m : outcome A) : run A :=
  match m with
  | Ok a => Done a
  | Raise e => Stop (Uncaught e)
  end.

(** [f"{n}"] for an [int] *)
Definition str_of_int (n : Z) : str := lit (pretty n).

(** A row as [csv.DictReader] gives it: under each column of the header
    the cell, or [None] where the line is too short, and under the key
    [None] the cells that a longer line has beyond the header. *)
Record Row : Type := {
  cells : gmap str (option str);
  beyond : option (list str)
}.

(** [row.get(column, "") or ""] for a column name *)
Definition row_text (row : Row) (column : str) : str :=
  match cells row !! column with
  | Some (Some text) => text
  | Some None => []
  | None => []
  end.

(** [out = dict(row); out[column] = text] *)
Definition row_set (row : Row) (column text : str) : Row :=
  {| cells := <[column := Some text]> (cells row); beyond := beyond row |}.

(** The arguments the CSV commands read; the files are held by the
    caller: a command takes the rows and the header that [load_csv_rows]
    returns and gives the call of [write_csv_rows] it makes. *)
Record Args : Type := {
  text_column : str;
  cleaned_column : str;
  strict_md5 : bool
}.

(** An item of the changelog. The keys that [validate] and [reproduce]
    look up are optional: an item read from a changelog file may lack
    them. *)
Module Item.
Record t : Type := {
  item_id : str;
  row_index : option Z;
  input_md5 : option str;
  output_md5 : str;
  changed : bool;
  edits : option (list Edit);
  summary : Summary
}.
End Item.

(** [payload.get("items", [])] reads [items]. *)
Record Payload : Type := {
  items : option (list Item.t)
}.

(** [item[key]] *)
Definition subscript {A : Type} (key : string) (field : option A) : run A :=
  match field with
  | Some a => Done a
  | None => Stop (KeyError (lit key))
  end.

(** The call [write_csv_rows(output_csv, output_rows, output_fieldnames)]. *)
Record CsvWrite : Type := {
  output_rows : list Row;
  output_fieldnames : list str
}.

Record Cleaned : Type := {
  cleaned_write : CsvWrite;
  cleaned_items : list Item.t;
  cleaned_total : nat
}.

(** What a command leaves: the CSV it writes, if any, the lines it prints
    and its return code. *)
Record Finished : Type := {
  written : option CsvWrite;
  printed : list str;
  code : Z
}.

(** The item [_clean_csv] records for a row. *)
Definition changelog_item (row_index : Z) (result : CleaningResult) : Item.t :=
  let item_id := lit "row:" ++ str_of_int row_index in
  {| Item.item_id := item_id;
     Item.row_index := Some row_index;
     Item.input_md5 := Some (input_md5 result);
     Item.output_md5 := output_md5 result;
     Item.changed := changed result;
     Item.edits := Some (edits result);
     Item.summary := summary result |}.

(** The two checks of the header. *)
Definition check_text_column (args : Args) (fieldnames : list str) : run unit :=
  if decide (text_column args ∉ fieldnames)
  then Stop (SystemExit (lit "Column not found: " ++ text_column args))
  else Done tt.

Definition check_cleaned_column (args : Args) (fieldnames : list str) : run unit :=
  if decide (cleaned_column args ∈ fieldnames)
  then Stop (SystemExit (lit "Cleaned column overlaps existing CSV column: "
                         ++ cleaned_column args))
  else Done tt.

Section csv_mode.
Context (U : unicode_data) (md5 : list N -> str).

(** [for row_index, row in enumerate(rows, start=1)] of [_clean_csv] *)
Fixpoint clean_rows (args : Args) (cleaner : TextCleaner) (rows : list Row)
    (row_index : Z) (items : list Item.t) (output_rows : list Row)
    : run (list Item.t * list Row) :=
  match rows with
  | [] => Done (items, output_rows)
  | row :: rows' =>
      let raw_text := row_text row (text_column args) in
      result ← lift (clean U md5 cleaner raw_text);
      let items := items ++ [changelog_item row_index result] in
      let out := row_set row (cleaned_column args) (cleaned_text result) in
      let output_rows := output_rows ++ [out] in
      clean_rows args cleaner rows' (row_index + 1) items output_rows
  end.

(** [_clean_csv] on the rows and the header that [load_csv_rows] returns:
    the call of [write_csv_rows] it makes and the items it returns. *)
Definition _clean_csv (args : Args) (cleaner : TextCleaner)
    (rows : list Row) (fieldnames : list str) : run Cleaned :=
  _ ← check_text_column args fieldnames;
  _ ← check_cleaned_column args fieldnames;
  let output_fieldnames := fieldnames ++ [cleaned_column args] in
  '(items, output_rows) ← clean_rows args cleaner rows 1 [] [];
  Done {| cleaned_write := {| output_rows := output_rows;
                              output_fieldnames := output_fieldnames |};
          cleaned_items := items;
          cleaned_total := length items |}.

(** [{item["row_index"]: item["input_md5"] for item in ...}] *)
Fixpoint expected_loop (items : list Item.t) (expected : gmap Z str)
    : run (gmap Z str) :=
  match items with
  | [] => Done expected
  | item :: items' =>
      key ← subscript "row_index" (Item.row_index item);
      value ← subscript "input_md5" (Item.input_md5 item);
      expected_loop items' (<[key := value]> expected)
  end.

(** The loop of [_validate_csv] over the rows. *)
Fixpoint validate_rows (args : Args) (expected : gmap Z str) (rows : list Row)
    (row_index : Z) (mismatches : nat) (printed : list str)
    : run (nat * list str) :=
  match rows with
  | [] => Done (mismatches, printed)
  | row :: rows' =>
      match expected !! row_index with
      | None => validate_rows args expected rows' (row_index + 1) mismatches printed
      | Some recorded =>
          digest ← lift (md5_text md5 (row_text row (text_column args)));
          if decide (digest <> recorded) then
            validate_rows args expected rows' (row_index + 1) (mismatches + 1)
              (printed ++ [lit "MD5 mismatch: row:" ++ str_of_int row_index])
          else validate_rows args expected rows' (row_index + 1) mismatches printed
      end
  end.

(** [_validate_csv] on the rows and the header that [load_csv_rows]
    returns, with the changelog as [read_changelog_json] returns it. *)
Definition _validate_csv (args : Args) (rows : list Row) (fieldnames : list str)
    (payload : Payload) : run Finished :=
  _ ← check_text_column args fieldnames;
  expected ← expected_loop (default [] (items payload)) ∅;
  '(mismatches, printed) ← validate_rows args expected rows 1 0%nat [];
  if decide (mismatches <> 0%nat) then
    Done {| written := None;
            printed := printed ++ [lit "Validation failed. Mismatches: "
                                   ++ str_of_int (Z.of_nat mismatches)];
            code := 1 |}
  else
    Done {| written := None;
            printed := printed ++ [lit "Validation passed."];
            code := 0 |}.

(** [{item["row_index"]: item for item in ...}] *)
Fixpoint by_row_loop (items : list Item.t) (by_row : gmap Z Item.t)
    : run (gmap Z Item.t) :=
  match items with
  | [] => Done by_row
  | item :: items' =>
      key ← subscript "row_index" (Item.row_index item);
      by_row_loop items' (<[key := item]> by_row)
  end.

(** The cleaned text [_reproduce_csv] gives a row. *)
Definition reproduce_text (args : Args) (item : option Item.t) (row_index : Z)
    (raw_text : str) : run str :=
  match item with
  | None => Done raw_text
  | Some item =>
      digest ← lift (md5_text md5 raw_text);
      _ ← (if strict_md5 args then
             recorded ← subscript "input_md5" (Item.input_md5 item);
             if decide (digest <> recorded) then
               Stop (SystemExit (lit "MD5 mismatch for row:" ++ str_of_int row_index
                                 ++ lit ". Use --no-strict-md5 to override."))
             else Done tt
           else Done tt);
      lift (apply_edits raw_text (default [] (Item.edits item)))
  end.

(** The loop of [_reproduce_csv] over the rows. *)
Fixpoint reproduce_rows (args : Args) (by_row : gmap Z Item.t) (rows : list Row)
    (row_index : Z) (output_rows : list Row) : run (list Row) :=
  match rows with
  | [] => Done output_rows
  | row :: rows' =>
      let item := by_row !! row_index in
      let raw_text := row_text row (text_column args) in
      cleaned ← reproduce_text args item row_index raw_text;
      let out := row_set row (cleaned_column args) cleaned in
      reproduce_rows args by_row rows' (row_index + 1) (output_rows ++ [out])
  end.

(** [_reproduce_csv], likewise. *)
Definition _reproduce_csv (args : Args) (rows : list Row) (fieldnames : list str)
    (payload : Payload) : run Finished :=
  _ ← check_text_column args fieldnames;
  _ ← check_cleaned_column args fieldnames;
  let output_fieldnames := fieldnames ++ [cleaned_column args] in
  by_row ← by_row_loop (default [] (items payload)) ∅;
  output_rows ← reproduce_rows args by_row rows 1 [];
  Done {| written := Some {| output_rows := output_rows;
                             output_fieldnames := output_fieldnames |};
          printed := [lit "Reproduced CSV rows: "
                      ++ str_of_int (Z.of_nat (length output_rows))];
          code := 0 |}.

End csv_mode.

(** The items of the results of successive rows, numbered from
    [row_index]. *)
Fixpoint items_from (row_index : Z) (results : list CleaningResult) : list Item.t :=
  match results with
  | [] => []
  | result :: results' =>
      changelog_item row_index result :: items_from (row_index + 1) results'
  end.

(** Every row, numbered from [row_index], that has a recorded fingerprint
    has a text with that fingerprint. *)
Definition rows_match (md5 : list N -> str) (args : Args) (expected : gmap Z str)
    (rows : list Row) (row_index : Z) : Prop :=
  forall k row recorded,
    rows !! k = Some row ->
    expected !! (row_index + Z.of_nat k) = Some recorded ->
    md5_text md5 (row_text row (text_column args)) = Ok recorded.

(** A CSV example: two rows, the second without text. *)
Definition example_rows : list Row :=
  [ {| cells := {[ lit "text" := Some (lit "the pakge") ]}; beyond := None |};
    {| cells := {[ lit "text" := None ]}; beyond := None |} ].

Definition example_args (strict : bool) : Args :=
  {| text_column := lit "text"; cleaned_column := lit "text_cleaned";
     strict_md5 := strict |}.

(** A changelog whose only item records another fingerprint for row 1. *)
Definition example_payload : Payload :=
  {| items := Some [ {| Item.item_id := lit "row:1";
                        Item.row_index := Some 1;
                        Item.input_md5 := Some (lit "0");
                        Item.output_md5 := lit "0";
                        Item.changed := false;
                        Item.edits := Some [];
                        Item.summary := {| edit_count := 0; top_replacements := [] |} |} ] |}.

(** ** Writing a text file: [io_ops.write_text_file] *)

(** The bytes that [path.write_text(text, encoding=codec, errors="ignore")]
    gives the file. The file is opened in text mode, so each line feed is
    written as [linesep], the line separator of the platform
    ([os.linesep]); what the codec cannot encode is dropped. *)
Definition write_text_file (linesep : str) (text output_charset : str) : list N :=
  let text := if decide (linesep = [LF]) then text else replace [LF] linesep text in
  if decide (output_charset = lit "utf-8") then
    flat_map utf8_bytes (List.filter (fun ch => negb (is_surrogate ch)) text)
  else if decide (output_charset = lit "latin-1") then encode_ignore Latin1 text
  else encode_ignore Ascii7 text.

(** * Properties *)

(** ** Properties of the edit replayer *)

Lemma running_cursor_snoc pre e : running_cursor (pre ++ [e]) = end_ e.
Proof. unfold running_cursor. by rewrite last_snoc. Qed.

Lemma apply_edits_loop_ok original edits :
  forall cursor result,
    (forall pre e post, edits = pre ++ e :: post ->
       (match last pre with Some p => end_ p | None => cursor end) <= start e) ->
    exists c' pieces,
      apply_edits_loop original edits cursor result = Ok (c', result ++ pieces)
      /\ concat pieces ++ py_slice_from original c' = replayed original cursor edits.
Proof.
  induction edits as [|e edits IH]; intros cursor result Hord; simpl.
  - exists cursor, []. by rewrite app_nil_r.
  - pose proof (Hord [] e edits eq_refl) as H0. simpl in H0.
    destruct (Z.ltb_spec (start e) cursor) as [?|_]; [lia|].
    destruct (IH (end_ e)
                (((result ++ [py_slice original cursor (start e)]) ++ [replacement e])))
      as (c' & pieces & Hrun & Hcat).
    { intros pre e' post ->.
      specialize (Hord (e :: pre) e' post eq_refl).
      rewrite last_cons in Hord. by destruct (last pre). }
    exists c', ([py_slice original cursor (start e)] ++ [replacement e] ++ pieces).
    split.
    + rewrite Hrun. f_equal. f_equal. by rewrite <- !app_assoc.
    + simpl. rewrite <- Hcat. by rewrite <- !app_assoc.
Qed.

Lemma apply_edits_loop_overlap original edits :
  forall cursor result pre e post,
    edits = pre ++ e :: post ->
    start e < (match last pre with Some p => end_ p | None => cursor end) ->
    apply_edits_loop original edits cursor result = Raise OverlapError.
Proof.
  induction edits as [|e0 edits IH]; intros cursor result pre e post Heq Hlt.
  - by destruct pre.
  - simpl. destruct (Z.ltb_spec (start e0) cursor) as [?|Hge]; [done|].
    destruct pre as [|p pre]; simplify_eq/=; [lia|].
    eapply (IH _ _ pre e post); [done|].
    rewrite last_cons in Hlt. by destruct (last pre).
Qed.

Lemma apply_edits_ok original edits :
  (forall pre e post, edits = pre ++ e :: post -> running_cursor pre <= start e) ->
  apply_edits original edits = Ok (replayed original 0 edits).
Proof.
  intros Hord. unfold apply_edits.
  destruct (apply_edits_loop_ok original edits 0 [] Hord) as (c' & pieces & -> & <-).
  simpl. by rewrite concat_app, concat_cons, concat_nil, app_nil_r.
Qed.

Lemma apply_edits_overlap original edits pre e post :
  edits = pre ++ e :: post -> start e < running_cursor pre ->
  apply_edits original edits = Raise OverlapError.
Proof.
  intros Heq Hlt. unfold apply_edits.
  by rewrite (apply_edits_loop_overlap original edits 0 [] pre e post Heq Hlt).
Qed.

(** Slices of a string at non-negative, ascending offsets are adjacent. *)
Lemma py_slice_split (s : str) a b c :
  0 <= a <= b -> b <= c -> py_slice s a c = py_slice s a b ++ py_slice s b c.
Proof.
  intros Hab Hbc. unfold py_slice, adjust_index.
  repeat match goal with |- context [?x <? 0] =>
    destruct (Z.ltb_spec x 0); [lia|] end.
  set (n := Z.of_nat (length s)).
  rewrite <- (take_drop (Z.to_nat (Z.min b n - Z.min a n))
              (take (Z.to_nat (Z.min c n - Z.min a n)) (drop (Z.to_nat (Z.min a n)) s))).
  f_equal.
  - rewrite take_take. f_equal. lia.
  - rewrite skipn_firstn_comm, drop_drop. f_equal; [lia|f_equal; lia].
Qed.

Lemma py_slice_from_split (s : str) b c :
  0 <= b <= c -> py_slice_from s b = py_slice s b c ++ py_slice_from s c.
Proof.
  intros Hbc. unfold py_slice, py_slice_from, adjust_index.
  repeat match goal with |- context [?x <? 0] =>
    destruct (Z.ltb_spec x 0); [lia|] end.
  set (n := Z.of_nat (length s)).
  rewrite <- (take_drop (Z.to_nat (Z.min c n - Z.min b n)) (drop (Z.to_nat (Z.min b n)) s)) at 1.
  f_equal. rewrite drop_drop. f_equal. lia.
Qed.

(** C2: [apply_edits] raises the overlap [ValueError] whenever some edit
    starts before the running cursor (the end of the edit before it, [0]
    for the first), as for the edits [{0,5,"x"}; {3,8,"y"}] on any text;
    when every edit starts at or after the running cursor it returns, for
    each edit in turn, the span of [original] from the cursor to the start
    of the edit followed by the replacement, and then the tail of
    [original] from the last cursor. *)
Theorem apply_edits_overlap_rejection (original : str) (edits : list Edit) :
  ((exists pre e post, edits = pre ++ e :: post /\ start e < running_cursor pre) ->
     apply_edits original edits = Raise OverlapError)
  /\ ((forall pre e post, edits = pre ++ e :: post -> running_cursor pre <= start e) ->
     apply_edits original edits = Ok (replayed original 0 edits))
  /\ apply_edits original [mkEdit 0 5 (lit "x"); mkEdit 3 8 (lit "y")]
     = Raise OverlapError.
Proof.
  split; [|split].
  - intros (pre & e & post & Heq & Hlt). by eapply apply_edits_overlap.
  - apply apply_edits_ok.
  - reflexivity.
Qed.

Lemma replayed_app original pre rest :
  forall cursor,
    exists x, replayed original cursor (pre ++ rest)
      = x ++ replayed original
               (match last pre with Some p => end_ p | None => cursor end) rest.
Proof.
  induction pre as [|p pre IH]; intros cursor; simpl.
  - by exists [].
  - destruct (IH (end_ p)) as [x Hx].
    exists (py_slice original cursor (start p) ++ replacement p ++ x).
    rewrite Hx, last_cons, <- !app_assoc. by destruct (last pre).
Qed.

Lemma py_slice_beyond (s : str) c hi :
  Z.of_nat (length s) <= c -> py_slice s c hi = [] /\ py_slice_from s c = [].
Proof.
  intros Hc. unfold py_slice, py_slice_from, adjust_index.
  destruct (Z.ltb_spec c 0); [lia|].
  replace (Z.min c (Z.of_nat (length s))) with (Z.of_nat (length s)) by lia.
  rewrite Nat2Z.id, drop_all.
  split; [apply take_nil|done].
Qed.

(** C10 fails as written: on "abcdef" the edits [{3,1,"X"}; {1,6,"Y"}] pass
    the cursor check and give "abcXY", where the span [1,3) = "bc" occurs
    once only. *)
Lemma malformed_spans_claim_fails : ~ malformed_spans_claim.
Proof.
  intros Hclaim.
  destruct (Hclaim (lit "abcdef") [mkEdit 3 1 (lit "X"); mkEdit 1 6 (lit "Y")])
    as (out & Hout & Hdup).
  { intros pre e post Heq.
    destruct pre as [|p1 [|p2 [|p3 pre]]]; simplify_eq/=; done. }
  vm_compute in Hout. simplify_eq.
  destruct (Hdup (mkEdit 3 1 (lit "X"))) as (x & y & z & Heq);
    [set_solver|simpl; lia|].
  change (py_slice _ _ _) with [98%N; 99%N] in Heq.
  assert (Hlen := f_equal length Heq).
  rewrite !length_app in Hlen. simpl in Hlen.
  destruct x as [|? [|? ?]], y as [|? [|? ?]], z as [|? [|? ?]];
    simpl in Hlen; try lia; simpl in Heq; congruence.
Qed.

(** C10, amended: the replayer checks only [start] against the running
    cursor, so every edit list passing that check is replayed whatever its
    [end]s are; a span from an offset at or beyond the end of [original] is
    empty; and an edit with [cursor <= end < start] that is followed by no
    edit starting before its [start] writes [original[end:start]] on both
    sides of its replacement. *)
Theorem apply_edits_unchecked_spans (original : str) (edits : list Edit) :
  (forall pre e post, edits = pre ++ e :: post -> running_cursor pre <= start e) ->
  apply_edits original edits = Ok (replayed original 0 edits)
  /\ (forall c hi, Z.of_nat (length original) <= c ->
        py_slice original c hi = [] /\ py_slice_from original c = [])
  /\ (forall pre e post, edits = pre ++ e :: post ->
        0 <= running_cursor pre <= end_ e -> end_ e < start e ->
        (forall e', head post = Some e' -> start e <= start e') ->
        exists x z,
          replayed original 0 edits
          = x ++ py_slice original (end_ e) (start e) ++ replacement e
              ++ py_slice original (end_ e) (start e) ++ z).
Proof.
  intros Hord. split; [by apply apply_edits_ok|].
  split; [intros c hi; apply py_slice_beyond|].
  intros pre e post -> Hcur Hlt Hnext.
  destruct (replayed_app original pre (e :: post) 0) as [x ->].
  fold (running_cursor pre). set (c := running_cursor pre) in *.
  simpl.
  rewrite (py_slice_split original c (end_ e) (start e)) by lia.
  exists (x ++ py_slice original c (end_ e)).
  destruct post as [|e' post]; simpl.
  - exists (py_slice_from original (start e)).
    rewrite (py_slice_from_split original (end_ e) (start e)) by lia.
    by rewrite <- !app_assoc.
  - specialize (Hnext e' eq_refl).
    exists (py_slice original (start e) (start e') ++ replacement e'
              ++ replayed original (end_ e') post).
    rewrite (py_slice_split original (end_ e) (start e) (start e')) by lia.
    by rewrite <- !app_assoc.
Qed.

Lemma apply_edits_overlap_rejection_witness :
  apply_edits (lit "abcdef") [mkEdit 2 1 (lit "X"); mkEdit 0 3 (lit "Y")]
    = Raise OverlapError
  /\ apply_edits (lit "abcdef") [mkEdit 1 2 (lit "X"); mkEdit 4 9 (lit "Y")]
    = Ok (lit "aXcdY").
Proof.
  split.
  - apply (proj1 (apply_edits_overlap_rejection (lit "abcdef")
                   [mkEdit 2 1 (lit "X"); mkEdit 0 3 (lit "Y")])).
    exists [mkEdit 2 1 (lit "X")], (mkEdit 0 3 (lit "Y")), []. split; [done|].
    unfold running_cursor; simpl; lia.
  - apply (proj1 (proj2 (apply_edits_overlap_rejection (lit "abcdef")
                   [mkEdit 1 2 (lit "X"); mkEdit 4 9 (lit "Y")]))).
    intros pre e post Heq.
    destruct pre as [|p1 [|p2 [|p3 pre]]]; simplify_eq/=; done.
Defined.

Lemma apply_edits_unchecked_spans_witness :
  exists x z,
    replayed (lit "abcdef") 0 [mkEdit 3 1 (lit "X")]
    = x ++ lit "bc" ++ lit "X" ++ lit "bc" ++ z.
Proof.
  refine (proj2 (proj2 (apply_edits_unchecked_spans (lit "abcdef")
            [mkEdit 3 1 (lit "X")] _)) [] (mkEdit 3 1 (lit "X")) [] eq_refl _ _ _).
  - intros pre e post Heq.
    destruct pre as [|p1 [|p2 pre]]; simplify_eq/=; done.
  - unfold running_cursor; simpl; lia.
  - simpl; lia.
  - intros e' [=].
Defined.

(** ** Properties of the distance evaluator *)

Section distance.
Local Open Scope nat_scope.

Lemma differ_refl x : differ x x = 0.
Proof. unfold differ. by rewrite N.eqb_refl. Qed.

Lemma differ_sym x y : differ x y = differ y x.
Proof. unfold differ. by rewrite N.eqb_sym. Qed.

Lemma differ_zero x y : differ x y = 0 -> x = y.
Proof. unfold differ. destruct (N.eqb_spec x y); [done|lia]. Qed.

Lemma differ_le_1 x y : differ x y <= 1.
Proof. unfold differ. destruct (N.eqb x y); lia. Qed.

Lemma differ_triangle x y z : differ x z <= differ x y + differ y z.
Proof.
  unfold differ.
  destruct (N.eqb_spec x z), (N.eqb_spec x y), (N.eqb_spec y z); lia.
Qed.

(** The equations of the recurrence. *)
Lemma lev_nil_l b : lev [] b = length b.
Proof. done. Qed.

Lemma lev_nil_r a : lev a [] = length a.
Proof. by destruct a. Qed.

Lemma lev_cons x a y b :
  lev (x :: a) (y :: b)
  = Nat.min (lev a (y :: b) + 1)
      (Nat.min (lev (x :: a) b + 1) (lev a b + differ x y)).
Proof. done. Qed.

Opaque lev.

Lemma lev_delete x a b : lev (x :: a) b <= lev a b + 1.
Proof.
  destruct b as [|y b].
  - rewrite !lev_nil_r. simpl. lia.
  - rewrite lev_cons. lia.
Qed.

Lemma lev_insert y a b : lev a (y :: b) <= lev a b + 1.
Proof.
  destruct a as [|x a].
  - rewrite !lev_nil_l. simpl. lia.
  - rewrite lev_cons. lia.
Qed.

Lemma lev_keep x y a b : lev (x :: a) (y :: b) <= lev a b + differ x y.
Proof. rewrite lev_cons. lia. Qed.

(** [lev a b] is the cost of some script, and no script is cheaper. *)
Lemma lev_script a : forall b, script a b (lev a b).
Proof.
  induction a as [|x a IHa]; intros b.
  - rewrite lev_nil_l. induction b as [|y b IHb]; simpl; by constructor.
  - induction b as [|y b IHb].
    + rewrite lev_nil_r. simpl. constructor.
      specialize (IHa []). by rewrite lev_nil_r in IHa.
    + rewrite lev_cons.
      destruct (Nat.min_spec (lev a (y :: b) + 1)
                  (Nat.min (lev (x :: a) b + 1) (lev a b + differ x y)))
        as [[_ ->]|[_ ->]].
      * rewrite Nat.add_1_r. by constructor.
      * destruct (Nat.min_spec (lev (x :: a) b + 1) (lev a b + differ x y))
          as [[_ ->]|[_ ->]].
        -- rewrite Nat.add_1_r. by constructor.
        -- by constructor.
Qed.

Lemma script_lev a b n : script a b n -> lev a b <= n.
Proof.
  induction 1 as [|x a b n _ IH|y a b n _ IH|x y a b n _ IH].
  - done.
  - pose proof (lev_delete x a b). lia.
  - pose proof (lev_insert y a b). lia.
  - pose proof (lev_keep x y a b). lia.
Qed.

(** Scripts can be extended at the right end as well. *)
Lemma script_delete_end x a b n : script a b n -> script (a ++ [x]) b (S n).
Proof.
  induction 1; simpl; try by repeat constructor.
  change (S (n + differ x0 y)) with (S n + differ x0 y). by constructor.
Qed.

Lemma script_insert_end y a b n : script a b n -> script a (b ++ [y]) (S n).
Proof.
  induction 1; simpl; try by repeat constructor.
  change (S (n + differ x y0)) with (S n + differ x y0). by constructor.
Qed.

Lemma script_keep_end x y a b n :
  script a b n -> script (a ++ [x]) (b ++ [y]) (n + differ x y).
Proof.
  induction 1; simpl; try by constructor.
  - apply (script_keep x y [] [] 0). constructor.
  - replace (n + differ x0 y0 + differ x y) with (n + differ x y + differ x0 y0) by lia.
    by constructor.
Qed.

Lemma script_rev a b n : script a b n -> script (rev a) (rev b) n.
Proof.
  induction 1; simpl.
  - constructor.
  - by apply script_delete_end.
  - by apply script_insert_end.
  - by apply script_keep_end.
Qed.

Lemma script_sym a b n : script a b n -> script b a n.
Proof.
  induction 1; try by constructor.
  rewrite differ_sym. by constructor.
Qed.

Lemma lev_rev a b : lev (rev a) (rev b) = lev a b.
Proof.
  apply Nat.le_antisymm.
  - apply script_lev, script_rev, lev_script.
  - rewrite <- (rev_involutive a), <- (rev_involutive b) at 1.
    apply script_lev, script_rev, lev_script.
Qed.

Lemma lev_sym a b : lev a b = lev b a.
Proof.
  apply Nat.le_antisymm; apply script_lev, script_sym, lev_script.
Qed.

Lemma lev_refl a : lev a a = 0.
Proof.
  induction a as [|x a IH]; [done|].
  pose proof (lev_keep x x a a). rewrite differ_refl in *. lia.
Qed.

Lemma lev_zero a : forall b, lev a b = 0 -> a = b.
Proof.
  induction a as [|x a IH]; intros [|y b]; rewrite ?lev_nil_l, ?lev_nil_r;
    simpl; try done.
  rewrite lev_cons. intros H.
  assert (lev a b = 0 /\ differ x y = 0) as [Hab Hxy] by lia.
  f_equal; [by apply differ_zero|by apply IH].
Qed.

Lemma lev_length_l a : forall b, length a <= lev a b + length b.
Proof.
  induction a as [|x a IH]; intros b; [simpl; lia|].
  induction b as [|y b IHb].
  - rewrite lev_nil_r. lia.
  - rewrite lev_cons. pose proof (IH (y :: b)). pose proof (IH b).
    simpl in *. lia.
Qed.

Lemma lev_length_r a b : length b <= length a + lev a b.
Proof. rewrite lev_sym. pose proof (lev_length_l b a). lia. Qed.

Lemma lev_le_sum a : forall b, lev a b <= length a + length b.
Proof.
  induction a as [|x a IH]; intros b; [rewrite lev_nil_l; simpl; lia|].
  pose proof (lev_delete x a b). pose proof (IH b). simpl. lia.
Qed.

Lemma lev_triangle_aux n :
  forall a b c, length a + length b + length c < n ->
    lev a c <= lev a b + lev b c.
Proof.
  induction n as [|n IH]; intros a b c Hn; [lia|].
  destruct a as [|x a].
  { rewrite !lev_nil_l. apply lev_length_r. }
  destruct c as [|z c].
  { rewrite !lev_nil_r. apply (lev_length_l (x :: a) b). }
  destruct b as [|y b].
  { rewrite lev_nil_l, lev_nil_r. apply lev_le_sum. }
  simpl in Hn.
  pose proof (lev_delete x a (z :: c)) as Hdel.
  pose proof (lev_insert z (x :: a) c) as Hins.
  pose proof (lev_keep x z a c) as Hkeep.
  pose proof (differ_triangle x y z) as Hd.
  pose proof (IH a (y :: b) (z :: c)) as IH1.
  pose proof (IH (x :: a) (y :: b) c) as IH2.
  pose proof (IH (x :: a) b (z :: c)) as IH3.
  pose proof (IH (x :: a) b c) as IH4.
  pose proof (IH a b (z :: c)) as IH5.
  pose proof (IH a b c) as IH6.
  pose proof (lev_cons x a y b) as E1.
  pose proof (lev_cons y b z c) as E2.
  simpl in *. lia.
Qed.

Lemma lev_triangle a b c : lev a c <= lev a b + lev b c.
Proof. apply (lev_triangle_aux (S (length a + length b + length c))). lia. Qed.

Lemma getitem_app_l l1 l2 k : k < length l1 -> getitem (l1 ++ l2) k = getitem l1 k.
Proof. intros. unfold getitem. by apply app_nth1. Qed.

Lemma getitem_app_r l v : getitem (l ++ [v]) (length l) = v.
Proof. unfold getitem. by rewrite nth_middle. Qed.

Lemma row_loop_spec b x ra prev :
  length prev = S (length b) ->
  (forall k, k <= length b -> getitem prev k = cell b ra k) ->
  forall bs bp current,
    b = bp ++ bs ->
    length current = S (length bp) ->
    (forall k, k <= length bp -> getitem current k = cell b (x :: ra) k) ->
    length (row_loop x bs (S (length bp)) prev current) = S (length b)
    /\ forall k, k <= length b ->
         getitem (row_loop x bs (S (length bp)) prev current) k = cell b (x :: ra) k.
Proof.
  intros Hlp Hprev bs.
  induction bs as [|y bs IH]; intros bp current Hb Hlc Hcur; simpl.
  - rewrite app_nil_r in Hb. subst bp. by split.
  - replace (length bp - 0) with (length bp) by lia.
    set (v := Nat.min _ _).
    assert (Hb' : b = (bp ++ [y]) ++ bs) by (by rewrite <- app_assoc).
    assert (Hlen : length b = length bp + S (length bs))
      by (rewrite Hb, length_app; simpl; lia).
    assert (Hv : v = cell b (x :: ra) (S (length bp))).
    { unfold v. rewrite Hcur, !Hprev by lia. unfold cell.
      assert (take (length bp) b = bp) as ->
        by (rewrite Hb; apply take_app_length).
      assert (take (S (length bp)) b = bp ++ [y]) as ->.
      { rewrite Hb'. replace (S (length bp)) with (length (bp ++ [y]))
          by (rewrite length_app; simpl; lia).
        apply take_app_length. }
      rewrite rev_app_distr. simpl. rewrite lev_cons. lia. }
    specialize (IH (bp ++ [y]) (current ++ [v]) Hb').
    replace (length (bp ++ [y])) with (S (length bp)) in IH
      by (rewrite length_app; simpl; lia).
    apply IH.
    + rewrite length_app. simpl. lia.
    + intros k Hk. destruct (decide (k = S (length bp))) as [->|Hne].
      * rewrite <- Hlc, getitem_app_r. by rewrite Hlc.
      * rewrite getitem_app_l by lia. apply Hcur. lia.
Qed.

Lemma rows_loop_spec b :
  forall as_ ap prev,
    length prev = S (length b) ->
    (forall k, k <= length b -> getitem prev k = cell b (rev ap) k) ->
    length (rows_loop as_ (S (length ap)) b prev) = S (length b)
    /\ forall k, k <= length b ->
         getitem (rows_loop as_ (S (length ap)) b prev) k = cell b (rev (ap ++ as_)) k.
Proof.
  induction as_ as [|x as_ IH]; intros ap prev Hlp Hprev; simpl.
  - by rewrite app_nil_r.
  - destruct (row_loop_spec b x (rev ap) prev Hlp Hprev b [] [S (length ap)])
      as [Hl Hrow]; [done|done| |].
    { intros k Hk. simpl in Hk. assert (k = 0) as -> by lia.
      unfold cell. simpl. rewrite lev_nil_r. simpl. by rewrite length_rev. }
    specialize (IH (ap ++ [x]) (row_loop x b 1 prev [S (length ap)])).
    replace (length (ap ++ [x])) with (S (length ap)) in IH
      by (rewrite length_app; simpl; lia).
    rewrite <- app_assoc in IH. simpl in IH. apply IH; [done|].
    intros k Hk. rewrite rev_app_distr. simpl. by apply Hrow.
Qed.

Lemma last_getitem (l : list nat) n : length l = S n -> List.last l 0 = getitem l n.
Proof.
  intros Hl. destruct (exists_last (l:=l)) as (l' & v & ->).
  { by intros ->. }
  rewrite length_app in Hl. simpl in Hl.
  rewrite last_last. replace n with (length l') by lia.
  by rewrite getitem_app_r.
Qed.

Lemma _edit_distance_lev a b : _edit_distance a b = lev a b.
Proof.
  unfold _edit_distance.
  destruct (decide (a = b)) as [->|_]; [by rewrite lev_refl|].
  destruct (decide (a = [])) as [->|_]; [done|].
  destruct (decide (b = [])) as [->|_]; [by rewrite lev_nil_r|].
  destruct (rows_loop_spec b a [] (seq 0 (length b + 1))) as [Hl Hrow].
  - rewrite length_seq. lia.
  - intros k Hk. unfold getitem, cell. rewrite seq_nth by lia. simpl.
    rewrite lev_nil_l, length_rev, length_take. lia.
  - simpl in *. rewrite (last_getitem _ (length b)) by done.
    rewrite Hrow by lia. unfold cell. rewrite firstn_all. apply lev_rev.
Qed.

(** C9: [_edit_distance] is the Levenshtein distance: it satisfies the
    classic recurrence, it is the cost of a cheapest edit script made of
    unit-cost deletions, insertions and substitutions, it is symmetric,
    zero exactly on equal strings, and obeys the triangle inequality. *)
Theorem _edit_distance_metric (a b c : str) :
  _edit_distance a b = lev a b
  /\ script a b (_edit_distance a b)
  /\ (forall n, script a b n -> _edit_distance a b <= n)
  /\ _edit_distance a b = _edit_distance b a
  /\ (_edit_distance a b = 0 <-> a = b)
  /\ _edit_distance a c <= _edit_distance a b + _edit_distance b c.
Proof.
  rewrite !_edit_distance_lev.
  split; [done|]. split; [apply lev_script|]. split; [apply script_lev|].
  split; [apply lev_sym|]. split; [|apply lev_triangle].
  split; [apply lev_zero|intros ->; apply lev_refl].
Qed.

End distance.

Lemma _edit_distance_metric_witness :
  (_edit_distance (lit "kitten") (lit "sitting") <= 3)%nat
  /\ (_edit_distance (lit "sitting") (lit "kitten") = 0%nat
      <-> lit "sitting" = lit "kitten").
Proof.
  split.
  - apply (proj1 (proj2 (proj2 (_edit_distance_metric (lit "kitten") (lit "sitting") [])))).
    apply (script_keep 107 115 (lit "itten") (lit "itting") 2)%N.
    apply (script_keep 105 105 (lit "tten") (lit "tting") 2)%N.
    apply (script_keep 116 116 (lit "ten") (lit "ting") 2)%N.
    apply (script_keep 116 116 (lit "en") (lit "ing") 2)%N.
    apply (script_keep 101 105 (lit "n") (lit "ng") 1)%N.
    apply (script_keep 110 110 [] (lit "g") 1)%N.
    apply (script_insert 103 [] [] 0)%N.
    apply script_nil.
  - apply (proj1 (proj2 (proj2 (proj2 (proj2
      (_edit_distance_metric (lit "sitting") (lit "kitten") [])))))).
Defined.

(** ** Properties of the case-pattern transfer *)

Section match_case.
Context (U : unicode_data).

Lemma istitle_loop_spec s :
  forall cased prev,
    istitle_loop U s cased prev = true
    <-> (cased = true \/ has_cased U s) /\ title_pattern U prev s.
Proof.
  unfold has_cased.
  induction s as [|ch s IH]; intros cased prev; simpl.
  - rewrite Exists_nil. tauto.
  - rewrite Exists_cons. unfold case_of.
    destruct (ch_isupper U ch || ch_istitle U ch).
    + destruct prev; [intuition congruence|].
      rewrite IH. intuition congruence.
    + destruct (ch_islower U ch).
      * destruct prev; simpl; [|intuition congruence].
        rewrite IH. intuition congruence.
      * rewrite IH. intuition congruence.
Qed.

(** [str.istitle], position by position. *)
Lemma str_istitle_spec s :
  str_istitle U s = true <-> has_cased U s /\ title_pattern U false s.
Proof.
  destruct s as [|ch [|ch' s]].
  - unfold has_cased. rewrite Exists_nil. simpl. intuition congruence.
  - unfold has_cased. rewrite Exists_cons, Exists_nil. simpl. unfold case_of.
    rewrite orb_comm.
    destruct (ch_isupper U ch || ch_istitle U ch); [intuition congruence|].
    destruct (ch_islower U ch); simpl; intuition congruence.
  - change (str_istitle U (ch :: ch' :: s))
      with (istitle_loop U (ch :: ch' :: s) false false).
    rewrite istitle_loop_spec. intuition congruence.
Qed.

Lemma title_pattern_lower s :
  Forall (fun r => case_of U r = Lower) s -> title_pattern U true s.
Proof.
  induction 1 as [|r s Hr _ IH]; simpl; [done|]. by rewrite Hr.
Qed.

Lemma first_upper_rest_lower_istitle s :
  first_upper_rest_lower U s -> str_istitle U s = true.
Proof.
  destruct s as [|c rest]; [done|]. intros [Hc Hrest].
  apply str_istitle_spec. split.
  - apply Exists_cons_hd. by rewrite Hc.
  - simpl. rewrite Hc. split; [done|]. by apply title_pattern_lower.
Qed.

Lemma isupper_loop_lower s :
  Exists (fun r => case_of U r = Lower) s ->
  forall cased, isupper_loop U s cased = false.
Proof.
  induction 1 as [r s Hr|r s _ IH]; intros cased; simpl.
  - unfold case_of in Hr.
    destruct (ch_isupper U r || ch_istitle U r) eqn:Hup; [done|].
    destruct (ch_islower U r) eqn:Hlo; [|done].
    by destruct (ch_istitle U r).
  - destruct (ch_islower U r || ch_istitle U r); [done|].
    by destruct (negb cased && ch_isupper U r); rewrite IH.
Qed.

Lemma first_upper_rest_lower_not_upper c r rest :
  first_upper_rest_lower U (c :: r :: rest) -> str_isupper U (c :: r :: rest) = false.
Proof.
  intros [_ Hrest].
  apply (isupper_loop_lower (c :: r :: rest)).
  apply Exists_cons_tl, Exists_cons_hd. by inversion Hrest.
Qed.

End match_case.

(** C7, as written, fails on a token with a capital after an apostrophe:
    [_match_case("O'Neil", "O'Neill")] is ["O'neill"], since
    ["O'Neil".istitle()] holds, where "first letter upper, rest lower" does
    not apply and would leave ["O'Neill"] as returned. *)
Lemma match_case_apostrophe_counterexample :
  _match_case excerpt (lit "O'Neil") (lit "O'Neill") = lit "O'neill"
  /\ match_case_by_first_letter excerpt (lit "O'Neil") (lit "O'Neill") = lit "O'Neill"
  /\ _match_case excerpt (lit "O'Neil") (lit "O'Neill")
     <> match_case_by_first_letter excerpt (lit "O'Neil") (lit "O'Neill").
Proof. by vm_compute. Qed.

(** C7, amended: the candidate is uppercased when the source token is
    all-uppercase ([str.isupper]); otherwise capitalized (first character
    upper, rest lower) when the source is title-case as [str.istitle] has
    it, that is, it has a cased character, each uppercase character starts
    the token or follows an uncased one and each lowercase character
    follows a cased one, which covers every token of two or more characters
    with first letter upper and rest lower; otherwise lowercased when the
    source is all-lowercase; otherwise left as returned. On "TEH", "Teh"
    and "teh" the suggestion "the" becomes "THE", "The" and "the". *)
Theorem _match_case_transfer (U : unicode_data) (source suggestion : str) :
  (str_isupper U source = true ->
     _match_case U source suggestion = str_upper U suggestion)
  /\ (str_istitle U source = true <->
       has_cased U source /\ title_pattern U false source)
  /\ (str_isupper U source = false -> str_istitle U source = true ->
       _match_case U source suggestion = str_capitalize U suggestion)
  /\ (2 <= length source -> first_upper_rest_lower U source ->
       _match_case U source suggestion = str_capitalize U suggestion)%nat
  /\ (str_isupper U source = false -> str_istitle U source = false ->
       str_islower U source = true ->
       _match_case U source suggestion = str_lower U suggestion)
  /\ (str_isupper U source = false -> str_istitle U source = false ->
       str_islower U source = false ->
       _match_case U source suggestion = suggestion)
  /\ _match_case excerpt (lit "TEH") (lit "the") = lit "THE"
  /\ _match_case excerpt (lit "Teh") (lit "the") = lit "The"
  /\ _match_case excerpt (lit "teh") (lit "the") = lit "the".
Proof.
  unfold _match_case. repeat split.
  - by intros ->.
  - by apply str_istitle_spec.
  - by apply str_istitle_spec.
  - by apply str_istitle_spec.
  - by intros -> ->.
  - intros Hlen Hfirst.
    destruct source as [|c [|r rest]]; simpl in Hlen; try lia.
    by rewrite first_upper_rest_lower_not_upper, first_upper_rest_lower_istitle.
  - by intros -> -> ->.
  - by intros -> -> ->.
Qed.

Lemma _match_case_transfer_witness :
  _match_case excerpt (lit "HTE") (lit "the") = str_upper excerpt (lit "the")
  /\ _match_case excerpt (lit "Hte") (lit "the") = str_capitalize excerpt (lit "the")
  /\ _match_case excerpt (lit "hte") (lit "The") = str_lower excerpt (lit "The")
  /\ _match_case excerpt (lit "hTe") (lit "The") = lit "The".
Proof.
  split; [|split; [|split]].
  - by apply (proj1 (_match_case_transfer excerpt (lit "HTE") (lit "the"))).
  - apply (proj1 (proj2 (proj2 (proj2
      (_match_case_transfer excerpt (lit "Hte") (lit "the")))))).
    + simpl. lia.
    + split; [done|]. by repeat constructor.
  - by apply (proj1 (proj2 (proj2 (proj2 (proj2
      (_match_case_transfer excerpt (lit "hte") (lit "The"))))))).
  - by apply (proj1 (proj2 (proj2 (proj2 (proj2 (proj2
      (_match_case_transfer excerpt (lit "hTe") (lit "The")))))))).
Defined.

(** ** Properties of the normalizer *)

#[local] Arguments N.eqb : simpl never.
#[local] Arguments N.ltb : simpl never.

Lemma replace_from_absent o old new s :
  o ∉ s -> replace_from (o :: old) new s 0 = s.
Proof.
  induction s as [|c s IH]; [done|]. intros Hnotin. simpl.
  apply not_elem_of_cons in Hnotin as [Hne Hnotin].
  destruct (N.eqb_spec o c) as [->|_]; [done|]. simpl. by rewrite IH.
Qed.

Lemma replace_absent o old new s : o ∉ s -> replace (o :: old) new s = s.
Proof. apply replace_from_absent. Qed.

(** Replacing a lone CR is a character-by-character substitution. *)
Lemma replace_cr_map s :
  replace [CR] [LF] s = map (fun c => if N.eqb c CR then LF else c) s.
Proof.
  unfold replace. induction s as [|c s IH]; [done|]. simpl.
  rewrite N.eqb_sym. destruct (N.eqb c CR); simpl; by rewrite IH.
Qed.

Lemma replace_crlf_cons c s :
  replace [CR; LF] [LF] (c :: s)
  = if N.eqb c CR then
      match s with
      | c' :: s' => if N.eqb c' LF then LF :: replace [CR; LF] [LF] s'
                    else c :: replace [CR; LF] [LF] s
      | [] => [c]
      end
    else c :: replace [CR; LF] [LF] s.
Proof.
  unfold replace. simpl. rewrite (N.eqb_sym CR c).
  destruct (N.eqb c CR); [|done].
  destruct s as [|c' s']; [done|]. simpl. rewrite (N.eqb_sym LF c').
  by destruct (N.eqb c' LF).
Qed.

Lemma unify_line_endings_replace_aux n :
  forall text, (length text < n)%nat ->
    replace [CR] [LF] (replace [CR; LF] [LF] text) = unify_line_endings text.
Proof.
  induction n as [|n IH]; intros text Hn; [lia|].
  destruct text as [|c s]; [done|].
  rewrite replace_crlf_cons. simpl in *.
  destruct (N.eqb_spec c CR) as [->|Hc].
  - destruct s as [|c' s']; [done|]. simpl in *.
    destruct (N.eqb c' LF).
    + rewrite replace_cr_map. simpl. rewrite <- replace_cr_map.
      rewrite IH by lia. done.
    + rewrite replace_cr_map. simpl. rewrite <- replace_cr_map.
      rewrite IH by (simpl; lia). done.
  - rewrite replace_cr_map. simpl. rewrite <- replace_cr_map.
    rewrite IH by lia. by destruct (N.eqb_spec c CR).
Qed.

Lemma unify_line_endings_replace text :
  replace [CR] [LF] (replace [CR; LF] [LF] text) = unify_line_endings text.
Proof. by apply (unify_line_endings_replace_aux (S (length text))); lia. Qed.

Lemma decode_encode_ignore c s : decode c (encode_ignore c s) = Ok (encode_ignore c s).
Proof.
  unfold decode, encode_ignore.
  assert (forallb (fun b => N.ltb b (codec_limit c))
            (List.filter (fun ch => N.ltb ch (codec_limit c)) s) = true) as ->; [|done].
  apply forallb_forall. intros x Hx. by apply filter_In in Hx as [_ Hx].
Qed.

Lemma lit_charsets_distinct :
  lit "utf-8" <> lit "latin-1" /\ lit "utf-8" <> lit "ascii"
  /\ lit "latin-1" <> lit "ascii".
Proof. by vm_compute. Qed.

Lemma normalize_charset_recognized U text target_charset :
  recognized target_charset ->
  normalize_charset U text target_charset
  = Ok (narrowed target_charset
          (List.filter (kept U) (nfkc U (unify_line_endings text)))).
Proof.
  intros Hrec. unfold normalize_charset, narrowed.
  rewrite unify_line_endings_replace.
  destruct (decide (target_charset = lit "utf-8")) as [|Hne]; [done|].
  destruct (decide (target_charset ∈ [lit "latin-1"; lit "ascii"])) as [_|Hnotin].
  - destruct (decide (target_charset = lit "latin-1")); apply decode_encode_ignore.
  - destruct Hrec as [?|[->| ->]]; [done|set_solver..].
Qed.

Lemma normalize_charset_unrecognized U text target_charset :
  ~ recognized target_charset ->
  normalize_charset U text target_charset
  = Raise (UnsupportedCharsetError target_charset).
Proof.
  intros Hrec. unfold normalize_charset, recognized in *.
  destruct (decide (target_charset = lit "utf-8")) as [|Hne]; [tauto|].
  destruct (decide (target_charset ∈ [lit "latin-1"; lit "ascii"])) as [Hin|_]; [|done].
  set_solver.
Qed.

(** C4: [normalize_charset] raises the unsupported-charset [ValueError] for
    every target charset other than "utf-8", "latin-1" and "ascii", for
    instance "utf-16", and returns a string for each of these three. *)
Theorem normalize_charset_unsupported (U : unicode_data) (text target_charset : str) :
  (~ recognized target_charset ->
     normalize_charset U text target_charset
     = Raise (UnsupportedCharsetError target_charset))
  /\ (recognized target_charset ->
       exists out, normalize_charset U text target_charset = Ok out)
  /\ normalize_charset U text (lit "utf-16")
     = Raise (UnsupportedCharsetError (lit "utf-16")).
Proof.
  split; [apply normalize_charset_unrecognized|]. split.
  - intros Hrec. eexists. by apply normalize_charset_recognized.
  - apply normalize_charset_unrecognized. by intros [?|[?|?]].
Qed.

Lemma normalize_charset_unsupported_witness :
  normalize_charset excerpt (lit "text") (lit "utf-32")
    = Raise (UnsupportedCharsetError (lit "utf-32"))
  /\ exists out, normalize_charset excerpt (lit "text") (lit "latin-1") = Ok out.
Proof.
  split.
  - apply (proj1 (normalize_charset_unsupported excerpt (lit "text") (lit "utf-32"))).
    by intros [?|[?|?]].
  - apply (proj1 (proj2 (normalize_charset_unsupported excerpt (lit "text")
                           (lit "latin-1")))).
    right. by left.
Defined.

Lemma CR_neq_LF : CR <> LF.
Proof. discriminate. Qed.

Lemma unify_line_endings_no_cr s : CR ∉ unify_line_endings s.
Proof.
  assert (forall n s, (length s < n)%nat -> CR ∉ unify_line_endings s) as H.
  { clear s. induction n as [|n IH]; intros s Hn; [lia|].
    destruct s as [|c s]; [set_solver|].
    pose proof CR_neq_LF.
    change (unify_line_endings (c :: s)) with
      (if N.eqb c CR then
         match s with
         | c' :: s'' => if N.eqb c' LF then LF :: unify_line_endings s''
                        else LF :: unify_line_endings s
         | [] => [LF]
         end
       else c :: unify_line_endings s).
    simpl in Hn.
    destruct (N.eqb_spec c CR) as [->|Hc].
    - destruct s as [|c' s'].
      { apply not_elem_of_cons. split; [done|set_solver]. }
      simpl in Hn.
      destruct (N.eqb c' LF); apply not_elem_of_cons;
        (split; [done|apply IH; simpl; lia]).
    - apply not_elem_of_cons. split; [done|apply IH; lia]. }
  by apply (H (S (length s))); lia.
Qed.

Lemma unify_line_endings_id s : CR ∉ s -> unify_line_endings s = s.
Proof.
  induction s as [|c s IH]; [done|]. intros Hnotin.
  apply not_elem_of_cons in Hnotin as [Hne Hnotin]. simpl.
  destruct (N.eqb_spec c CR) as [->|_]; [done|]. by rewrite IH.
Qed.

Lemma filter_all {A} (p : A -> bool) (l : list A) :
  (forall x, In x l -> p x = true) -> List.filter p l = l.
Proof.
  induction l as [|x l IH]; [done|]. intros Hall. simpl.
  rewrite (Hall x) by (by left). f_equal. apply IH. intros y Hy. apply Hall. by right.
Qed.

Lemma filter_filter_implied {A} (p q : A -> bool) (l : list A) :
  (forall x, p x = true -> q x = true) ->
  List.filter p (List.filter q l) = List.filter p l.
Proof.
  intros Himp. induction l as [|x l IH]; [done|]. simpl.
  destruct (q x) eqn:Hq; simpl; [by rewrite IH|].
  destruct (p x) eqn:Hp; [|done]. apply Himp in Hp. congruence.
Qed.

Lemma narrowed_In target_charset s x : In x (narrowed target_charset s) -> In x s.
Proof.
  unfold narrowed, encode_ignore. repeat case_decide; [done|..];
    intros Hx; by apply filter_In in Hx as [? _].
Qed.

Lemma narrowed_id target_charset s : narrowed target_charset (narrowed target_charset s)
  = narrowed target_charset s.
Proof.
  unfold narrowed, encode_ignore. repeat case_decide; [done|..];
    apply filter_all; intros x Hx; by apply filter_In in Hx as [_ ?].
Qed.

Lemma narrowed_keeps_newlines target_charset s :
  List.filter is_newline_or_tab (narrowed target_charset s)
  = List.filter is_newline_or_tab s.
Proof.
  unfold narrowed, encode_ignore. repeat case_decide; [done|..];
    apply filter_filter_implied; intros x; unfold is_newline_or_tab;
    intros [->%N.eqb_eq | ->%N.eqb_eq]%orb_true_iff; done.
Qed.

Section normalizer_facts.
Context (U : unicode_data).

Lemma kept_spec ch :
  kept U ch = true <->
  ch = LF \/ ch = TAB \/ category_group (category U ch) <> "C"%char.
Proof.
  unfold kept. rewrite !orb_true_iff, !N.eqb_eq, negb_true_iff.
  destruct (Ascii.eqb_spec (category_group (category U ch)) "C"); naive_solver.
Qed.

Lemma kept_newlines ch : is_newline_or_tab ch = true -> kept U ch = true.
Proof. unfold kept, is_newline_or_tab. by intros ->. Qed.

(** The shape and the contents of a normalized text. *)
Lemma normalized_contents text target_charset out :
  recognized target_charset ->
  normalize_charset U text target_charset = Ok out ->
  out = narrowed target_charset
          (List.filter (kept U) (nfkc U (unify_line_endings text)))
  /\ (forall ch, In ch out -> kept U ch = true).
Proof.
  intros Hrec Hout. rewrite normalize_charset_recognized in Hout by done.
  injection Hout as <-. split; [done|].
  intros ch Hch%narrowed_In. by apply filter_In in Hch as [_ ?].
Qed.

End normalizer_facts.

(** C6: for a recognized charset [normalize_charset] returns the text with
    CR LF and lone CR turned into LF (no CR is left), then NFKC-normalized,
    then stripped and narrowed; the result holds no carriage return and no
    character of category group "C" other than LF and TAB, and every LF
    and TAB of the NFKC-normalized text is still there, in order. The
    carriage return is a control character (Cc) in the database. *)
Theorem normalize_charset_postcondition (U : unicode_data) (text target_charset : str) :
  category_group (category U CR) = "C"%char ->
  recognized target_charset ->
  exists out,
    normalize_charset U text target_charset = Ok out
    /\ out = narrowed target_charset
              (List.filter (kept U) (nfkc U (unify_line_endings text)))
    /\ CR ∉ unify_line_endings text
    /\ CR ∉ out
    /\ (forall ch, ch ∈ out -> category_group (category U ch) = "C"%char ->
          ch = LF \/ ch = TAB)
    /\ List.filter is_newline_or_tab out
       = List.filter is_newline_or_tab (nfkc U (unify_line_endings text)).
Proof.
  intros Hcr Hrec.
  pose proof (normalize_charset_recognized U text target_charset Hrec) as Hout.
  set (out := narrowed target_charset _) in Hout.
  destruct (normalized_contents U text target_charset out Hrec Hout) as [Heq Hkept].
  exists out. split; [done|]. split; [done|].
  split; [apply unify_line_endings_no_cr|].
  assert (Hcat : forall ch, ch ∈ out ->
            category_group (category U ch) = "C"%char -> ch = LF \/ ch = TAB).
  { intros ch Hch%list_elem_of_In%Hkept%kept_spec Hc. tauto. }
  split; [|split; [done|]].
  - intros Hin. by destruct (Hcat CR Hin Hcr).
  - rewrite Heq, narrowed_keeps_newlines.
    apply filter_filter_implied, kept_newlines.
Qed.

Lemma normalize_charset_postcondition_witness :
  exists out,
    normalize_charset excerpt [97; 13; 10; 98; 13; 9; 1; 99]%N (lit "ascii") = Ok out
    /\ out = lit "a" ++ [LF] ++ lit "b" ++ [LF; TAB] ++ lit "c"
    /\ CR ∉ out.
Proof.
  destruct (normalize_charset_postcondition excerpt
              [97; 13; 10; 98; 13; 9; 1; 99]%N (lit "ascii"))
    as (out & Hout & Heq & _ & Hcr & _).
  - reflexivity.
  - right. by right.
  - exists out. split; [done|]. split; [|done]. rewrite Heq. reflexivity.
Defined.

(** C3, as written, fails: stripping a format character can bring a base
    letter and a combining mark together. With U+200B between [e] and
    U+0301 the first pass returns [e] followed by U+0301, which the second
    pass composes into U+00E9. *)
Lemma normalize_charset_not_idempotent :
  normalize_charset excerpt [101; 8203; 769]%N (lit "utf-8") = Ok [101; 769]%N
  /\ normalize_charset excerpt [101; 769]%N (lit "utf-8") = Ok [233%N]
  /\ ~ (forall U t c out, recognized c ->
          normalize_charset U t c = Ok out -> normalize_charset U out c = Ok out).
Proof.
  split; [reflexivity|]. split; [reflexivity|].
  intros Hidem.
  specialize (Hidem excerpt [101; 8203; 769]%N (lit "utf-8") [101; 769]%N).
  discriminate Hidem; [by left|reflexivity].
Qed.

(** A second pass leaves a normalized text alone when NFKC does. *)
Lemma normalize_charset_again (U : unicode_data) (text target_charset out : str) :
  category_group (category U CR) = "C"%char ->
  recognized target_charset ->
  normalize_charset U text target_charset = Ok out ->
  nfkc U out = out ->
  normalize_charset U out target_charset = Ok out.
Proof.
  intros Hcr Hrec Hout Hstable.
  destruct (normalized_contents U text target_charset out Hrec Hout) as [Heq Hkept].
  assert (CR ∉ out) as Hnocr.
  { intros Hin%list_elem_of_In%Hkept%kept_spec.
    destruct Hin as [?|[?|?]]; done. }
  rewrite normalize_charset_recognized by done.
  rewrite unify_line_endings_id, Hstable, (filter_all (kept U)) by done.
  f_equal. rewrite Heq. apply narrowed_id.
Qed.

(** With the "ascii" target every text is normalized once and for all, NFKC
    leaving ASCII text as it is. *)
Lemma normalize_charset_ascii_again (U : unicode_data) (text out : str) :
  category_group (category U CR) = "C"%char ->
  (forall s, Forall (fun ch => (ch < 128)%N) s -> nfkc U s = s) ->
  normalize_charset U text (lit "ascii") = Ok out ->
  normalize_charset U out (lit "ascii") = Ok out.
Proof.
  intros Hcr Hascii Hout.
  assert (Hrec : recognized (lit "ascii")) by (right; by right).
  apply (normalize_charset_again U text); try done.
  apply Hascii.
  destruct (normalized_contents U text (lit "ascii") out Hrec Hout) as [-> _].
  apply Forall_forall. intros ch Hch%list_elem_of_In.
  unfold narrowed in Hch. simpl in Hch.
  by apply filter_In in Hch as [_ ?%N.ltb_lt].
Qed.

(** C3, amended: for every text and recognized charset, normalizing the
    normalized text again changes nothing whenever that text is in NFKC
    form (NFKC maps it to itself), which the stripping of the first pass
    does not guarantee in general; it is so for the "ascii" target, NFKC
    leaving ASCII text as it is. The carriage return is a control
    character (Cc) in the database. *)
Theorem normalize_charset_idempotent (U : unicode_data) (text target_charset out : str) :
  category_group (category U CR) = "C"%char ->
  recognized target_charset ->
  normalize_charset U text target_charset = Ok out ->
  (nfkc U out = out -> normalize_charset U out target_charset = Ok out)
  /\ (target_charset = lit "ascii" ->
      (forall s, Forall (fun ch => (ch < 128)%N) s -> nfkc U s = s) ->
      normalize_charset U out target_charset = Ok out).
Proof.
  intros Hcr Hrec Hout. split.
  - by apply (normalize_charset_again U text).
  - intros -> Hascii. by apply (normalize_charset_ascii_again U text).
Qed.

Lemma normalize_charset_idempotent_witness :
  normalize_charset excerpt (lit "a b") (lit "latin-1") = Ok (lit "a b").
Proof.
  refine (proj1 (normalize_charset_idempotent excerpt
                   [97; 32; 1; 98]%N (lit "latin-1") (lit "a b") _ _ _) _).
  - reflexivity.
  - right. by left.
  - reflexivity.
  - reflexivity.
Defined.

(** ** Properties of the alignment *)

Lemma pairwise_app {A} (R : A -> A -> Prop) (l1 l2 : list A) :
  pairwise R (l1 ++ l2)
  <-> pairwise R l1 /\ pairwise R l2 /\ Forall (fun x => Forall (R x) l2) l1.
Proof.
  induction l1 as [|x l1 IH]; simpl.
  - rewrite Forall_nil. tauto.
  - rewrite IH, Forall_app, Forall_cons. tauto.
Qed.

Lemma pairwise_perm {A} (R : A -> A -> Prop) `{!Symmetric R} (l l' : list A) :
  l ≡ₚ l' -> pairwise R l' -> pairwise R l.
Proof.
  induction 1 as [|x l l' Hperm IH|x y l|l l' l'' _ IH1 _ IH2]; simpl.
  - done.
  - intros [Hx Hl]. split; [by rewrite Hperm|by apply IH].
  - intros [Hx [Hy Hl]]. apply Forall_cons in Hx as [Hxy Hx].
    split; [apply Forall_cons; split; [by symmetry|done]|done].
  - auto.
Qed.

#[global] Instance apart_sym : Symmetric apart.
Proof. intros r1 r2. unfold apart. tauto. Qed.

Lemma apart_inside r outer y : inside r outer -> apart outer y -> apart r y.
Proof.
  destruct r as [[[alo ahi] blo] bhi], outer as [[[alo' ahi'] blo'] bhi'],
    y as [[[alo2 ahi2] blo2] bhi2].
  unfold inside, apart, before. lia.
Qed.

#[global] Instance block_le_total : Total block_le.
Proof. intros [[i1 j1] k1] [[i2 j2] k2]. unfold block_le. lia. Qed.

#[global] Instance block_le_trans : Transitive block_le.
Proof. intros [[i1 j1] k1] [[i2 j2] k2] [[i3 j3] k3]. unfold block_le. lia. Qed.

Lemma chain_weaken blocks i j i' j' :
  (i' <= i)%nat -> (j' <= j)%nat -> chain i j blocks -> chain i' j' blocks.
Proof. destruct blocks as [|[[ai bj] size] rest]; simpl; [done|]. intuition lia. Qed.

Lemma chain_snoc la lb blocks :
  forall i j,
    (i <= la)%nat -> (j <= lb)%nat ->
    Forall (in_box 0 la 0 lb) blocks ->
    chain i j blocks -> chain i j (blocks ++ [(la, lb, 0%nat)]).
Proof.
  induction blocks as [|[[ai bj] size] rest IH]; intros i j Hi Hj Hbox Hchain; simpl.
  - done.
  - apply Forall_cons in Hbox as [Hx Hbox]. unfold in_box in Hx.
    destruct Hchain as (? & ? & Hchain).
    split; [done|]. split; [done|]. apply IH; [lia|lia|done|done].
Qed.

(** Sorted blocks that do not overlap follow one another. *)
Lemma sorted_chain blocks :
  forall i j,
    Forall (fun x => i <= x.1.1 /\ j <= x.1.2)%nat blocks ->
    StronglySorted block_le blocks ->
    pairwise apart (map box_of blocks) ->
    Forall (fun x => 0 < x.2)%nat blocks ->
    chain i j blocks.
Proof.
  induction blocks as [|[[xi xj] xk] rest IH]; intros i j Hlow Hsort Hpair Hpos;
    simpl in *; [done|].
  apply Forall_cons in Hlow as [[Hi Hj] _].
  apply StronglySorted_inv in Hsort as [Hsort Hle].
  destruct Hpair as [Hx Hpair].
  apply Forall_cons in Hpos as [Hxk Hpos]. simpl in *.
  split; [done|]. split; [done|].
  apply IH; try done.
  rewrite Forall_fmap in Hx.
  rewrite Forall_forall in Hx, Hle, Hpos. apply Forall_forall.
  intros [[yi yj] yk] Hy.
  specialize (Hx _ Hy). specialize (Hle _ Hy). specialize (Hpos _ Hy).
  unfold apart, before, block_le in *. simpl in *. lia.
Qed.

Section alignment.
Local Open Scope nat_scope.
Context (a b : str).

Lemma chain_b_sound bs :
  forall i b2j,
    (forall k, bs !! k = b !! (i + k)) ->
    b2j_sound b b2j ->
    b2j_sound b (chain_b bs i b2j).
Proof.
  induction bs as [|elt bs IH]; intros i b2j Hbs Hsound; simpl; [done|].
  apply IH.
  - intros k. specialize (Hbs (S k)). simpl in Hbs. rewrite Hbs. f_equal. lia.
  - intros x js j Hx Hj.
    destruct (decide (elt = x)) as [->|Hne].
    + rewrite lookup_insert_eq in Hx. injection Hx as <-.
      apply elem_of_app in Hj as [Hj|Hj].
      * destruct (b2j !! x) as [old|] eqn:Hold; simpl in Hj; [|by inversion Hj].
        by apply (Hsound x old).
      * apply list_elem_of_singleton in Hj as ->.
        specialize (Hbs 0). rewrite Nat.add_0_r in Hbs. by rewrite <- Hbs.
    + rewrite lookup_insert_ne in Hx by done. by apply (Hsound x js).
Qed.

Lemma chain_b_sound_init : b2j_sound b (chain_b b 0 ∅).
Proof.
  apply chain_b_sound; [done|]. intros x js j Hx. by rewrite lookup_empty in Hx.
Qed.

Section find_longest_match_facts.
Context (b2j : gmap N (list nat)) (Hb2j : b2j_sound b b2j).
Context (alo ahi blo bhi : nat).

Lemma best_ok_mono i i' best : i <= i' -> best_ok a b alo blo bhi i best -> best_ok a b alo blo bhi i' best.
Proof.
  destruct best as [[bi bj] bk]. unfold best_ok, in_box. intuition lia.
Qed.

Lemma row_scan_ok x i j2len :
  a !! i = Some x -> alo <= i ->
  j2len_ok a b alo blo i j2len ->
  forall js newj2len best,
    (forall j, j ∈ js -> b !! j = Some x) ->
    j2len_ok a b alo blo (S i) newj2len -> best_ok a b alo blo bhi (S i) best ->
    j2len_ok a b alo blo (S i) (row_scan blo bhi js i j2len newj2len best).1
    /\ best_ok a b alo blo bhi (S i) (row_scan blo bhi js i j2len newj2len best).2.
Proof.
  intros Hai Halo Hold js.
  induction js as [|j js IH]; intros newj2len best Hjs Hnew Hbest; simpl; [done|].
  assert (Hjs' : forall j', j' ∈ js -> b !! j' = Some x)
    by (intros j' Hj'; apply Hjs; by right).
  destruct (Nat.ltb_spec j blo) as [?|Hblo]; [by apply IH|].
  destruct (Nat.leb_spec bhi j) as [?|Hbhi]; [done|].
  set (k := default 0 (j2len !! (Z.of_nat j - 1)%Z) + 1).
  assert (Hbj : b !! j = Some x) by (apply Hjs; by left).
  assert (Hk : 1 <= k /\ k <= S i - alo /\ k <= j + 1 - blo
               /\ block_ok a b (i + 1 - k, j + 1 - k, k)).
  { unfold k. destruct (j2len !! (Z.of_nat j - 1)%Z) as [k0|] eqn:Hk0; simpl.
    - destruct (Hold _ _ Hk0) as (j0 & Hz & Hk1 & Hk2 & Hk3 & Hblock).
      assert (j = S j0) as -> by lia.
      repeat split; try lia.
      intros d Hd. destruct (decide (d < k0)) as [Hlt|Hge].
      + destruct (Hblock d Hlt) as (c & Hac & Hbc). exists c.
        replace (i + 1 - (k0 + 1) + d) with (i - k0 + d) by lia.
        replace (S j0 + 1 - (k0 + 1) + d) with (j0 + 1 - k0 + d) by lia.
        done.
      + exists x.
        replace (i + 1 - (k0 + 1) + d) with i by lia.
        replace (S j0 + 1 - (k0 + 1) + d) with (S j0) by lia.
        done.
    - repeat split; try lia.
      intros d Hd. exists x.
      replace (i + 1 - 1 + d) with i by lia.
      replace (j + 1 - 1 + d) with j by lia. done. }
  destruct Hk as (Hk1 & Hk2 & Hk3 & Hblock).
  assert (Hnew' : j2len_ok a b alo blo (S i) (<[Z.of_nat j := k]> newj2len)).
  { intros z k' Hz. destruct (decide (Z.of_nat j = z)) as [<-|Hne].
    - rewrite lookup_insert_eq in Hz. injection Hz as <-.
      exists j. repeat split; try lia.
      by replace (S i - k) with (i + 1 - k) by lia.
    - rewrite lookup_insert_ne in Hz by done. by apply Hnew. }
  destruct best as [[besti bestj] bestsize].
  destruct (Nat.ltb_spec bestsize k); apply IH; try done.
  split; [unfold in_box; lia|done].
Qed.

Lemma rows_scan_ok n :
  forall i j2len best,
    i + n = ahi -> ahi <= length a -> alo <= i ->
    j2len_ok a b alo blo i j2len -> best_ok a b alo blo bhi i best ->
    best_ok a b alo blo bhi ahi (rows_scan a b2j blo bhi n i j2len best).
Proof.
  induction n as [|n IH]; intros i j2len best Hn Hahi Halo Hj2len Hbest; simpl.
  - by replace ahi with i by lia.
  - destruct (lookup_lt_is_Some_2 a i) as [x Hx]; [lia|]. rewrite Hx.
    pose proof (row_scan_ok x i j2len Hx Halo Hj2len
                  (default [] (b2j !! x)) ∅ best) as Hrow.
    destruct (row_scan blo bhi (default [] (b2j !! x)) i j2len ∅ best)
      as [newj2len best'].
    destruct Hrow as [Hnew Hbest'].
    + intros j Hj. destruct (b2j !! x) as [js|] eqn:Hjs; simpl in Hj.
      * by apply (Hb2j x js).
      * by inversion Hj.
    + intros z k Hz. by rewrite lookup_empty in Hz.
    + by apply (best_ok_mono i); [lia|].
    + apply IH; try done; lia.
Qed.

Lemma same_at_spec i j :
  same_at a i b j = true -> exists c, a !! i = Some c /\ b !! j = Some c.
Proof.
  unfold same_at. destruct (a !! i) as [x|]; [|done].
  destruct (b !! j) as [y|]; [|done].
  intros ->%N.eqb_eq. by exists y.
Qed.

Lemma extend_left_ok n :
  forall best, best_ok a b alo blo bhi ahi best -> best_ok a b alo blo bhi ahi (extend_left a b alo blo n best).
Proof.
  induction n as [|n IH]; intros [[besti bestj] bestsize] Hbest; simpl; [done|].
  destruct (Nat.ltb_spec alo besti) as [Hi|?]; [|done].
  destruct (Nat.ltb_spec blo bestj) as [Hj|?]; [|done]. simpl.
  destruct (same_at a (besti - 1) b (bestj - 1)) eqn:Hsame; [|done].
  apply IH. destruct Hbest as [Hbox Hblock]. split; [unfold in_box in *; lia|].
  intros d Hd. destruct d as [|d].
  - rewrite !Nat.add_0_r. by apply same_at_spec.
  - destruct (Hblock d) as (c & Hac & Hbc); [lia|]. exists c.
    replace (besti - 1 + S d) with (besti + d) by lia.
    replace (bestj - 1 + S d) with (bestj + d) by lia. done.
Qed.

Lemma extend_right_ok n :
  forall best, best_ok a b alo blo bhi ahi best -> best_ok a b alo blo bhi ahi (extend_right a b ahi bhi n best).
Proof.
  induction n as [|n IH]; intros [[besti bestj] bestsize] Hbest; simpl; [done|].
  destruct (Nat.ltb_spec (besti + bestsize) ahi) as [Hi|?]; [|done].
  destruct (Nat.ltb_spec (bestj + bestsize) bhi) as [Hj|?]; [|done]. simpl.
  destruct (same_at a (besti + bestsize) b (bestj + bestsize)) eqn:Hsame; [|done].
  apply IH. destruct Hbest as [Hbox Hblock]. split; [unfold in_box in *; lia|].
  intros d Hd. destruct (decide (d < bestsize)) as [Hlt|Hge]; [by apply Hblock|].
  assert (d = bestsize) as -> by lia. by apply same_at_spec.
Qed.

(** The block [find_longest_match] returns lies in the range it was asked
    to search, and is a match. *)
Lemma find_longest_match_ok :
  alo <= ahi -> ahi <= length a -> blo <= bhi ->
  best_ok a b alo blo bhi ahi (find_longest_match a b b2j alo ahi blo bhi).
Proof.
  intros Hlo Hhi Hb. unfold find_longest_match.
  assert (Hscan : best_ok a b alo blo bhi ahi (rows_scan a b2j blo bhi (ahi - alo) alo ∅ (alo, blo, 0))).
  { apply rows_scan_ok; [lia|done|done| |].
    - intros z k Hz. by rewrite lookup_empty in Hz.
    - split; [unfold in_box|intros d Hd]; lia. }
  destruct (rows_scan a b2j blo bhi (ahi - alo) alo ∅ (alo, blo, 0))
    as [[i0 j0] k0] eqn:Hrows. simpl.
  pose proof (extend_left_ok i0 (i0, j0, k0) Hscan) as Hleft.
  destruct (extend_left a b alo blo i0 (i0, j0, k0)) as [[i1 j1] k1].
  by apply extend_right_ok.
Qed.

End find_longest_match_facts.

Lemma blocks_loop_ok b2j (Hb2j : b2j_sound b b2j) fuel :
  forall queue matching_blocks,
    turns queue <= fuel ->
    blocks_inv a b queue matching_blocks ->
    exists out,
      blocks_loop a b fuel b2j queue matching_blocks = Some out
      /\ blocks_inv a b [] out.
Proof.
  induction fuel as [|fuel IH]; intros queue mbs Hfuel (Hq & Hm & Hpair).
  - destruct queue as [|[[[alo ahi] blo] bhi] queue]; simpl in *; [|lia].
    by exists mbs.
  - destruct queue as [|[[[alo ahi] blo] bhi] queue]; simpl in *.
    { by exists mbs. }
    apply Forall_cons in Hq as [(Hlo & Hhi & Hblo & Hbhi) Hq].
    pose proof (find_longest_match_ok b2j Hb2j alo ahi blo bhi Hlo Hhi Hblo)
      as [Hbox Hblock].
    destruct (find_longest_match a b b2j alo ahi blo bhi) as [[i j] k].
    unfold in_box in Hbox.
    destruct (Nat.ltb_spec 0 k) as [Hk|Hk].
    + set (x := (i, j, k)).
      set (L := (alo, i, blo, j)). set (R := (i + k, ahi, j + k, bhi)).
      set (B := (alo, ahi, blo, bhi)) in *.
      assert (Hx : found_ok a b x)
        by (split; [done|split; [done|unfold in_box, x; lia]]).
      assert (Hsub : forall subs,
                Forall (fun r => inside r B) subs -> pairwise apart subs ->
                pairwise apart (subs ++ queue ++ map box_of mbs)).
      { intros subs Hin Hsubs. destruct Hpair as [HB Hrest].
        apply pairwise_app. split; [done|]. split; [done|].
        eapply Forall_impl; [exact Hin|]. intros r Hr.
        eapply Forall_impl; [exact HB|]. intros y Hy.
        exact (apart_inside r B y Hr Hy). }
      assert (HL : inside L B) by (unfold inside, L, B; lia).
      assert (HR : inside R B) by (unfold inside, R, B; lia).
      assert (HX : inside (box_of x) B) by (unfold inside, x, B; simpl; lia).
      assert (HLX : apart L (box_of x)) by (left; unfold L, x; simpl; lia).
      assert (HRX : apart R (box_of x)) by (right; unfold R, x; simpl; lia).
      assert (HRL : apart R L) by (right; unfold R, L; simpl; lia).
      assert (Hperm : forall pre,
                pre ++ queue ++ map box_of (mbs ++ [x])
                ≡ₚ (pre ++ [box_of x]) ++ queue ++ map box_of mbs).
      { intros pre. rewrite map_app. simpl. solve_Permutation. }
      assert (Hstep : forall pre,
                Forall (fun r => inside r B) pre ->
                pairwise apart (pre ++ [box_of x]) ->
                Forall (box_wf (length a) (length b)) pre ->
                turns (pre ++ queue) <= fuel ->
                exists out,
                  blocks_loop a b fuel b2j (pre ++ queue) (mbs ++ [x]) = Some out
                  /\ blocks_inv a b [] out).
      { intros pre Hin Hpre Hwf Hturns. apply IH; [done|].
        split; [by apply Forall_app|].
        split; [by apply Forall_app; split; [|apply Forall_singleton]|].
        rewrite <- app_assoc. apply (pairwise_perm _ _ _ (Hperm pre)).
        apply Hsub; [|done].
        apply Forall_app. split; [done|by apply Forall_singleton]. }
      assert (HwfL : alo < i -> blo < j -> box_wf (length a) (length b) L)
        by (unfold box_wf, L; lia).
      assert (HwfR : i + k < ahi -> j + k < bhi -> box_wf (length a) (length b) R)
        by (unfold box_wf, R; lia).
      destruct (Nat.ltb_spec alo i) as [Hi|Hi], (Nat.ltb_spec blo j) as [Hj|Hj];
        destruct (Nat.ltb_spec (i + k) ahi) as [Hi'|Hi'],
                 (Nat.ltb_spec (j + k) bhi) as [Hj'|Hj']; simpl;
        first
          [ apply (Hstep [R; L]);
            [ by repeat (apply Forall_cons; split)
            | simpl; by repeat (split; try apply Forall_cons; try apply Forall_nil)
            | repeat (apply Forall_cons; split); auto
            | simpl; lia ]
          | apply (Hstep [L]);
            [ by repeat (apply Forall_cons; split)
            | simpl; by repeat (split; try apply Forall_cons; try apply Forall_nil)
            | repeat (apply Forall_cons; split); auto
            | simpl; lia ]
          | apply (Hstep [R]);
            [ by repeat (apply Forall_cons; split)
            | simpl; by repeat (split; try apply Forall_cons; try apply Forall_nil)
            | repeat (apply Forall_cons; split); auto
            | simpl; lia ]
          | apply (Hstep []);
            [ done
            | simpl; by repeat (split; try apply Forall_cons; try apply Forall_nil)
            | done
            | simpl; lia ] ].
    + apply IH; [lia|]. split; [done|]. split; [done|]. by destruct Hpair.
Qed.

Lemma block_ok_merge i1 j1 k1 k2 :
  block_ok a b (i1, j1, k1) -> block_ok a b (i1 + k1, j1 + k1, k2) ->
  block_ok a b (i1, j1, k1 + k2).
Proof.
  intros H1 H2 d Hd. destruct (decide (d < k1)) as [Hlt|Hge]; [by apply H1|].
  destruct (H2 (d - k1)) as (c & Hac & Hbc); [lia|]. exists c.
  replace (i1 + d) with (i1 + k1 + (d - k1)) by lia.
  by replace (j1 + d) with (j1 + k1 + (d - k1)) by lia.
Qed.

Lemma collapse_loop_ok rest :
  forall i1 j1 k1 acc,
    block_fits a b (i1, j1, k1) ->
    Forall (block_fits a b) rest ->
    chain (i1 + k1) (j1 + k1) rest ->
    exists tail,
      (let '((i1', j1', k1'), acc') := collapse_loop rest (i1, j1, k1) acc in
       if 0 <? k1' then acc' ++ [(i1', j1', k1')] else acc') = acc ++ tail
      /\ Forall (block_fits a b) tail /\ chain i1 j1 tail.
Proof.
  induction rest as [|[[i2 j2] k2] rest IH]; intros i1 j1 k1 acc Hp Hrest Hchain; simpl.
  - destruct (0 <? k1).
    + exists [(i1, j1, k1)]. split; [done|]. split; [by apply Forall_singleton|].
      simpl. lia.
    + exists []. by rewrite app_nil_r.
  - apply Forall_cons in Hrest as [H2 Hrest]. destruct Hchain as (Hi & Hj & Hchain).
    destruct (Nat.eqb_spec (i1 + k1) i2) as [<-|Hne1]; simpl.
    + destruct (Nat.eqb_spec (j1 + k1) j2) as [<-|Hne2]; simpl.
      * apply IH; [|done|].
        -- destruct Hp as [Hp1 Hp2], H2 as [H21 H22].
           split; [by apply block_ok_merge|unfold in_box in *; lia].
        -- by replace (i1 + (k1 + k2)) with (i1 + k1 + k2)
             by lia; replace (j1 + (k1 + k2)) with (j1 + k1 + k2) by lia.
      * destruct (IH (i1 + k1) j2 k2
                    (if 0 <? k1 then acc ++ [(i1, j1, k1)] else acc) H2 Hrest Hchain)
          as (tail & Heq & Hfits & Htail).
        destruct (collapse_loop rest (i1 + k1, j2, k2) _) as [[[i' j'] k'] acc'].
        rewrite Heq. destruct (0 <? k1).
        -- exists ((i1, j1, k1) :: tail). rewrite <- app_assoc.
           split; [done|]. split; [by apply Forall_cons|]. simpl.
           split; [lia|]. split; [lia|]. eapply chain_weaken; [| |exact Htail]; lia.
        -- exists tail. split; [done|]. split; [done|].
           eapply chain_weaken; [| |exact Htail]; lia.
    + destruct (IH i2 j2 k2
                  (if 0 <? k1 then acc ++ [(i1, j1, k1)] else acc) H2 Hrest Hchain)
        as (tail & Heq & Hfits & Htail).
      destruct (collapse_loop rest (i2, j2, k2) _) as [[[i' j'] k'] acc'].
      rewrite Heq. destruct (0 <? k1).
      * exists ((i1, j1, k1) :: tail). rewrite <- app_assoc.
        split; [done|]. split; [by apply Forall_cons|]. simpl.
        split; [lia|]. split; [lia|]. eapply chain_weaken; [| |exact Htail]; lia.
      * exists tail. split; [done|]. split; [done|].
        eapply chain_weaken; [| |exact Htail]; lia.
Qed.

(** [get_matching_blocks] returns, whatever the strings: matching blocks
    that follow one another in both strings, closed by the dummy block
    [(len(a), len(b), 0)]. *)
Lemma get_matching_blocks_ok :
  exists blocks,
    get_matching_blocks a b = Some (blocks ++ [(length a, length b, 0)])
    /\ Forall (block_fits a b) blocks
    /\ chain 0 0 (blocks ++ [(length a, length b, 0)]).
Proof.
  unfold get_matching_blocks.
  destruct (blocks_loop_ok (chain_b b 0 ∅) chain_b_sound_init
              (2 * length a + 1) [(0, length a, 0, length b)] [])
    as (found & -> & _ & Hfound & Hpair).
  { simpl. lia. }
  { split; [apply Forall_singleton; unfold box_wf; lia|].
    split; [done|]. simpl. by split. }
  simpl in Hpair |- *.
  set (sorted := merge_sort block_le found).
  assert (Hperm : sorted ≡ₚ found) by apply merge_sort_Permutation.
  assert (Hfound' : Forall (found_ok a b) sorted) by (by rewrite Hperm).
  assert (Hchain : chain 0 0 sorted).
  { apply sorted_chain.
    - apply Forall_forall. intros; lia.
    - apply StronglySorted_merge_sort; apply _.
    - eapply pairwise_perm; [apply _| |exact Hpair]. by apply fmap_Permutation.
    - eapply Forall_impl; [exact Hfound'|]. by intros x (_ & ? & _). }
  destruct (collapse_loop_ok sorted 0 0 0 []) as (tail & Heq & Hfits & Htail).
  { split; [intros d Hd; lia|unfold in_box; lia]. }
  { eapply Forall_impl; [exact Hfound'|]. by intros x (? & _ & ?). }
  { done. }
  destruct (collapse_loop sorted (0, 0, 0) []) as [[[i1 j1] k1] acc].
  simpl in Heq. exists tail. rewrite Heq.
  split; [done|]. split; [done|].
  apply chain_snoc; [lia|lia| |done].
  eapply Forall_impl; [exact Hfits|]. by intros x [_ ?].
Qed.

End alignment.

(** ** Properties of the edit differencer *)

Lemma opcodes_loop_acc blocks :
  forall i j answer,
    opcodes_loop blocks i j answer = answer ++ opcodes_loop blocks i j [].
Proof.
  induction blocks as [|[[ai bj] size] rest IH]; intros i j answer; simpl.
  - by rewrite app_nil_r.
  - rewrite IH. symmetry. rewrite IH.
    destruct ((i <? ai)%nat && (j <? bj)%nat), (i <? ai)%nat, (j <? bj)%nat,
      (0 <? size)%nat; simpl; by rewrite <- ?app_assoc.
Qed.

Lemma build_edits_loop_map cleaned opcodes :
  forall edits,
    build_edits_loop cleaned opcodes edits
    = edits ++ map (edit_of_opcode cleaned) (List.filter non_equal opcodes).
Proof.
  induction opcodes as [|[[[[t i1] i2] j1] j2] rest IH]; intros edits; simpl.
  - by rewrite app_nil_r.
  - destruct (decide (t = equal_tag)); rewrite IH; [done|].
    by rewrite <- app_assoc.
Qed.

Lemma build_edits_of_blocks cleaned blocks :
  forall i j,
    map (edit_of_opcode cleaned) (List.filter non_equal (opcodes_loop blocks i j []))
    = edits_of_blocks cleaned blocks i j.
Proof.
  induction blocks as [|[[ai bj] size] rest IH]; intros i j; simpl; [done|].
  rewrite opcodes_loop_acc, List.filter_app, map_app, IH. f_equal.
  destruct (i <? ai)%nat, (j <? bj)%nat, (0 <? size)%nat; done.
Qed.

Lemma in_order_running edits :
  forall cursor,
    in_order cursor edits ->
    forall pre e post, edits = pre ++ e :: post ->
      (match last pre with Some p => end_ p | None => cursor end) <= start e.
Proof.
  induction edits as [|e0 edits IH]; intros cursor Hord pre e post Heq.
  - by destruct pre.
  - destruct Hord as [H0 Hord].
    destruct pre as [|p pre]; simplify_eq/=; [done|].
    specialize (IH _ Hord pre e post eq_refl).
    rewrite last_cons. by destruct (last pre).
Qed.

Lemma py_slice_from_end (s : str) : py_slice_from s (Z.of_nat (length s)) = [].
Proof. apply (py_slice_beyond s _ 0). lia. Qed.

Lemma py_slice_to_end (s : str) j :
  py_slice s (Z.of_nat j) (Z.of_nat (length s)) = py_slice_from s (Z.of_nat j).
Proof.
  destruct (decide (j <= length s)%nat).
  - rewrite (py_slice_from_split s (Z.of_nat j) (Z.of_nat (length s))) by lia.
    by rewrite py_slice_from_end, app_nil_r.
  - destruct (py_slice_beyond s (Z.of_nat j) (Z.of_nat (length s))) as [-> ->];
      [lia|done].
Qed.

Lemma py_slice_empty (s : str) i : py_slice s i i = [].
Proof. unfold py_slice. rewrite Z.sub_diag. apply take_0. Qed.

Lemma py_slice_from_0 (s : str) : py_slice_from s 0 = s.
Proof.
  unfold py_slice_from, adjust_index. simpl.
  by replace (Z.min 0 (Z.of_nat (length s))) with 0 by lia.
Qed.

Lemma py_slice_nat (s : str) i k :
  (i + k <= length s)%nat ->
  py_slice s (Z.of_nat i) (Z.of_nat (i + k)) = take k (drop i s).
Proof.
  intros Hlen. unfold py_slice, adjust_index.
  destruct (Z.ltb_spec (Z.of_nat i) 0); [lia|].
  destruct (Z.ltb_spec (Z.of_nat (i + k)) 0); [lia|].
  f_equal; [lia|f_equal; lia].
Qed.

(** Where every token is left as it is, the text is left as it is. *)
Lemma spelled_unchanged U dictionary max_distance normalized matches :
  forall cursor,
    matches_ok normalized cursor matches ->
    Forall (fun m => correct_token U dictionary max_distance m.2 = m.2) matches ->
    spelled U dictionary max_distance normalized matches cursor
    = py_slice_from normalized (Z.of_nat cursor).
Proof.
  induction matches as [|[[st en] tok] rest IH]; intros cursor Hok Hkeep; simpl; [done|].
  destruct Hok as (Hcur & Hen & Hlen & Htok & Hok).
  apply Forall_cons in Hkeep as [Hkeep1 Hkeep]. simpl in Hkeep1.
  rewrite Hkeep1, IH by done.
  rewrite (py_slice_from_split normalized (Z.of_nat cursor) (Z.of_nat st)) by lia.
  rewrite (py_slice_from_split normalized (Z.of_nat st) (Z.of_nat en)) by lia.
  by rewrite Htok.
Qed.

Section differencer.
Context (original cleaned : str).

Lemma block_fits_slices ai bj size :
  block_fits original cleaned (ai, bj, size) ->
  py_slice original (Z.of_nat ai) (Z.of_nat (ai + size))
  = py_slice cleaned (Z.of_nat bj) (Z.of_nat (bj + size)).
Proof.
  intros [Hok Hbox]. unfold in_box in Hbox.
  rewrite !py_slice_nat by lia.
  apply list_eq. intros d.
  destruct (decide (d < size)%nat) as [Hd|Hd].
  - rewrite !lookup_take_lt, !lookup_drop by done.
    destruct (Hok d Hd) as (c & -> & ->). done.
  - rewrite !lookup_take_ge by lia. done.
Qed.

(** Replaying the edits made of the blocks, from a cursor at or before
    [i]: what is left of [original] up to [i], then [cleaned] from [j]. *)
Lemma replay_blocks blocks :
  forall i j c,
    Forall (block_fits original cleaned) blocks ->
    chain i j (blocks ++ [(length original, length cleaned, 0%nat)]) ->
    (c <= i)%nat ->
    let edits :=
      edits_of_blocks cleaned
        (blocks ++ [(length original, length cleaned, 0%nat)]) i j in
    in_order (Z.of_nat c) edits
    /\ Forall (fun e => 0 <= start e <= end_ e
                        /\ end_ e <= Z.of_nat (length original)) edits
    /\ replayed original (Z.of_nat c) edits
       = py_slice original (Z.of_nat c) (Z.of_nat i)
           ++ py_slice_from cleaned (Z.of_nat j).
Proof.
  induction blocks as [|[[ai bj] size] rest IH]; intros i j c Hfits Hchain Hc; simpl in *.
  - destruct Hchain as (Hi & Hj & _). rewrite app_nil_r.
    destruct (Nat.ltb_spec i (length original)) as [?|Hi'];
      [|destruct (Nat.ltb_spec j (length cleaned)) as [?|Hj']]; simpl.
    + rewrite py_slice_from_end, app_nil_r, py_slice_to_end.
      split; [lia|]. split; [|done]. apply Forall_singleton. simpl. lia.
    + rewrite py_slice_from_end, app_nil_r, py_slice_to_end.
      split; [lia|]. split; [|done]. apply Forall_singleton. simpl. lia.
    + assert (i = length original) as -> by lia.
      assert (j = length cleaned) as -> by lia.
      rewrite py_slice_to_end, py_slice_from_end, app_nil_r. done.
  - apply Forall_cons in Hfits as [Hx Hfits].
    destruct Hchain as (Hi & Hj & Hchain).
    pose proof (block_fits_slices ai bj size Hx) as Hsame.
    destruct Hx as [_ Hbox]. unfold in_box in Hbox.
    assert (Hjoin : py_slice cleaned (Z.of_nat j) (Z.of_nat bj)
                      ++ py_slice original (Z.of_nat ai) (Z.of_nat (ai + size))
                      ++ py_slice_from cleaned (Z.of_nat (bj + size))
                    = py_slice_from cleaned (Z.of_nat j)).
    { rewrite Hsame.
      rewrite (py_slice_from_split cleaned (Z.of_nat j) (Z.of_nat bj)) by lia.
      by rewrite (py_slice_from_split cleaned (Z.of_nat bj) (Z.of_nat (bj + size)))
        by lia. }
    destruct ((i <? ai)%nat || (j <? bj)%nat) eqn:Hedit; simpl.
    + destruct (IH (ai + size)%nat (bj + size)%nat ai Hfits Hchain) as (Hord & Hb & Hre);
        [lia|].
      split; [split; [lia|done]|].
      split; [apply Forall_cons; split; [simpl; lia|done]|].
      by rewrite Hre, Hjoin.
    + apply orb_false_iff in Hedit as [Hi'%Nat.ltb_ge Hj'%Nat.ltb_ge].
      assert (ai = i) as -> by lia. assert (bj = j) as -> by lia.
      destruct (IH (i + size)%nat (j + size)%nat c Hfits Hchain) as (Hord & Hb & Hre);
        [lia|].
      split; [done|]. split; [done|]. rewrite Hre.
      rewrite (py_slice_split original (Z.of_nat c) (Z.of_nat i) (Z.of_nat (i + size)))
        by lia.
      rewrite <- app_assoc. f_equal.
      rewrite <- Hjoin.
      by rewrite py_slice_empty.
Qed.

(** What [build_edits] returns: it always returns, one edit per non-equal
    opcode; the edits are ordered, lie inside [original], and replay to
    [cleaned]. *)
Lemma build_edits_ok :
  exists opcodes edits,
    get_opcodes original cleaned = Some opcodes
    /\ build_edits original cleaned = Some edits
    /\ edits = map (edit_of_opcode cleaned) (List.filter non_equal opcodes)
    /\ in_order 0 edits
    /\ Forall (fun e => 0 <= start e <= end_ e
                        /\ end_ e <= Z.of_nat (length original)) edits
    /\ replayed original 0 edits = cleaned.
Proof.
  destruct (get_matching_blocks_ok original cleaned) as (blocks & Hblocks & Hfits & Hchain).
  unfold build_edits, get_opcodes. rewrite Hblocks. simpl.
  eexists _, _. split; [done|]. split; [done|].
  rewrite build_edits_loop_map. simpl. split; [done|].
  rewrite build_edits_of_blocks.
  destruct (replay_blocks blocks 0%nat 0%nat 0%nat Hfits Hchain) as (Hord & Hb & Hre);
    [lia|].
  change (Z.of_nat 0) with 0 in Hord, Hre.
  split; [done|]. split; [done|]. rewrite Hre.
  by rewrite py_slice_empty, py_slice_from_0.
Qed.

End differencer.

(** C5: [build_edits] always returns; it makes exactly one edit of each
    non-equal opcode of the alignment, in order and without merging, with
    the opcode's slice of [cleaned] as replacement; every edit has
    [0 <= start <= end <= len(original)], and every edit starts at or after
    the end of the edit before it. *)
Theorem build_edits_invariant (original cleaned : str) :
  exists opcodes edits,
    get_opcodes original cleaned = Some opcodes
    /\ build_edits original cleaned = Some edits
    /\ edits = map (edit_of_opcode cleaned) (List.filter non_equal opcodes)
    /\ Forall (fun e => 0 <= start e <= end_ e
                        /\ end_ e <= Z.of_nat (length original)) edits
    /\ (forall pre e post, edits = pre ++ e :: post -> running_cursor pre <= start e).
Proof.
  destruct (build_edits_ok original cleaned)
    as (opcodes & edits & Hops & Hedits & Hmap & Hord & Hbounds & _).
  exists opcodes, edits. repeat (split; [done|]).
  intros pre e post Heq. by apply (in_order_running edits 0 Hord pre e post).
Qed.

Lemma build_edits_invariant_witness :
  exists edits,
    build_edits (lit "qabxcd") (lit "abycdf") = Some edits
    /\ Forall (fun e => 0 <= start e <= end_ e /\ end_ e <= 6) edits
    /\ (forall pre e post, edits = pre ++ e :: post -> running_cursor pre <= start e).
Proof.
  destruct (build_edits_invariant (lit "qabxcd") (lit "abycdf"))
    as (opcodes & edits & _ & Hedits & _ & Hbounds & Hord).
  exists edits. split; [exact Hedits|]. split; [exact Hbounds|exact Hord].
Defined.

(** [build_edits] never runs out of turns. *)
Lemma build_edits_total original cleaned :
  exists edits, build_edits original cleaned = Some edits.
Proof.
  destruct (build_edits_ok original cleaned) as (opcodes & edits & _ & Hedits & _).
  by exists edits.
Qed.

(** ** Properties of the cleaning engine *)

(** The strict codec returns exactly on the texts with no surrogate. *)
Lemma encode_utf8_spec text :
  (encodable text /\ encode_utf8 text = Ok (flat_map utf8_bytes text))
  \/ (~ encodable text /\ encode_utf8 text = Raise UnicodeEncodeError).
Proof.
  unfold encode_utf8, encodable.
  destruct (forallb (fun ch => negb (is_surrogate ch)) text) eqn:Hall.
  - left. split; [|done]. apply Forall_forall. intros ch Hch%list_elem_of_In.
    rewrite forallb_forall in Hall. by apply negb_true_iff, Hall.
  - right. split; [|done]. intros Henc.
    assert (Htrue : forallb (fun ch => negb (is_surrogate ch)) text = true).
    { apply forallb_forall. intros ch Hch%list_elem_of_In.
      rewrite Forall_forall in Henc. by apply negb_true_iff, Henc. }
    congruence.
Qed.

Lemma md5_text_spec md5 text :
  (encodable text /\ md5_text md5 text = Ok (md5 (flat_map utf8_bytes text)))
  \/ (~ encodable text /\ md5_text md5 text = Raise UnicodeEncodeError).
Proof.
  unfold md5_text.
  destruct (encode_utf8_spec text) as [[Henc ->]|[Henc ->]]; [by left|by right].
Qed.

Section clean_facts.
Context (U : unicode_data) (md5 : list N -> str).

(** What [clean] returns, field by field. *)
Lemma clean_inv self raw_text result :
  clean U md5 self raw_text = Ok result ->
  exists normalized counter,
    normalize_charset U raw_text (target_charset (config self)) = Ok normalized
    /\ (cleaned_text result, counter)
       = match spellcheck (config self), _dictionary self with
         | true, Some dictionary =>
             let '(pieces, cursor, replacement_counter) :=
               spell_loop U normalized dictionary
                 (max_suggestion_distance (config self))
                 (WORD_RE_finditer normalized) [] 0%nat [] in
             (concat (pieces ++ [py_slice_from normalized (Z.of_nat cursor)]),
              replacement_counter)
         | _, _ => (normalized, [])
         end
    /\ build_edits raw_text (cleaned_text result) = Some (edits result)
    /\ md5_text md5 raw_text = Ok (input_md5 result)
    /\ md5_text md5 (cleaned_text result) = Ok (output_md5 result)
    /\ changed result = bool_decide (raw_text <> cleaned_text result)
    /\ edit_count (summary result) = length (edits result)
    /\ top_replacements (summary result) = most_common 8 counter.
Proof.
  unfold clean. intros Hclean.
  destruct (normalize_charset U raw_text _) as [normalized|]; [|done].
  simpl in Hclean. exists normalized.
  destruct (match spellcheck (config self) with true => _ | false => _ end)
    as [cleaned counter] eqn:Hspell.
  destruct (build_edits raw_text cleaned) as [eds|] eqn:Heds; [|done].
  simpl in Hclean.
  destruct (md5_text md5 raw_text) as [input_digest|] eqn:Hin; [|done].
  simpl in Hclean.
  destruct (md5_text md5 cleaned) as [output_digest|] eqn:Hout; [|done].
  simpl in Hclean. injection Hclean as <-. by exists counter.
Qed.

Lemma clean_edits self raw_text result :
  clean U md5 self raw_text = Ok result ->
  build_edits raw_text (cleaned_text result) = Some (edits result).
Proof. by intros (normalized & counter & _ & _ & Hbuild & _)%clean_inv. Qed.

Lemma spell_loop_spelled dictionary max_distance normalized matches :
  forall pieces cursor counter,
    concat ((spell_loop U normalized dictionary max_distance matches
               pieces cursor counter).1.1
            ++ [py_slice_from normalized
                  (Z.of_nat (spell_loop U normalized dictionary max_distance matches
                               pieces cursor counter).1.2)])
    = concat pieces ++ spelled U dictionary max_distance normalized matches cursor.
Proof.
  induction matches as [|[[start' end'] token] matches IH]; intros pieces cursor counter;
    simpl.
  - by rewrite concat_app, concat_cons, concat_nil, app_nil_r.
  - rewrite IH, !concat_app, !concat_cons, !concat_nil, !app_nil_r.
    by rewrite <- !app_assoc.
Qed.

(** The text the loop of [clean] joins is [spell_corrected]. *)
Lemma spell_corrected_pair self normalized :
  (match spellcheck (config self), _dictionary self with
   | true, Some dictionary =>
       let '(pieces, cursor, replacement_counter) :=
         spell_loop U normalized dictionary
           (max_suggestion_distance (config self))
           (WORD_RE_finditer normalized) [] 0%nat [] in
       (concat (pieces ++ [py_slice_from normalized (Z.of_nat cursor)]),
        replacement_counter)
   | _, _ => (normalized, [])
   end).1 = spell_corrected U self normalized.
Proof.
  unfold spell_corrected.
  destruct (spellcheck (config self)); [|done].
  destruct (_dictionary self) as [dictionary|]; [|done].
  pose proof (spell_loop_spelled dictionary (max_suggestion_distance (config self))
                normalized (WORD_RE_finditer normalized) [] 0%nat []) as Hsp.
  by destruct (spell_loop U normalized dictionary _ _ [] 0%nat [])
    as [[pieces cursor] counter].
Qed.

Lemma word_run_prefix s : exists rest, s = word_run s ++ rest.
Proof.
  induction s as [|c s [rest IH]]; simpl; [by exists []|].
  destruct (is_word_char c); [|by eexists].
  exists rest. simpl. by rewrite <- IH.
Qed.

Lemma match_word_prefix s token :
  WORD_RE_match s = Some token -> token <> [] /\ exists rest, s = token ++ rest.
Proof.
  destruct s as [|c s]; simpl; [done|].
  destruct (is_ascii_letter c); [|done].
  destruct (word_run_prefix s) as [rest Hrest].
  destruct (word_run s) as [|r run]; [done|].
  intros [= <-]. split; [done|]. exists rest. simpl. f_equal. exact Hrest.
Qed.

Lemma matches_ok_weaken s cursor cursor' matches :
  (cursor' <= cursor)%nat -> matches_ok s cursor matches -> matches_ok s cursor' matches.
Proof. destruct matches as [|[[st en] tok] rest]; simpl; [done|]. intuition lia. Qed.

#[local] Arguments WORD_RE_match : simpl never.

Lemma finditer_from_ok normalized s :
  forall pre pos skip,
    normalized = pre ++ s -> pos = length pre ->
    (skip <= length s)%nat ->
    matches_ok normalized (pos + skip) (WORD_RE_finditer_from s pos skip).
Proof.
  induction s as [|c s IH]; intros pre pos skip Hn Hpos Hskip; [done|].
  assert (Hn' : normalized = (pre ++ [c]) ++ s) by (by rewrite <- app_assoc).
  assert (Hpos' : S pos = length (pre ++ [c]))
    by (rewrite length_app; simpl; lia).
  simpl in Hskip |- *. destruct skip as [|k].
  - destruct (WORD_RE_match (c :: s)) as [token|] eqn:Hmatch.
    + destruct (match_word_prefix _ _ Hmatch) as [Hne [rest Hrest]].
      assert (1 <= length token)%nat by (destruct token; [done|simpl; lia]).
      assert (Hlen : (length token <= S (length s))%nat).
      { change (S (length s)) with (length (c :: s)).
        rewrite Hrest, length_app. lia. }
      simpl. split; [lia|]. split; [done|].
      split; [rewrite Hn, length_app; simpl; lia|].
      split.
      * rewrite py_slice_nat by (rewrite Hn, length_app; simpl; lia).
        rewrite Hn, Hpos, drop_app_length, Hrest. apply take_app_length.
      * specialize (IH (pre ++ [c]) (S pos) (length token - 1)%nat Hn' Hpos').
        replace (S pos + (length token - 1))%nat with (pos + length token)%nat in IH
          by lia.
        apply IH. lia.
    + eapply matches_ok_weaken; [|apply (IH (pre ++ [c]) (S pos) 0%nat Hn' Hpos'); lia].
      lia.
  - specialize (IH (pre ++ [c]) (S pos) k Hn' Hpos').
    replace (pos + S k)%nat with (S pos + k)%nat by lia. apply IH. lia.
Qed.

Lemma finditer_ok s : matches_ok s 0 (WORD_RE_finditer s).
Proof. apply (finditer_from_ok s s [] 0%nat 0%nat); [done|done|lia]. Qed.

(** With the spell corrector on, the cleaned text is the normalized text
    with each token replaced by what [correct_token] makes of it. *)
Lemma clean_spelled self raw_text result dictionary :
  clean U md5 self raw_text = Ok result ->
  spellcheck (config self) = true ->
  _dictionary self = Some dictionary ->
  exists normalized,
    normalize_charset U raw_text (target_charset (config self)) = Ok normalized
    /\ matches_ok normalized 0 (WORD_RE_finditer normalized)
    /\ cleaned_text result
       = spelled U dictionary (max_suggestion_distance (config self))
           normalized (WORD_RE_finditer normalized) 0.
Proof.
  intros (normalized & counter & Hnorm & Hpair & _)%clean_inv Hspell Hdict.
  exists normalized. split; [done|]. split; [apply finditer_ok|].
  pose proof (spell_corrected_pair self normalized) as Hsp.
  rewrite <- Hpair in Hsp. simpl in Hsp.
  by rewrite Hsp; unfold spell_corrected; rewrite Hspell, Hdict.
Qed.

(** With a recognized target charset [clean] returns a result exactly when
    the raw text and the cleaned text have no surrogate; the fingerprint
    of a text with one raises [UnicodeEncodeError]. *)
Lemma clean_returns self raw_text :
  recognized (target_charset (config self)) ->
  exists normalized,
    normalize_charset U raw_text (target_charset (config self)) = Ok normalized
    /\ (encodable raw_text -> encodable (spell_corrected U self normalized) ->
        exists result,
          clean U md5 self raw_text = Ok result
          /\ cleaned_text result = spell_corrected U self normalized)
    /\ (~ (encodable raw_text /\ encodable (spell_corrected U self normalized)) ->
        clean U md5 self raw_text = Raise UnicodeEncodeError).
Proof.
  intros Hrec. unfold clean.
  rewrite normalize_charset_recognized by done.
  set (normalized := narrowed _ _). exists normalized. split; [done|]. simpl.
  pose proof (spell_corrected_pair self normalized) as Hsp.
  destruct (match spellcheck (config self) with true => _ | false => _ end)
    as [cleaned counter].
  simpl in Hsp. rewrite <- Hsp.
  destruct (build_edits_total raw_text cleaned) as [eds ->]. simpl.
  destruct (md5_text_spec md5 raw_text) as [[Hraw ->]|[Hraw ->]]; simpl;
    [|split; [done|tauto]].
  destruct (md5_text_spec md5 cleaned) as [[Hcleaned ->]|[Hcleaned ->]]; simpl;
    [|split; [done|tauto]].
  split; [|tauto]. intros _ _. by eexists.
Qed.

End clean_facts.

(** C1: replaying the edits [build_edits] makes of any pair of strings
    gives back the second string; so the edit list of every result of
    [clean], replayed on the raw text, is the cleaned text. For a
    recognized target charset [clean] returns a result exactly when neither
    the raw text nor the cleaned text holds a surrogate code point, which
    [md5_text] cannot encode, and raises [UnicodeEncodeError] otherwise. *)
Theorem replay_round_trip (original cleaned : str) :
  (exists edits,
     build_edits original cleaned = Some edits
     /\ apply_edits original edits = Ok cleaned)
  /\ (forall U md5 self result,
        clean U md5 self original = Ok result ->
        build_edits original (cleaned_text result) = Some (edits result)
        /\ apply_edits original (edits result) = Ok (cleaned_text result))
  /\ (forall U md5 self,
        recognized (target_charset (config self)) ->
        exists normalized,
          normalize_charset U original (target_charset (config self)) = Ok normalized
          /\ (encodable original -> encodable (spell_corrected U self normalized) ->
              exists result,
                clean U md5 self original = Ok result
                /\ cleaned_text result = spell_corrected U self normalized)
          /\ (~ (encodable original /\ encodable (spell_corrected U self normalized)) ->
              clean U md5 self original = Raise UnicodeEncodeError)).
Proof.
  assert (Hround : forall cleaned' edits',
            build_edits original cleaned' = Some edits' ->
            apply_edits original edits' = Ok cleaned').
  { intros cleaned' edits' Hbuild.
    destruct (build_edits_ok original cleaned')
      as (opcodes & eds & _ & Heds & _ & Hord & _ & Hre).
    rewrite Hbuild in Heds. injection Heds as <-.
    rewrite apply_edits_ok; [by rewrite Hre|].
    apply (in_order_running edits' 0 Hord). }
  split; [|split].
  - destruct (build_edits_total original cleaned) as [eds Heds].
    exists eds. split; [done|by apply Hround].
  - intros U md5 self result Hclean.
    pose proof (clean_edits U md5 self original result Hclean) as Hbuild.
    split; [done|by apply Hround].
  - intros U md5 self. apply clean_returns.
Qed.

Lemma replay_round_trip_witness :
  exists result,
    clean excerpt (fun text => text) (example_cleaner 2)
      [116; 104; 101; 13; 10; 112; 97; 107; 103; 101]%N = Ok result
    /\ apply_edits [116; 104; 101; 13; 10; 112; 97; 107; 103; 101]%N (edits result)
       = Ok (cleaned_text result).
Proof.
  destruct (replay_round_trip [116; 104; 101; 13; 10; 112; 97; 107; 103; 101]%N [])
    as (_ & Hclean & Hreturns).
  destruct (Hreturns excerpt (fun text => text) (example_cleaner 2))
    as (normalized & Hnorm & Hok & _); [by left|].
  vm_compute in Hnorm. injection Hnorm as <-.
  destruct Hok as (result & Hresult & _).
  - by repeat constructor.
  - vm_compute. by repeat constructor.
  - exists result. split; [exact Hresult|].
    exact (proj2 (Hclean excerpt (fun text => text) (example_cleaner 2) result Hresult)).
Defined.

(** C8: for a token the dictionary rejects and suggests candidates for,
    the top candidate, put in the token's case pattern, replaces the token
    exactly when its distance to the token, both lowercased, is at most the
    configured maximum; otherwise the token stays. The cleaned text holds,
    in place of each token, what this decision makes of it. So a candidate
    at distance 2 is rejected with maximum 1 and accepted with maximum 2,
    as "package" is for "pakge" in a cleaned text. *)
Theorem distance_gate (U : unicode_data) (dictionary : Dictionary) (max_distance : Z)
    (token candidate : str) (others : list str) :
  check dictionary token = false ->
  suggest dictionary token = candidate :: others ->
  let cased := _match_case U token candidate in
  let distance := Z.of_nat (_edit_distance (str_lower U token) (str_lower U cased)) in
  (distance <= max_distance ->
     correct_token U dictionary max_distance token = cased)
  /\ (max_distance < distance ->
       correct_token U dictionary max_distance token = token)
  /\ (distance = 2 ->
       correct_token U dictionary 1 token = token
       /\ correct_token U dictionary 2 token = cased)
  /\ (forall md5 self raw_text result,
        clean U md5 self raw_text = Ok result ->
        spellcheck (config self) = true ->
        _dictionary self = Some dictionary ->
        exists normalized,
          normalize_charset U raw_text (target_charset (config self)) = Ok normalized
          /\ matches_ok normalized 0 (WORD_RE_finditer normalized)
          /\ cleaned_text result
             = spelled U dictionary (max_suggestion_distance (config self))
                 normalized (WORD_RE_finditer normalized) 0)
  /\ (exists result,
        clean excerpt (fun text => text) (example_cleaner 1) (lit "the pakge")
          = Ok result
        /\ cleaned_text result = lit "the pakge")
  /\ (exists result,
        clean excerpt (fun text => text) (example_cleaner 2) (lit "the pakge")
          = Ok result
        /\ cleaned_text result = lit "the package").
Proof.
  intros Hcheck Hsuggest cased distance.
  assert (Hgate : forall m,
            correct_token U dictionary m token
            = if distance <=? m then cased else token).
  { intros m. unfold correct_token. by rewrite Hcheck, Hsuggest. }
  split; [|split; [|split; [|split; [|split]]]].
  - intros Hle. rewrite Hgate. by destruct (Z.leb_spec distance max_distance); [|lia].
  - intros Hlt. rewrite Hgate. by destruct (Z.leb_spec distance max_distance); [lia|].
  - intros Hd. rewrite !Hgate, Hd. done.
  - intros md5 self raw_text result. apply clean_spelled.
  - eexists. split; [by vm_compute|done].
  - eexists. split; [by vm_compute|done].
Qed.

Lemma distance_gate_witness :
  correct_token excerpt example_dictionary 1 (lit "pakge") = lit "pakge"
  /\ correct_token excerpt example_dictionary 2 (lit "pakge") = lit "package".
Proof.
  refine (proj1 (proj2 (proj2 (distance_gate excerpt example_dictionary 0
            (lit "pakge") (lit "package") [] _ _))) _); reflexivity.
Defined.

(** ** More properties of the alignment *)

Lemma chain_b_positions bs :
  forall i b2j x,
    default [] (chain_b bs i b2j !! x)
    = default [] (b2j !! x) ++ positions_from bs i x.
Proof.
  induction bs as [|elt bs IH]; intros i b2j x; simpl.
  - by rewrite app_nil_r.
  - rewrite IH. destruct (N.eqb_spec elt x) as [->|Hne].
    + rewrite lookup_insert_eq. simpl. by rewrite <- app_assoc.
    + by rewrite lookup_insert_ne.
Qed.

Lemma positions_from_elem bs :
  forall i x j,
    j ∈ positions_from bs i x
    <-> (i <= j)%nat /\ bs !! (j - i)%nat = Some x.
Proof.
  induction bs as [|c bs IH]; intros i x j; simpl.
  - rewrite elem_of_nil. naive_solver.
  - rewrite elem_of_app, IH. destruct (N.eqb_spec c x) as [->|Hne].
    + rewrite list_elem_of_singleton. split.
      * intros [->|[Hle Hj]].
        -- by rewrite Nat.sub_diag.
        -- split; [lia|]. by replace (j - i)%nat with (S (j - S i)) by lia.
      * intros [Hle Hj]. destruct (decide (j = i)) as [->|Hji]; [by left|].
        right. split; [lia|].
        by replace (j - i)%nat with (S (j - S i)) in Hj by lia.
    + rewrite elem_of_nil. split.
      * intros [[]|[Hle Hj]]. split; [lia|].
        by replace (j - i)%nat with (S (j - S i)) by lia.
      * intros [Hle Hj]. right.
        destruct (decide (j = i)) as [->|Hji].
        -- rewrite Nat.sub_diag in Hj. simpl in Hj. congruence.
        -- split; [lia|]. by replace (j - i)%nat with (S (j - S i)) in Hj by lia.
Qed.

Lemma positions_from_sorted bs :
  forall i x, StronglySorted lt (positions_from bs i x).
Proof.
  induction bs as [|c bs IH]; intros i x; simpl; [constructor|].
  destruct (N.eqb c x); simpl; [|apply IH].
  constructor; [apply IH|].
  apply Forall_forall. intros j Hj%positions_from_elem. lia.
Qed.

Section identical.
Local Open Scope nat_scope.
Context (a : str).

(** Comparing [a] with itself: before row [i] the diagonal entry of
    [j2len] is [i], and the row leaves the whole diagonal so far as the
    best block. *)
Lemma row_scan_diag i (j2len : gmap Z nat) :
  j2len_ok a a 0 0 i j2len ->
  default 0 (j2len !! (Z.of_nat i - 1)%Z) = i ->
  forall js newj2len best,
    StronglySorted lt js ->
    Forall (fun j => j < length a) js ->
    (best = (0, 0, i) /\ i ∈ js
     \/ best = (0, 0, S i) /\ newj2len !! Z.of_nat i = Some (S i)
        /\ Forall (fun j => i < j) js) ->
    (row_scan 0 (length a) js i j2len newj2len best).2 = (0, 0, S i)
    /\ (row_scan 0 (length a) js i j2len newj2len best).1 !! Z.of_nat i = Some (S i).
Proof.
  intros Hok Hdiag js.
  induction js as [|j js IH]; intros newj2len best Hsort Hin Hstate.
  - simpl. destruct Hstate as [[_ Hi]|(-> & Hnew & _)]; [by inversion Hi|done].
  - apply StronglySorted_inv in Hsort as [Hsort Hlt].
    apply Forall_cons in Hin as [Hj Hin].
    cbn [row_scan]. change (j <? 0) with false. cbv iota.
    destruct (Nat.leb_spec (length a) j) as [?|_]; [lia|].
    set (k := default 0 (j2len !! (Z.of_nat j - 1)%Z) + 1).
    assert (Hk : k <= S i /\ k <= S j).
    { unfold k. destruct (j2len !! (Z.of_nat j - 1)%Z) as [k0|] eqn:Hk0; simpl.
      - destruct (Hok _ _ Hk0) as (j0 & Hz & ? & ? & ? & _). lia.
      - lia. }
    destruct Hstate as [[-> Hi]|(-> & Hnew & Hgt)].
    + destruct (decide (j = i)) as [->|Hne].
      * assert (k = S i) as Hki by (unfold k; rewrite Hdiag; lia).
        rewrite Hki.
        destruct (Nat.ltb_spec i (S i)) as [_|?]; [|lia].
        replace (i + 1 - S i) with 0 by lia.
        apply IH; [done|done|]. right. split; [done|].
        split; [by rewrite lookup_insert_eq|done].
      * apply elem_of_cons in Hi as [?|Hi]; [done|].
        assert (j < i) by (rewrite Forall_forall in Hlt; by apply Hlt).
        destruct (Nat.ltb_spec i k) as [?|_]; [lia|].
        apply IH; [done|done|]. by left.
    + apply Forall_cons in Hgt as [Hij Hgt].
      destruct (Nat.ltb_spec (S i) k) as [?|_]; [lia|].
      apply IH; [done|done|]. right. split; [done|]. split; [|done].
      rewrite lookup_insert_ne; [done|lia].
Qed.

Lemma rows_scan_diag b2j :
  (forall x, default [] (b2j !! x) = positions_from a 0 x) ->
  forall n i j2len,
    i + n = length a ->
    j2len_ok a a 0 0 i j2len ->
    default 0 (j2len !! (Z.of_nat i - 1)%Z) = i ->
    rows_scan a b2j 0 (length a) n i j2len (0, 0, i) = (0, 0, length a).
Proof.
  intros Hb2j n.
  induction n as [|n IH]; intros i j2len Hn Hok Hdiag; simpl.
  - do 2 f_equal. lia.
  - destruct (lookup_lt_is_Some_2 a i) as [x Hx]; [lia|]. rewrite Hx, Hb2j.
    assert (Hjs : forall j, j ∈ positions_from a 0 x -> a !! j = Some x).
    { intros j [_ Hj]%positions_from_elem. by rewrite Nat.sub_0_r in Hj. }
    assert (Hbest : best_ok a a 0 0 (length a) (S i) (0, 0, i)).
    { split; [unfold in_box; lia|]. intros d Hd.
      destruct (lookup_lt_is_Some_2 a d) as [c Hc]; [lia|]. by exists c. }
    destruct (row_scan_ok a a 0 0 (length a) x i j2len Hx (Nat.le_0_l i) Hok
                (positions_from a 0 x) ∅ (0, 0, i) Hjs) as [Hok' _].
    { intros z k Hz. by rewrite lookup_empty in Hz. }
    { done. }
    destruct (row_scan_diag i j2len Hok Hdiag (positions_from a 0 x) ∅ (0, 0, i))
      as [Hbest' Hnew].
    { apply positions_from_sorted. }
    { apply Forall_forall. intros j Hj%Hjs. by apply lookup_lt_Some in Hj. }
    { left. split; [done|]. apply positions_from_elem.
      split; [lia|]. by rewrite Nat.sub_0_r. }
    destruct (row_scan 0 (length a) (positions_from a 0 x) i j2len ∅ (0, 0, i))
      as [newj2len best']. simpl in *. subst best'.
    apply IH; [lia|done|].
    replace (Z.of_nat (S i) - 1)%Z with (Z.of_nat i) by lia. by rewrite Hnew.
Qed.

Lemma find_longest_match_identical :
  find_longest_match a a (chain_b a 0 ∅) 0 (length a) 0 (length a)
  = (0, 0, length a).
Proof.
  unfold find_longest_match.
  rewrite Nat.sub_0_r, (rows_scan_diag (chain_b a 0 ∅)).
  - simpl. by rewrite Nat.sub_diag.
  - intros x. by rewrite chain_b_positions, lookup_empty.
  - lia.
  - intros z k Hz. by rewrite lookup_empty in Hz.
  - done.
Qed.

Lemma get_opcodes_identical :
  get_opcodes a a
  = Some (if (0 <? length a) then [(equal_tag, 0, length a, 0, length a)] else []).
Proof.
  unfold get_opcodes, get_matching_blocks.
  replace (2 * length a + 1) with (S (2 * length a)) by lia.
  cbn [blocks_loop]. rewrite find_longest_match_identical.
  destruct (Nat.ltb_spec 0 (length a)) as [Hpos|Hzero].
  - rewrite Nat.ltb_irrefl. simpl.
    destruct (length a) as [|n] eqn:Hlen; [lia|]. simpl.
    rewrite Nat.ltb_irrefl. simpl. done.
  - assert (length a = 0) as -> by lia. done.
Qed.

End identical.

Lemma build_edits_same (text : str) : build_edits text text = Some [].
Proof.
  unfold build_edits. rewrite get_opcodes_identical.
  by destruct (0 <? length text)%nat.
Qed.

(** ** More properties of the edit differencer and of the replayer *)

Lemma build_edits_replay original cleaned edits :
  build_edits original cleaned = Some edits ->
  apply_edits original edits = Ok cleaned.
Proof.
  intros Hbuild.
  destruct (build_edits_ok original cleaned)
    as (opcodes & eds & _ & Heds & _ & Hord & _ & Hre).
  rewrite Hbuild in Heds. injection Heds as <-.
  rewrite apply_edits_ok; [by rewrite Hre|].
  apply (in_order_running edits 0 Hord).
Qed.

Lemma collapse_loop_positive rest :
  forall pending acc,
    Forall (fun x : block => 0 < x.2)%nat acc ->
    Forall (fun x : block => 0 < x.2)%nat
      (let '((i1, j1, k1), acc') := collapse_loop rest pending acc in
       if (0 <? k1)%nat then acc' ++ [(i1, j1, k1)] else acc').
Proof.
  induction rest as [|[[i2 j2] k2] rest IH]; intros [[i1 j1] k1] acc Hacc; simpl.
  - destruct k1 as [|k1]; [done|].
    apply Forall_app. split; [done|apply Forall_singleton; simpl; lia].
  - destruct ((i1 + k1 =? i2)%nat && (j1 + k1 =? j2)%nat).
    + by apply IH.
    + apply IH. destruct k1 as [|k1]; [done|].
      apply Forall_app. split; [done|apply Forall_singleton; simpl; lia].
Qed.

(** All the blocks of [get_matching_blocks] but the closing one are
    non-empty. *)
Lemma get_matching_blocks_positive a b blocks :
  get_matching_blocks a b = Some (blocks ++ [(length a, length b, 0%nat)]) ->
  Forall (fun x : block => 0 < x.2)%nat blocks.
Proof.
  unfold get_matching_blocks.
  destruct (blocks_loop a b _ _ _ _) as [found|]; [|done]. simpl.
  pose proof (collapse_loop_positive (merge_sort block_le found) (0, 0, 0)%nat []
                (Forall_nil_2 _)) as Hpos.
  destruct (collapse_loop (merge_sort block_le found) (0, 0, 0)%nat [])
    as [[[i1 j1] k1] acc].
  intros [= Heq]. apply app_inj_tail in Heq as [Heq _]. rewrite <- Heq. exact Hpos.
Qed.

Lemma py_slice_length (s : str) lo hi :
  0 <= lo <= hi -> hi <= Z.of_nat (length s) ->
  Z.of_nat (length (py_slice s lo hi)) = hi - lo.
Proof.
  intros Hlo Hhi. unfold py_slice, adjust_index.
  destruct (Z.ltb_spec lo 0); [lia|]. destruct (Z.ltb_spec hi 0); [lia|].
  rewrite length_take, length_drop. lia.
Qed.

Lemma py_slice_from_length (s : str) lo :
  0 <= lo <= Z.of_nat (length s) ->
  Z.of_nat (length (py_slice_from s lo)) = Z.of_nat (length s) - lo.
Proof.
  intros Hlo. unfold py_slice_from, adjust_index.
  destruct (Z.ltb_spec lo 0); [lia|]. rewrite length_drop. lia.
Qed.

Section differencer_more.
Context (original cleaned : str).

Lemma edits_of_blocks_strict blocks :
  forall i j c,
    Forall (block_fits original cleaned) blocks ->
    Forall (fun x : block => 0 < x.2)%nat blocks ->
    chain i j (blocks ++ [(length original, length cleaned, 0%nat)]) ->
    c < Z.of_nat i ->
    let edits :=
      edits_of_blocks cleaned
        (blocks ++ [(length original, length cleaned, 0%nat)]) i j in
    strictly_after c edits
    /\ Forall (fun e => start e < end_ e \/ replacement e <> []) edits.
Proof.
  assert (Hedit : forall i ai j bj,
            (i <= ai)%nat -> (j <= bj)%nat -> (bj <= length cleaned)%nat ->
            (i <? ai)%nat || (j <? bj)%nat = true ->
            Z.of_nat i < Z.of_nat ai
            \/ py_slice cleaned (Z.of_nat j) (Z.of_nat bj) <> []).
  { intros i ai j bj Hi Hj Hbj Hor.
    apply orb_true_iff in Hor as [Hlt%Nat.ltb_lt|Hlt%Nat.ltb_lt]; [left; lia|].
    right. intros Hnil.
    pose proof (py_slice_length cleaned (Z.of_nat j) (Z.of_nat bj)) as Hlen.
    rewrite Hnil in Hlen. simpl in Hlen. lia. }
  induction blocks as [|[[ai bj] size] rest IH]; intros i j c Hfits Hpos Hchain Hc;
    simpl in *.
  - destruct Hchain as (Hi & Hj & _). rewrite app_nil_r.
    destruct ((i <? length original)%nat || (j <? length cleaned)%nat) eqn:Hor;
      simpl; [|done].
    split; [done|]. apply Forall_singleton. simpl. by apply Hedit.
  - apply Forall_cons in Hfits as [[_ Hbox] Hfits]. unfold in_box in Hbox.
    apply Forall_cons in Hpos as [Hsize Hpos]. simpl in Hsize.
    destruct Hchain as (Hi & Hj & Hchain).
    destruct ((i <? ai)%nat || (j <? bj)%nat) eqn:Hor; simpl.
    + destruct (IH (ai + size)%nat (bj + size)%nat (Z.of_nat ai) Hfits Hpos Hchain)
        as [Hstrict Hne]; [lia|].
      split; [by split|]. apply Forall_cons. split; [|done].
      simpl. apply Hedit; [done|done|lia|done].
    + apply (IH (ai + size)%nat (bj + size)%nat c Hfits Hpos Hchain). lia.
Qed.

Lemma build_edits_of_matching_blocks edits :
  build_edits original cleaned = Some edits ->
  exists blocks,
    get_matching_blocks original cleaned
    = Some (blocks ++ [(length original, length cleaned, 0%nat)])
    /\ Forall (block_fits original cleaned) blocks
    /\ chain 0 0 (blocks ++ [(length original, length cleaned, 0%nat)])
    /\ edits = edits_of_blocks cleaned
                 (blocks ++ [(length original, length cleaned, 0%nat)]) 0 0.
Proof.
  destruct (get_matching_blocks_ok original cleaned) as (blocks & Hblocks & Hfits & Hchain).
  unfold build_edits, get_opcodes. rewrite Hblocks. simpl.
  rewrite build_edits_loop_map, build_edits_of_blocks. simpl.
  intros [= <-]. by exists blocks.
Qed.

End differencer_more.

Lemma strictly_after_adjacent edits :
  forall c, strictly_after c edits ->
    forall pre e1 e2 post, edits = pre ++ e1 :: e2 :: post -> end_ e1 < start e2.
Proof.
  induction edits as [|e edits IH]; intros c Hstrict pre e1 e2 post Heq.
  - by destruct pre.
  - destruct Hstrict as [_ Hstrict].
    destruct pre as [|p pre]; simplify_eq/=.
    + by destruct Hstrict.
    + by apply (IH _ Hstrict pre e1 e2 post).
Qed.

(** What [apply_edits] returns when it returns. *)
Lemma apply_edits_loop_inv original edits :
  forall cursor result c' result',
    apply_edits_loop original edits cursor result = Ok (c', result') ->
    in_order cursor edits.
Proof.
  induction edits as [|e edits IH]; intros cursor result c' result' Hrun; simpl in *;
    [done|].
  destruct (Z.ltb_spec (start e) cursor); [done|].
  split; [done|]. by eapply IH.
Qed.

Lemma apply_edits_inv original edits out :
  apply_edits original edits = Ok out ->
  in_order 0 edits /\ out = replayed original 0 edits.
Proof.
  intros Hrun.
  assert (Hord : in_order 0 edits).
  { unfold apply_edits in Hrun.
    destruct (apply_edits_loop original edits 0 []) as [[c' res]|] eqn:Hloop; [|done].
    by eapply apply_edits_loop_inv. }
  split; [done|].
  rewrite apply_edits_ok in Hrun; [by injection Hrun|].
  apply (in_order_running edits 0 Hord).
Qed.

Lemma replayed_length original edits :
  forall c,
    0 <= c <= Z.of_nat (length original) ->
    in_order c edits ->
    Forall (fun e => start e <= end_ e /\ end_ e <= Z.of_nat (length original)) edits ->
    Z.of_nat (length (replayed original c edits))
    = Z.of_nat (length original) - c - removed edits + inserted edits.
Proof.
  induction edits as [|e edits IH]; intros c Hc Hord Hb; simpl.
  - rewrite py_slice_from_length by done. unfold removed, inserted. simpl. lia.
  - destruct Hord as [Hstart Hord]. apply Forall_cons in Hb as [[Hse Hel] Hb].
    rewrite !length_app, !Nat2Z.inj_add, py_slice_length, IH by (done || lia).
    unfold removed, inserted. simpl. lia.
Qed.

(** X1: comparing a text with itself gives no edit. *)
Theorem build_edits_identical (text : str) : build_edits text text = Some [].
Proof. apply build_edits_same. Qed.

(** X2: in the edit list [build_edits] returns, every edit starts strictly
    after the end of the edit before it (at least one character of the
    original is kept between two edits), and no edit is empty: it removes a
    character or inserts one. *)
Theorem build_edits_separated (original cleaned : str) (edits : list Edit) :
  build_edits original cleaned = Some edits ->
  (forall pre e1 e2 post, edits = pre ++ e1 :: e2 :: post -> end_ e1 < start e2)
  /\ Forall (fun e => start e < end_ e \/ replacement e <> []) edits.
Proof.
  intros Hbuild.
  destruct (build_edits_of_matching_blocks original cleaned edits Hbuild)
    as (blocks & Hblocks & Hfits & Hchain & ->).
  pose proof (get_matching_blocks_positive original cleaned blocks Hblocks) as Hpos.
  destruct (edits_of_blocks_strict original cleaned blocks 0%nat 0%nat (-1)
              Hfits Hpos Hchain) as [Hstrict Hne]; [lia|].
  split; [|done]. by apply (strictly_after_adjacent _ (-1)).
Qed.

Lemma build_edits_separated_witness :
  Forall (fun e => start e < end_ e \/ replacement e <> [])
    [mkEdit 0 1 []; mkEdit 3 4 (lit "y"); mkEdit 6 6 (lit "f")].
Proof.
  exact (proj2 (build_edits_separated (lit "qabxcd") (lit "abycdf")
                  [mkEdit 0 1 []; mkEdit 3 4 (lit "y"); mkEdit 6 6 (lit "f")]
                  eq_refl)).
Defined.

(** X3: when [apply_edits] returns and the spans of the edits lie inside
    the original ([start <= end <= len(original)]), the length of the
    result is the length of the original, minus the lengths of the spans,
    plus the lengths of the replacements. *)
Theorem apply_edits_length (original : str) (edits : list Edit) (out : str) :
  apply_edits original edits = Ok out ->
  Forall (fun e => start e <= end_ e /\ end_ e <= Z.of_nat (length original)) edits ->
  Z.of_nat (length out)
  = Z.of_nat (length original) - removed edits + inserted edits.
Proof.
  intros [Hord ->]%apply_edits_inv Hb.
  rewrite replayed_length by (done || lia). lia.
Qed.

Lemma apply_edits_length_witness :
  Z.of_nat (length (lit "aXcdYYf"))
  = 6 - removed [mkEdit 1 2 (lit "X"); mkEdit 4 5 (lit "YY")]
    + inserted [mkEdit 1 2 (lit "X"); mkEdit 4 5 (lit "YY")].
Proof.
  apply (apply_edits_length (lit "abcdef")
           [mkEdit 1 2 (lit "X"); mkEdit 4 5 (lit "YY")] (lit "aXcdYYf")).
  - reflexivity.
  - repeat constructor; simpl; lia.
Defined.

(** X4: when [apply_edits] returns, its result begins with the original up
    to the start of the first edit and ends with the original from the end
    of the last edit on; with no edit it is the original. *)
Theorem apply_edits_keeps_ends (original : str) (edits : list Edit) (out : str) :
  apply_edits original edits = Ok out ->
  match edits, last edits with
  | first :: _, Some final =>
      exists middle,
        out = py_slice original 0 (start first) ++ middle
                ++ py_slice_from original (end_ final)
  | _, _ => out = original
  end.
Proof.
  intros [Hord ->]%apply_edits_inv.
  destruct edits as [|first rest]; simpl.
  - apply py_slice_from_0.
  - rewrite last_cons.
    destruct (replayed_app original rest [] (end_ first)) as [x Hx].
    rewrite app_nil_r in Hx. simpl in Hx.
    destruct (last rest) as [final|];
      exists (replacement first ++ x); rewrite Hx; by rewrite <- !app_assoc.
Qed.

Lemma apply_edits_keeps_ends_witness :
  exists middle,
    lit "aXcdYYf" = py_slice (lit "abcdef") 0 1 ++ middle
                      ++ py_slice_from (lit "abcdef") 5.
Proof.
  exact (apply_edits_keeps_ends (lit "abcdef")
           [mkEdit 1 2 (lit "X"); mkEdit 4 5 (lit "YY")] (lit "aXcdYYf") eq_refl).
Defined.

Section distance_bounds.
Local Open Scope nat_scope.

Lemma lev_le_max a : forall b, lev a b <= Nat.max (length a) (length b).
Proof.
  induction a as [|x a IH]; intros [|y b]; rewrite ?lev_nil_l, ?lev_nil_r; simpl;
    try lia.
  pose proof (lev_keep x y a b). pose proof (differ_le_1 x y). pose proof (IH b). lia.
Qed.

(** X5: the distance of two strings lies between the difference of their
    lengths and the longer length; an empty string is at the length of the
    other one. *)
Theorem _edit_distance_bounds (a b : str) :
  length a - length b <= _edit_distance a b
  /\ length b - length a <= _edit_distance a b
  /\ _edit_distance a b <= Nat.max (length a) (length b)
  /\ _edit_distance a [] = length a
  /\ _edit_distance [] b = length b.
Proof.
  rewrite !_edit_distance_lev.
  pose proof (lev_length_l a b). pose proof (lev_length_r a b).
  pose proof (lev_le_max a b).
  rewrite lev_nil_l, lev_nil_r. lia.
Qed.

End distance_bounds.

(** ** More properties of the normalizer and of the cleaning engine *)

(** X6: a result of [normalize_charset] fits the target charset: every
    code point is below 256 for "latin-1" and below 128 for "ascii". *)
Theorem normalize_charset_fits (U : unicode_data) (text target_charset out : str) :
  normalize_charset U text target_charset = Ok out ->
  (target_charset = lit "latin-1" -> Forall (fun ch => (ch < 256)%N) out)
  /\ (target_charset = lit "ascii" -> Forall (fun ch => (ch < 128)%N) out).
Proof.
  intros Hout.
  assert (Hnarrow : forall tc limit,
            target_charset = tc -> recognized tc ->
            narrowed tc (List.filter (kept U) (nfkc U (unify_line_endings text)))
            = List.filter (fun ch => N.ltb ch limit)
                (List.filter (kept U) (nfkc U (unify_line_endings text))) ->
            Forall (fun ch => (ch < limit)%N) out).
  { intros tc limit -> Hrec Heq.
    destruct (normalized_contents U text tc out Hrec Hout) as [-> _].
    rewrite Heq. apply Forall_forall. intros ch Hch%list_elem_of_In.
    by apply filter_In in Hch as [_ ?%N.ltb_lt]. }
  split; intros Htc.
  - apply (Hnarrow (lit "latin-1")); [done|right; by left|done].
  - apply (Hnarrow (lit "ascii")); [done|right; by right|done].
Qed.

Lemma normalize_charset_fits_witness :
  Forall (fun ch => (ch < 128)%N) (lit "ab").
Proof.
  exact (proj2 (normalize_charset_fits excerpt [97; 233; 98]%N (lit "ascii") (lit "ab")
                  eq_refl) eq_refl).
Defined.

(** X7: a text with no carriage return, in NFKC form, with no character
    that is stripped and none that the target charset cannot hold, is
    returned as it is. *)
Theorem normalize_charset_fixed (U : unicode_data) (text target_charset : str) :
  recognized target_charset ->
  CR ∉ text ->
  nfkc U text = text ->
  Forall (fun ch => kept U ch = true) text ->
  narrowed target_charset text = text ->
  normalize_charset U text target_charset = Ok text.
Proof.
  intros Hrec Hcr Hstable Hkept Hfits.
  rewrite normalize_charset_recognized by done.
  rewrite unify_line_endings_id, Hstable by done.
  rewrite (filter_all (kept U)); [by rewrite Hfits|].
  intros ch Hch%list_elem_of_In. rewrite Forall_forall in Hkept. by apply Hkept.
Qed.

Lemma normalize_charset_fixed_witness :
  normalize_charset excerpt (lit "plain text") (lit "ascii") = Ok (lit "plain text").
Proof.
  apply (normalize_charset_fixed excerpt (lit "plain text") (lit "ascii")).
  - right. by right.
  - apply (bool_decide_unpack _). reflexivity.
  - reflexivity.
  - by repeat constructor.
  - reflexivity.
Defined.

Lemma word_run_spec s :
  exists rest,
    s = word_run s ++ rest
    /\ Forall (fun r => is_word_char r = true) (word_run s)
    /\ match rest with
       | c :: _ => is_word_char c = false
       | [] => True
       end.
Proof.
  induction s as [|c s (rest & Heq & Hall & Hrest)]; simpl.
  - by exists [].
  - destruct (is_word_char c) eqn:Hc.
    + exists rest. split; [simpl; by rewrite <- Heq|]. split; [by constructor|done].
    + exists (c :: s). by repeat split.
Qed.

Lemma WORD_RE_match_spec s token :
  WORD_RE_match s = Some token ->
  word_token token
  /\ exists rest,
       s = token ++ rest
       /\ match rest with
          | c :: _ => is_word_char c = false
          | [] => True
          end.
Proof.
  destruct s as [|c s]; simpl; [done|].
  destruct (is_ascii_letter c) eqn:Hc; [|done].
  destruct (word_run_spec s) as (rest & Heq & Hall & Hrest).
  destruct (word_run s) as [|r run] eqn:Hrun; [done|].
  intros [= <-]. split; [by repeat split|].
  exists rest. split; [simpl; f_equal; exact Heq|done].
Qed.

Lemma finditer_from_tokens normalized s :
  forall pre pos skip,
    normalized = pre ++ s -> pos = length pre ->
    Forall (match_ok normalized) (WORD_RE_finditer_from s pos skip).
Proof.
  induction s as [|c s IH]; intros pre pos skip Hn Hpos; [constructor|].
  assert (Hn' : normalized = (pre ++ [c]) ++ s) by (by rewrite <- app_assoc).
  assert (Hpos' : S pos = length (pre ++ [c]))
    by (rewrite length_app; simpl; lia).
  cbn [WORD_RE_finditer_from]. destruct skip as [|k]; [|by apply (IH (pre ++ [c]))].
  destruct (WORD_RE_match (c :: s)) as [token|] eqn:Hmatch;
    [|by apply (IH (pre ++ [c]))].
  destruct (WORD_RE_match_spec _ _ Hmatch) as (Htoken & rest & Hrest & Hnext).
  apply Forall_cons. split; [|by apply (IH (pre ++ [c]))].
  split; [done|]. simpl.
  rewrite Hn, Hrest, Hpos, lookup_app_r by lia.
  replace (length pre + length token - length pre)%nat with (length token) by lia.
  rewrite lookup_app_r by lia. rewrite Nat.sub_diag. by destruct rest.
Qed.

Section clean_more.
Context (U : unicode_data).

Lemma counter_incr_keys key counter :
  map fst (counter_incr key counter)
  = if decide (key ∈ map fst counter) then map fst counter
    else map fst counter ++ [key].
Proof.
  induction counter as [|[k n] counter IH].
  - simpl. destruct (decide (key ∈ [])) as [Hin|_]; [by apply elem_of_nil in Hin|done].
  - cbn [counter_incr map fst].
    destruct (decide (k = key)) as [->|Hne]; cbn [map fst].
    + destruct (decide (key ∈ key :: map fst counter)) as [_|Hin]; [done|].
      exfalso. apply Hin. by left.
    + rewrite IH. destruct (decide (key ∈ map fst counter)) as [Hin|Hnin].
      * destruct (decide (key ∈ k :: map fst counter)) as [_|Hin']; [done|].
        exfalso. apply Hin'. by right.
      * destruct (decide (key ∈ k :: map fst counter)) as [Hin'|_]; [|done].
        apply elem_of_cons in Hin' as [?|?]; [congruence|done].
Qed.

Lemma counter_incr_counts token rep counter :
  token <> rep ->
  Forall (fun x => x.1.1 <> x.1.2 /\ (1 <= x.2)%nat) counter ->
  Forall (fun x => x.1.1 <> x.1.2 /\ (1 <= x.2)%nat)
    (counter_incr (token, rep) counter).
Proof.
  intros Hne. induction 1 as [|[k n] counter [Hk Hn] Hrest IH]; simpl.
  - apply Forall_singleton. simpl. split; [done|lia].
  - destruct (decide (k = (token, rep))).
    + apply Forall_cons. split; [simpl in *; split; [done|lia]|exact Hrest].
    + by apply Forall_cons.
Qed.

Lemma counter_incr_ok token rep counter :
  token <> rep -> counter_ok counter -> counter_ok (counter_incr (token, rep) counter).
Proof.
  intros Hne [Hdup Hall]. split; [|by apply counter_incr_counts].
  rewrite counter_incr_keys. case_decide; [done|].
  apply NoDup_app. split; [done|]. split; [|apply NoDup_singleton].
  intros x Hx ->%list_elem_of_singleton. done.
Qed.

Lemma spell_loop_counter_ok dictionary max_distance normalized matches :
  forall pieces cursor counter,
    counter_ok counter ->
    counter_ok (spell_loop U normalized dictionary max_distance matches
                  pieces cursor counter).2.
Proof.
  induction matches as [|[[st en] token] matches IH]; intros pieces cursor counter Hok;
    simpl; [done|].
  apply IH. case_decide; [|done]. by apply counter_incr_ok.
Qed.

Lemma spell_loop_counter_kept dictionary max_distance normalized matches :
  Forall (fun m => correct_token U dictionary max_distance m.2 = m.2) matches ->
  forall pieces cursor counter,
    (spell_loop U normalized dictionary max_distance matches
       pieces cursor counter).2 = counter.
Proof.
  induction 1 as [|[[st en] token] matches Hkeep _ IH]; intros pieces cursor counter;
    simpl; [done|].
  rewrite IH. simpl in Hkeep. by rewrite decide_False by (by intros []).
Qed.

End clean_more.

(** [Counter.most_common] *)
Lemma insert_by_count_perm x sorted : insert_by_count x sorted ≡ₚ x :: sorted.
Proof.
  induction sorted as [|y sorted IH]; simpl; [done|].
  destruct (y.2 <? x.2)%nat; [done|]. by rewrite IH, Permutation_swap.
Qed.

Lemma insert_by_count_sorted x sorted :
  StronglySorted (fun y z : str * str * nat => (z.2 <= y.2)%nat) sorted ->
  StronglySorted (fun y z : str * str * nat => (z.2 <= y.2)%nat)
    (insert_by_count x sorted).
Proof.
  induction 1 as [|y sorted Hsorted IH Hy]; simpl.
  - by repeat constructor.
  - destruct (Nat.ltb_spec y.2 x.2) as [Hlt|Hge].
    + constructor; [by constructor|]. apply Forall_cons. split; [lia|].
      eapply Forall_impl; [exact Hy|]. simpl. intros z ?. lia.
    + constructor; [done|]. rewrite insert_by_count_perm.
      by apply Forall_cons.
Qed.

Lemma most_common_fold counter :
  forall sorted,
    StronglySorted (fun y z : str * str * nat => (z.2 <= y.2)%nat) sorted ->
    StronglySorted (fun y z : str * str * nat => (z.2 <= y.2)%nat)
      (foldl (fun sorted x => insert_by_count x sorted) sorted counter)
    /\ foldl (fun sorted x => insert_by_count x sorted) sorted counter
       ≡ₚ sorted ++ counter.
Proof.
  induction counter as [|x counter IH]; intros sorted Hsorted; simpl.
  - by rewrite app_nil_r.
  - destruct (IH (insert_by_count x sorted)) as [Hs Hp];
      [by apply insert_by_count_sorted|].
    split; [done|]. rewrite Hp, insert_by_count_perm. simpl. apply Permutation_middle.
Qed.

Lemma most_common_spec n counter :
  length (most_common n counter) = Nat.min n (length counter)
  /\ StronglySorted (fun y z : str * str * nat => (z.2 <= y.2)%nat)
       (most_common n counter)
  /\ most_common n counter ⊆+ counter
  /\ (length counter <= n -> most_common n counter ≡ₚ counter)%nat
  /\ (NoDup (map fst counter) -> NoDup (map fst (most_common n counter))).
Proof.
  unfold most_common.
  destruct (most_common_fold counter [] (SSorted_nil _)) as [Hs Hp]. simpl in Hp.
  set (sorted := foldl _ _ _) in *.
  split; [by rewrite length_take, Hp|]. split; [|split; [|split]].
  - rewrite <- (take_drop n sorted) in Hs. by apply StronglySorted_app_1_l in Hs.
  - rewrite <- Hp. apply sublist_submseteq, sublist_take.
  - intros Hlen. rewrite take_ge; [done|]. by rewrite Hp.
  - intros Hdup. apply (sublist_NoDup _ (map fst sorted)).
    + change (NoDup (fst <$> sorted)). by rewrite Hp.
    + apply (fmap_sublist fst), sublist_take.
Qed.

(** ** The tokenizer finds every word *)

Lemma WORD_RE_match_none c s d :
  WORD_RE_match (c :: s) = None -> s !! 0%nat = Some d ->
  is_ascii_letter c = true -> is_word_char d = true -> False.
Proof.
  destruct s as [|d' s]; [done|]. intros Hnone [= ->] Hc Hd.
  simpl in Hnone. by rewrite Hc, Hd in Hnone.
Qed.

Lemma WORD_RE_match_length s token :
  WORD_RE_match s = Some token -> (2 <= length token)%nat.
Proof.
  intros [Htoken _]%WORD_RE_match_spec.
  destruct token as [|c [|d rest]]; simpl in *; [done| |lia].
  by destruct Htoken as (_ & ? & _).
Qed.

Lemma finditer_from_covers s :
  forall pos skip i,
    (skip <= i)%nat -> word_start s i ->
    exists m, m ∈ WORD_RE_finditer_from s pos skip
              /\ (m.1.1 <= pos + i < m.1.2)%nat.
Proof.
  induction s as [|c s IH]; intros pos skip i Hskip (x & d & Hx & Hd & Hlx & Hwd);
    [done|].
  assert (Hnext : forall i' k, i = S i' -> (k <= i')%nat ->
            exists m, m ∈ WORD_RE_finditer_from s (S pos) k
                      /\ (m.1.1 <= pos + i < m.1.2)%nat).
  { intros i' k -> Hk.
    destruct (IH (S pos) k i' Hk) as (m & Hm & Hin); [by exists x, d|].
    exists m. split; [done|lia]. }
  cbn [WORD_RE_finditer_from]. destruct skip as [|k].
  - destruct (WORD_RE_match (c :: s)) as [token|] eqn:Hmatch.
    + pose proof (WORD_RE_match_length _ _ Hmatch) as Hlen.
      destruct (decide (i < length token)%nat) as [Hlt|Hge].
      * exists (pos, (pos + length token)%nat, token). split; [by left|simpl; lia].
      * destruct i as [|i']; [lia|].
        destruct (Hnext i' (length token - 1)%nat) as (m & Hm & Hin); [done|lia|].
        exists m. split; [by right|done].
    + destruct i as [|i'].
      * exfalso. simpl in Hx, Hd. injection Hx as <-.
        by apply (WORD_RE_match_none c s d).
      * apply (Hnext i' 0%nat); [done|lia].
  - destruct i as [|i']; [lia|]. apply (Hnext i' k); [done|lia].
Qed.

(** ** The replacement counter *)

Lemma counter_get_incr key key' counter :
  counter_get key (counter_incr key' counter)
  = (counter_get key counter + if decide (key' = key) then 1 else 0)%nat.
Proof.
  induction counter as [|[k n] counter IH]; cbn [counter_incr counter_get].
  - destruct (decide (key' = key)); simpl; [done|lia].
  - destruct (decide (k = key')) as [->|Hne]; cbn [counter_get].
    + destruct (decide (key' = key)); lia.
    + destruct (decide (k = key)) as [->|Hne']; [|done].
      rewrite decide_False by done. lia.
Qed.

Lemma counter_get_elem key n counter :
  NoDup (map fst counter) -> (key, n) ∈ counter -> counter_get key counter = n.
Proof.
  induction counter as [|[k n'] counter IH]; intros Hdup Hin; [by apply elem_of_nil in Hin|].
  apply NoDup_cons in Hdup as [Hk Hdup]. simpl in *.
  apply elem_of_cons in Hin as [[= <- <-]|Hin].
  - by rewrite decide_True.
  - destruct (decide (k = key)) as [->|Hne]; [|by apply IH].
    exfalso. apply Hk. apply list_elem_of_fmap. by exists (key, n).
Qed.

Lemma counter_get_absent key counter :
  key ∉ map fst counter -> counter_get key counter = 0%nat.
Proof.
  induction counter as [|[k n] counter IH]; intros Hnin; simpl; [done|].
  simpl in Hnin. apply not_elem_of_cons in Hnin as [Hne Hnin].
  rewrite decide_False by done. by apply IH.
Qed.

Lemma occurrences_snoc token matches m :
  occurrences token (matches ++ [m])
  = (occurrences token matches + if decide (m.2 = token) then 1 else 0)%nat.
Proof.
  unfold occurrences. rewrite List.filter_app, length_app. simpl.
  destruct (decide (m.2 = token)) as [Heq|Hne].
  - by rewrite bool_decide_eq_true_2.
  - by rewrite bool_decide_eq_false_2.
Qed.

Lemma occurrences_elem token matches :
  (1 <= occurrences token matches)%nat -> exists m, m ∈ matches /\ m.2 = token.
Proof.
  unfold occurrences. induction matches as [|m matches IH]; simpl; [lia|].
  destruct (bool_decide_reflect (m.2 = token)) as [Heq|Hne].
  - intros _. exists m. split; [by left|done].
  - intros (m' & Hin & Heq)%IH. exists m'. split; [by right|done].
Qed.

Section counter_facts.
Context (U : unicode_data) (dictionary : Dictionary) (max_distance : Z).

Lemma spell_loop_counter_counts normalized matches :
  forall seen pieces cursor counter,
    counter_counts U dictionary max_distance seen counter ->
    counter_counts U dictionary max_distance (seen ++ matches)
      (spell_loop U normalized dictionary max_distance matches pieces cursor counter).2.
Proof.
  induction matches as [|[[st en] tok] matches IH];
    intros seen pieces cursor counter Hcounts; cbn [spell_loop].
  - by rewrite app_nil_r.
  - rewrite (cons_middle _ seen), app_assoc. apply IH.
    intros token rep. rewrite occurrences_snoc. simpl.
    destruct (decide (correct_token U dictionary max_distance tok <> tok)) as [Hrep|Hkeep].
    + rewrite counter_get_incr, Hcounts.
      destruct (decide (tok = token)) as [->|Hne].
      * destruct (decide (correct_token U dictionary max_distance token = rep)) as [<-|Hne].
        -- by rewrite !decide_True.
        -- rewrite !decide_False by naive_solver. lia.
      * rewrite (decide_False (P := (tok, _) = _)) by naive_solver.
        case_decide; lia.
    + rewrite Hcounts. case_decide as Hcase; [|done].
      destruct (decide (tok = token)) as [->|Hne]; [|lia].
      destruct Hcase as [-> Hcase]. by destruct Hkeep.
Qed.

End counter_facts.

(** ** More properties of [clean] *)

Lemma occurrences_pos token matches m :
  m ∈ matches -> m.2 = token -> (1 <= occurrences token matches)%nat.
Proof.
  unfold occurrences. intros Hin Heq.
  assert (Hf : m ∈ List.filter (fun m => bool_decide (m.2 = token)) matches).
  { apply list_elem_of_In, filter_In. split; [by apply list_elem_of_In|].
    by apply bool_decide_eq_true_2. }
  destruct (List.filter _ matches); [by apply elem_of_nil in Hf|simpl; lia].
Qed.

Lemma correct_token_kept U dictionary max_distance token :
  max_distance < 0 \/ check dictionary token = true \/ suggest dictionary token = [] ->
  correct_token U dictionary max_distance token = token.
Proof.
  unfold correct_token. intros [Hneg|[-> | ->]]; [|done|by destruct (check _ _)].
  destruct (check _ _); [done|]. simpl. destruct (suggest _ _); [done|].
  by destruct (Z.leb_spec (Z.of_nat (_edit_distance (str_lower U token)
                 (str_lower U (_match_case U token l)))) max_distance); [lia|].
Qed.

Section clean_more_facts.
Context (U : unicode_data) (md5 : list N -> str).

Lemma clean_plain self raw_text result :
  clean U md5 self raw_text = Ok result ->
  spellcheck (config self) = false \/ _dictionary self = None ->
  normalize_charset U raw_text (target_charset (config self))
  = Ok (cleaned_text result)
  /\ top_replacements (summary result) = [].
Proof.
  intros (normalized & counter & Hnorm & Hspell & _ & _ & _ & _ & _ & Htop)%clean_inv Hoff.
  assert (Heq : (cleaned_text result, counter) = (normalized, [])).
  { destruct Hoff as [Hoff|Hoff]; rewrite Hoff in Hspell; [done|].
    by destruct (spellcheck _). }
  injection Heq as -> ->. by rewrite Htop.
Qed.

Lemma clean_counter self raw_text result dictionary :
  clean U md5 self raw_text = Ok result ->
  spellcheck (config self) = true ->
  _dictionary self = Some dictionary ->
  exists normalized counter,
    normalize_charset U raw_text (target_charset (config self)) = Ok normalized
    /\ counter
       = (spell_loop U normalized dictionary (max_suggestion_distance (config self))
            (WORD_RE_finditer normalized) [] 0%nat []).2
    /\ top_replacements (summary result) = most_common 8 counter.
Proof.
  intros (normalized & counter & Hnorm & Hspell & _ & _ & _ & _ & _ & Htop)%clean_inv
    Hon Hdict.
  exists normalized, counter. split; [done|]. split; [|done].
  rewrite Hon, Hdict in Hspell.
  destruct (spell_loop U normalized dictionary _ _ [] 0%nat []) as [[pieces cursor] c].
  by injection Hspell as _ ->.
Qed.

Lemma clean_kept self raw_text result dictionary :
  clean U md5 self raw_text = Ok result ->
  spellcheck (config self) = true ->
  _dictionary self = Some dictionary ->
  (forall token, word_token token ->
     correct_token U dictionary (max_suggestion_distance (config self)) token = token) ->
  normalize_charset U raw_text (target_charset (config self))
  = Ok (cleaned_text result)
  /\ top_replacements (summary result) = [].
Proof.
  intros Hclean Hon Hdict Hkeep.
  destruct (clean_spelled U md5 self raw_text result dictionary Hclean Hon Hdict)
    as (normalized & Hnorm & Hok & Htext).
  destruct (clean_counter self raw_text result dictionary Hclean Hon Hdict)
    as (normalized' & counter & Hnorm' & Hcounter & Htop).
  rewrite Hnorm in Hnorm'. injection Hnorm' as <-.
  assert (Hall : Forall (fun m => correct_token U dictionary
                           (max_suggestion_distance (config self)) m.2 = m.2)
                   (WORD_RE_finditer normalized)).
  { eapply Forall_impl; [apply (finditer_from_tokens normalized normalized [] 0%nat 0%nat);
                           done|].
    intros m [Htoken _]. by apply Hkeep. }
  rewrite spelled_unchanged in Htext by done.
  change (Z.of_nat 0) with 0 in Htext. rewrite py_slice_from_0 in Htext.
  rewrite spell_loop_counter_kept in Hcounter by done.
  rewrite Htext, Htop, Hcounter. by split.
Qed.

Lemma clean_unchanged self raw_text result :
  clean U md5 self raw_text = Ok result ->
  (cleaned_text result = raw_text <-> edits result = [])
  /\ (changed result = false <-> cleaned_text result = raw_text)
  /\ (edit_count (summary result) = 0%nat <-> edits result = []).
Proof.
  intros (normalized & counter & _ & _ & Hbuild & _ & _ & Hchanged & Hcount & _)%clean_inv.
  split; [|split].
  - split.
    + intros Heq. rewrite Heq, build_edits_same in Hbuild. by injection Hbuild.
    + intros Heq. rewrite Heq in Hbuild.
      apply build_edits_replay, apply_edits_inv in Hbuild as [_ ->].
      simpl. apply py_slice_from_0.
  - rewrite Hchanged, bool_decide_eq_false. split; [|by intros <- []].
    intros Hnn. destruct (decide (cleaned_text result = raw_text)) as [|Hne]; [done|].
    exfalso. apply Hnn. intros Heq. by apply Hne.
  - rewrite Hcount. apply length_zero_iff_nil.
Qed.

End clean_more_facts.

(** X8: in every result of [clean], [changed] is false exactly when the
    cleaned text is the raw text, exactly when the edit list is empty, and
    exactly when the edit count is zero; the two fingerprints then agree. *)
Theorem clean_changed_iff_edits (U : unicode_data) (md5 : list N -> str)
    (self : TextCleaner) (raw_text : str) (result : CleaningResult) :
  clean U md5 self raw_text = Ok result ->
  (changed result = false <-> cleaned_text result = raw_text)
  /\ (changed result = false <-> edits result = [])
  /\ (changed result = false <-> edit_count (summary result) = 0%nat)
  /\ (changed result = false -> output_md5 result = input_md5 result).
Proof.
  intros Hclean.
  destruct (clean_unchanged U md5 self raw_text result Hclean)
    as (Hedits & Hchanged & Hcount).
  apply clean_inv in Hclean
    as (normalized & counter & _ & _ & _ & Hin & Hout & _).
  split; [done|]. split; [by rewrite Hchanged|]. split; [by rewrite Hchanged, Hcount|].
  intros Heq%Hchanged. rewrite Heq, Hin in Hout. by injection Hout.
Qed.

Lemma clean_changed_iff_edits_witness :
  exists result,
    clean excerpt (fun text => text) (plain_cleaner (lit "ascii")) (lit "plain") = Ok result
    /\ (changed result = false <-> edits result = []).
Proof.
  eexists. split; [vm_compute; reflexivity|].
  refine (proj1 (proj2 (clean_changed_iff_edits excerpt (fun text => text)
                          (plain_cleaner (lit "ascii")) (lit "plain") _ _))).
  vm_compute; reflexivity.
Defined.

(** X9: when the spell corrector is off, or has no dictionary, or the
    maximum distance is negative, or the dictionary accepts every word (or
    has no suggestion for it), the cleaned text is what [normalize_charset]
    returns and there is no top replacement; when the raw text is
    normalized already, nothing changes and there is no edit. *)
Theorem clean_only_normalizes (U : unicode_data) (md5 : list N -> str)
    (self : TextCleaner) (raw_text : str) (result : CleaningResult) :
  clean U md5 self raw_text = Ok result ->
  match spellcheck (config self), _dictionary self with
  | true, Some dictionary =>
      max_suggestion_distance (config self) < 0
      \/ forall token, word_token token ->
           check dictionary token = true \/ suggest dictionary token = []
  | _, _ => True
  end ->
  normalize_charset U raw_text (target_charset (config self))
  = Ok (cleaned_text result)
  /\ top_replacements (summary result) = []
  /\ (normalize_charset U raw_text (target_charset (config self)) = Ok raw_text ->
        changed result = false /\ edits result = []).
Proof.
  intros Hclean Hcase.
  assert (Hplain : normalize_charset U raw_text (target_charset (config self))
                   = Ok (cleaned_text result)
                   /\ top_replacements (summary result) = []).
  { destruct (spellcheck (config self)) eqn:Hon;
      [|by apply (clean_plain U md5 self raw_text result Hclean); left].
    destruct (_dictionary self) as [dictionary|] eqn:Hdict;
      [|by apply (clean_plain U md5 self raw_text result Hclean); right].
    apply (clean_kept U md5 self raw_text result dictionary); [done..|].
    intros token Htoken. apply correct_token_kept.
    destruct Hcase as [Hneg|Hacc]; [by left|right; by apply Hacc]. }
  destruct Hplain as [Hnorm Htop]. split; [done|]. split; [done|].
  rewrite Hnorm. intros [= Heq].
  destruct (clean_unchanged U md5 self raw_text result Hclean)
    as (Hedits & Hchanged & _).
  split; [by apply Hchanged|by apply Hedits].
Qed.

Lemma clean_only_normalizes_witness :
  exists result,
    clean excerpt (fun text => text) (example_cleaner (-1)) (lit "the pakge") = Ok result
    /\ normalize_charset excerpt (lit "the pakge") (lit "utf-8") = Ok (cleaned_text result).
Proof.
  eexists. split; [vm_compute; reflexivity|].
  refine (proj1 (clean_only_normalizes excerpt (fun text => text) (example_cleaner (-1))
                   (lit "the pakge") _ _ _)).
  - vm_compute; reflexivity.
  - left. simpl. lia.
Defined.

(** X10: with the spell corrector on, the top replacements are at most
    eight, by descending count, with distinct (from, to) pairs; each entry
    is a word of the normalized text, what the corrector replaces it by (a
    different word), and the number of matches of that word; when fewer
    than eight are listed, every replaced word is listed. *)
Theorem clean_top_replacements (U : unicode_data) (md5 : list N -> str)
    (self : TextCleaner) (raw_text : str) (result : CleaningResult)
    (dictionary : Dictionary) :
  clean U md5 self raw_text = Ok result ->
  spellcheck (config self) = true ->
  _dictionary self = Some dictionary ->
  let top := top_replacements (summary result) in
  let correct := correct_token U dictionary (max_suggestion_distance (config self)) in
  exists normalized,
    normalize_charset U raw_text (target_charset (config self)) = Ok normalized
    /\ (length top <= 8)%nat
    /\ StronglySorted (fun y z : str * str * nat => (z.2 <= y.2)%nat) top
    /\ NoDup (map fst top)
    /\ (forall token rep n,
          (token, rep, n) ∈ top ->
          word_token token /\ rep = correct token /\ rep <> token
          /\ n = occurrences token (WORD_RE_finditer normalized) /\ (1 <= n)%nat)
    /\ ((length top < 8)%nat ->
        forall m, m ∈ WORD_RE_finditer normalized -> correct m.2 <> m.2 ->
          exists n, (m.2, correct m.2, n) ∈ top).
Proof.
  intros Hclean Hon Hdict top correct.
  destruct (clean_counter U md5 self raw_text result dictionary Hclean Hon Hdict)
    as (normalized & counter & Hnorm & Hcounter & Htop).
  exists normalized. split; [done|].
  assert (Hok : counter_ok counter).
  { rewrite Hcounter. apply spell_loop_counter_ok. split; [constructor|constructor]. }
  assert (Hcounts : counter_counts U dictionary (max_suggestion_distance (config self))
                      (WORD_RE_finditer normalized) counter).
  { rewrite Hcounter.
    apply (spell_loop_counter_counts U dictionary _ normalized _ [] [] 0%nat []).
    intros token rep. simpl. by case_decide. }
  destruct Hok as [Hdup Hall].
  destruct (most_common_spec 8 counter) as (Hlen & Hsorted & Hsub & Hperm & Hnodup).
  unfold top. rewrite Htop.
  split; [lia|]. split; [done|]. split; [by apply Hnodup|]. split.
  - intros token rep n Hin. apply (elem_of_submseteq _ counter) in Hin; [|done].
    pose proof (counter_get_elem (token, rep) n counter Hdup Hin) as Hget.
    rewrite Forall_forall in Hall. destruct (Hall _ Hin) as [_ Hn]. simpl in Hn.
    rewrite Hcounts in Hget. case_decide as Hcase; [|lia].
    destruct Hcase as [Hrep Hne]. subst n.
    destruct (occurrences_elem token (WORD_RE_finditer normalized) Hn) as (m & Hm & <-).
    pose proof (finditer_from_tokens normalized normalized [] 0%nat 0%nat eq_refl eq_refl)
      as Htokens.
    rewrite Forall_forall in Htokens. destruct (Htokens m Hm) as [Htoken _].
    by repeat split.
  - intros Hshort m Hm Hrep.
    assert (Hin : (m.2, correct m.2) ∈ map fst counter).
    { destruct (decide ((m.2, correct m.2) ∈ map fst counter)) as [|Hnin]; [done|].
      apply counter_get_absent in Hnin. rewrite Hcounts in Hnin.
      rewrite decide_True in Hnin by done.
      pose proof (occurrences_pos m.2 (WORD_RE_finditer normalized) m Hm eq_refl). lia. }
    apply list_elem_of_fmap in Hin as ([key n] & Hkey & Hin). simpl in Hkey. subst key.
    exists n. rewrite Hperm; [done|]. lia.
Qed.

Lemma clean_top_replacements_witness :
  exists result,
    clean excerpt (fun text => text) (example_cleaner 2) (lit "pakge the pakge")
    = Ok result
    /\ NoDup (map fst (top_replacements (summary result))).
Proof.
  eexists. split; [vm_compute; reflexivity|].
  destruct (clean_top_replacements excerpt (fun text => text) (example_cleaner 2)
              (lit "pakge the pakge") _ example_dictionary
              ltac:(vm_compute; reflexivity) eq_refl eq_refl)
    as (normalized & _ & _ & _ & Hdup & _).
  exact Hdup.
Defined.

(** X11: every match of [WORD_RE.finditer] is a letter followed by one or
    more letters or apostrophes, and is not followed by a letter or an
    apostrophe; and every letter of the text that is followed by a letter or
    an apostrophe lies inside a match. *)
Theorem WORD_RE_finditer_complete (s : str) :
  Forall (match_ok s) (WORD_RE_finditer s)
  /\ forall i, word_start s i ->
       exists m, m ∈ WORD_RE_finditer s /\ (m.1.1 <= i < m.1.2)%nat.
Proof.
  split.
  - by apply (finditer_from_tokens s s [] 0%nat 0%nat).
  - intros i Hi. apply (finditer_from_covers s 0%nat 0%nat i); [lia|done].
Qed.

Lemma WORD_RE_finditer_complete_witness :
  exists m, m ∈ WORD_RE_finditer (lit "a it's") /\ (m.1.1 <= 3 < m.1.2)%nat.
Proof.
  apply (proj2 (WORD_RE_finditer_complete (lit "a it's")) 3%nat).
  exists 116%N, 39%N. by repeat split.
Defined.

(** X12: the edges of the distance gate. With a negative maximum no token
    is replaced; with maximum 0 a replacement differs from its token in
    case only; and a rejected token with suggestions is replaced as soon
    as the maximum reaches the longer of the two lowercased lengths. *)
Theorem correct_token_gate_edges (U : unicode_data) (dictionary : Dictionary)
    (max_distance : Z) (token : str) :
  (max_distance < 0 -> correct_token U dictionary max_distance token = token)
  /\ (max_distance = 0 ->
        str_lower U (correct_token U dictionary max_distance token)
        = str_lower U token)
  /\ (forall candidate others,
        check dictionary token = false ->
        suggest dictionary token = candidate :: others ->
        let cased := _match_case U token candidate in
        Z.of_nat (Nat.max (length (str_lower U token)) (length (str_lower U cased)))
        <= max_distance ->
        correct_token U dictionary max_distance token = cased).
Proof.
  split; [|split].
  - intros Hneg. apply correct_token_kept. by left.
  - intros ->. unfold correct_token.
    destruct (check dictionary token); [done|]. simpl.
    destruct (suggest dictionary token) as [|candidate others]; [done|].
    destruct (Z.leb_spec (Z.of_nat (_edit_distance (str_lower U token)
                (str_lower U (_match_case U token candidate)))) 0) as [Hle|]; [|done].
    rewrite _edit_distance_lev in Hle. symmetry. apply lev_zero. lia.
  - intros candidate others Hcheck Hsuggest cased Hmax. unfold correct_token.
    rewrite Hcheck, Hsuggest. simpl. fold cased.
    pose proof (lev_le_max (str_lower U token) (str_lower U cased)) as Hle.
    rewrite <- _edit_distance_lev in Hle.
    by destruct (Z.leb_spec (Z.of_nat (_edit_distance (str_lower U token)
                   (str_lower U cased))) max_distance); [|lia].
Qed.

Lemma correct_token_gate_edges_witness :
  correct_token excerpt example_dictionary (-1) (lit "pakge") = lit "pakge".
Proof.
  apply (proj1 (correct_token_gate_edges excerpt example_dictionary (-1) (lit "pakge"))).
  lia.
Defined.

(** X13: [clean] raises the unsupported-charset [ValueError] for every
    unrecognized target charset, whatever the text, and nothing else but the
    [UnicodeEncodeError] of a fingerprint: the codecs of the normalizer, the
    spell corrector and the differencer never raise. *)
Theorem clean_failure (U : unicode_data) (md5 : list N -> str)
    (self : TextCleaner) (raw_text : str) :
  (~ recognized (target_charset (config self)) ->
     clean U md5 self raw_text
     = Raise (UnsupportedCharsetError (target_charset (config self))))
  /\ (forall e,
        clean U md5 self raw_text = Raise e ->
        (~ recognized (target_charset (config self))
         /\ e = UnsupportedCharsetError (target_charset (config self)))
        \/ (recognized (target_charset (config self)) /\ e = UnicodeEncodeError)).
Proof.
  assert (Hun : ~ recognized (target_charset (config self)) ->
                clean U md5 self raw_text
                = Raise (UnsupportedCharsetError (target_charset (config self)))).
  { intros Hrec. unfold clean. by rewrite normalize_charset_unrecognized by done. }
  split; [done|]. intros e Hraise.
  destruct (decide (recognized (target_charset (config self)))) as [Hrec|Hrec].
  - right. split; [done|].
    destruct (clean_returns U md5 self raw_text Hrec) as (normalized & _ & Hok & Hno).
    destruct (encode_utf8_spec raw_text) as [[Hraw _]|[Hraw _]];
      [|rewrite Hno in Hraise by tauto; by injection Hraise].
    destruct (encode_utf8_spec (spell_corrected U self normalized))
      as [[Hcleaned _]|[Hcleaned _]];
      [|rewrite Hno in Hraise by tauto; by injection Hraise].
    destruct (Hok Hraw Hcleaned) as (result & Hresult & _). congruence.
  - left. split; [done|]. rewrite (Hun Hrec) in Hraise. by injection Hraise.
Qed.

Lemma clean_failure_witness :
  clean excerpt (fun text => text) (plain_cleaner (lit "utf-16")) (lit "abc")
  = Raise (UnsupportedCharsetError (lit "utf-16")).
Proof.
  apply (proj1 (clean_failure excerpt (fun text => text) (plain_cleaner (lit "utf-16"))
                  (lit "abc"))).
  intros [H|[H|H]]; discriminate H.
Defined.

(** X14: a cleaner that [__init__] returns holds the configuration it was
    given, and a dictionary exactly when the spell corrector is on; with
    the spell corrector off [__init__] always returns, and with it on and no
    [enchant] module it raises a [RuntimeError]. *)
Theorem TextCleaner_init_dictionary (enchant : option (str -> outcome Dictionary))
    (cfg : CleanerConfig) :
  (forall self,
     TextCleaner_init enchant cfg = Ok self ->
     config self = cfg
     /\ (is_Some (_dictionary self) <-> spellcheck cfg = true)
     /\ (forall Dict dictionary,
           enchant = Some Dict -> _dictionary self = Some dictionary ->
           Dict (language cfg) = Ok dictionary))
  /\ (spellcheck cfg = false -> exists self, TextCleaner_init enchant cfg = Ok self)
  /\ (spellcheck cfg = true -> enchant = None ->
        exists msg, TextCleaner_init enchant cfg = Raise (RuntimeError msg)).
Proof.
  unfold TextCleaner_init. split; [|split].
  - intros self. destruct (spellcheck cfg).
    + destruct enchant as [Dict|]; [|done].
      destruct (Dict (language cfg)) as [dictionary|] eqn:HDict; [|done].
      simpl. intros [= <-]. simpl. split; [done|]. split; [by split|].
      intros Dict' dictionary' [= <-] [= <-]. done.
    + intros [= <-]. simpl. split; [done|]. split; [|done].
      split; [by intros [? ?]|done].
  - intros ->. by eexists.
  - intros -> ->. by eexists.
Qed.

Lemma TextCleaner_init_dictionary_witness :
  exists self,
    TextCleaner_init None (config (plain_cleaner (lit "utf-8"))) = Ok self.
Proof.
  apply (proj1 (proj2 (TextCleaner_init_dictionary None
                         (config (plain_cleaner (lit "utf-8")))))).
  reflexivity.
Defined.

(** ** The CSV commands *)

Section csv_facts.
Context (U : unicode_data) (md5 : list N -> str).

(** What the loop of [_clean_csv] returns: the items and the rows of the
    results of [clean] on the texts of the rows, in order. *)
Lemma clean_rows_inv args cleaner rows :
  forall row_index items0 rows0 items' rows',
    clean_rows U md5 args cleaner rows row_index items0 rows0 = Done (items', rows') ->
    exists results,
      Forall2 (fun row result =>
                 clean U md5 cleaner (row_text row (text_column args)) = Ok result)
        rows results
      /\ items' = items0 ++ items_from row_index results
      /\ rows' = rows0 ++ zip_with (fun row result =>
                                      row_set row (cleaned_column args)
                                        (cleaned_text result)) rows results.
Proof.
  induction rows as [|row rows IH]; intros row_index items0 rows0 items' rows' Hrun;
    cbn [clean_rows] in Hrun.
  - injection Hrun as <- <-. exists []. by rewrite !app_nil_r.
  - destruct (clean U md5 cleaner (row_text row (text_column args)))
      as [result|e] eqn:Hclean; [|done].
    simpl in Hrun. apply IH in Hrun as (results & Hall & -> & ->).
    exists (result :: results). split; [by constructor|].
    simpl. by rewrite <- !app_assoc.
Qed.

Lemma clean_rows_results args cleaner rows results :
  Forall2 (fun row result =>
             clean U md5 cleaner (row_text row (text_column args)) = Ok result)
    rows results ->
  forall row_index items0 rows0,
    clean_rows U md5 args cleaner rows row_index items0 rows0
    = Done (items0 ++ items_from row_index results,
            rows0 ++ zip_with (fun row result =>
                                 row_set row (cleaned_column args)
                                   (cleaned_text result)) rows results).
Proof.
  induction 1 as [|row result rows results Hclean _ IH]; intros row_index items0 rows0;
    cbn [clean_rows].
  - by rewrite !app_nil_r.
  - rewrite Hclean. simpl. rewrite IH. by rewrite <- !app_assoc.
Qed.

(** The dictionary [reproduce] makes of the items of [_clean_csv]. *)
Lemma by_row_loop_items results :
  forall row_index by_row,
    exists by_row',
      by_row_loop (items_from row_index results) by_row = Done by_row'
      /\ (forall k result,
            results !! k = Some result ->
            by_row' !! (row_index + Z.of_nat k)
            = Some (changelog_item (row_index + Z.of_nat k) result))
      /\ (forall z, z < row_index -> by_row' !! z = by_row !! z).
Proof.
  induction results as [|result results IH]; intros row_index by_row; simpl.
  - exists by_row. by repeat split.
  - destruct (IH (row_index + 1) (<[row_index := changelog_item row_index result]> by_row))
      as (by_row' & -> & Hin & Hout).
    exists by_row'. split; [done|]. split.
    + intros [|k] result' Hk.
      * injection Hk as <-. rewrite Z.add_0_r, Hout by lia. apply lookup_insert_eq.
      * replace (row_index + Z.of_nat (S k)) with (row_index + 1 + Z.of_nat k) by lia.
        by apply Hin.
    + intros z Hz. rewrite Hout by lia. apply lookup_insert_ne. lia.
Qed.

Lemma expected_loop_items results :
  forall row_index expected,
    exists expected',
      expected_loop (items_from row_index results) expected = Done expected'
      /\ (forall k result,
            results !! k = Some result ->
            expected' !! (row_index + Z.of_nat k) = Some (input_md5 result))
      /\ (forall z, z < row_index -> expected' !! z = expected !! z).
Proof.
  induction results as [|result results IH]; intros row_index expected; simpl.
  - exists expected. by repeat split.
  - destruct (IH (row_index + 1) (<[row_index := input_md5 result]> expected))
      as (expected' & -> & Hin & Hout).
    exists expected'. split; [done|]. split.
    + intros [|k] result' Hk.
      * injection Hk as <-. rewrite Z.add_0_r, Hout by lia. apply lookup_insert_eq.
      * replace (row_index + Z.of_nat (S k)) with (row_index + 1 + Z.of_nat k) by lia.
        by apply Hin.
    + intros z Hz. rewrite Hout by lia. apply lookup_insert_ne. lia.
Qed.

(** Replaying the recorded edits of a row gives the text [clean] gave. *)
Lemma reproduce_text_item args cleaner raw_text result row_index :
  clean U md5 cleaner raw_text = Ok result ->
  reproduce_text md5 args (Some (changelog_item row_index result)) row_index raw_text
  = Done (cleaned_text result).
Proof.
  intros Hclean.
  pose proof (clean_inv U md5 cleaner raw_text result Hclean)
    as (normalized & counter & _ & _ & Hbuild & Hin & _).
  apply build_edits_replay in Hbuild.
  unfold reproduce_text. rewrite Hin. simpl.
  destruct (strict_md5 args); simpl.
  - rewrite decide_False by (by intros []). simpl. by rewrite Hbuild.
  - by rewrite Hbuild.
Qed.

Lemma reproduce_rows_results args args' cleaner by_row rows results :
  text_column args' = text_column args ->
  cleaned_column args' = cleaned_column args ->
  Forall2 (fun row result =>
             clean U md5 cleaner (row_text row (text_column args)) = Ok result)
    rows results ->
  forall row_index rows0,
    (forall k result,
       results !! k = Some result ->
       by_row !! (row_index + Z.of_nat k)
       = Some (changelog_item (row_index + Z.of_nat k) result)) ->
    reproduce_rows md5 args' by_row rows row_index rows0
    = Done (rows0 ++ zip_with (fun row result =>
                                 row_set row (cleaned_column args)
                                   (cleaned_text result)) rows results).
Proof.
  intros Htext Hcleaned.
  induction 1 as [|row result rows results Hclean _ IH]; intros row_index rows0 Hitems;
    cbn [reproduce_rows].
  - by rewrite app_nil_r.
  - pose proof (Hitems 0%nat result eq_refl) as Hitem. rewrite Z.add_0_r in Hitem.
    rewrite Hitem, Htext, Hcleaned.
    rewrite (reproduce_text_item args' cleaner _ result row_index Hclean). simpl.
    rewrite IH; [by rewrite <- app_assoc|].
    intros k result' Hk.
    replace (row_index + 1 + Z.of_nat k) with (row_index + Z.of_nat (S k)) by lia.
    by apply Hitems.
Qed.

Lemma validate_rows_results args args' cleaner expected rows results :
  text_column args' = text_column args ->
  Forall2 (fun row result =>
             clean U md5 cleaner (row_text row (text_column args)) = Ok result)
    rows results ->
  forall row_index mismatches lines,
    (forall k result,
       results !! k = Some result ->
       expected !! (row_index + Z.of_nat k) = Some (input_md5 result)) ->
    validate_rows md5 args' expected rows row_index mismatches lines
    = Done (mismatches, lines).
Proof.
  intros Htext.
  induction 1 as [|row result rows results Hclean _ IH];
    intros row_index mismatches lines Hitems; cbn [validate_rows]; [done|].
  pose proof (Hitems 0%nat result eq_refl) as Hitem. rewrite Z.add_0_r in Hitem.
  rewrite Hitem, Htext.
  pose proof (clean_inv U md5 cleaner _ result Hclean)
    as (normalized & counter & _ & _ & _ & Hin & _).
  rewrite Hin. simpl. rewrite decide_False by (by intros []).
  apply IH. intros k result' Hk.
  replace (row_index + 1 + Z.of_nat k) with (row_index + Z.of_nat (S k)) by lia.
  by apply Hitems.
Qed.

Lemma clean_csv_inv args cleaner rows fieldnames cleaned :
  _clean_csv U md5 args cleaner rows fieldnames = Done cleaned ->
  text_column args ∈ fieldnames
  /\ cleaned_column args ∉ fieldnames
  /\ exists results,
       Forall2 (fun row result =>
                  clean U md5 cleaner (row_text row (text_column args)) = Ok result)
         rows results
       /\ cleaned_items cleaned = items_from 1 results
       /\ cleaned_total cleaned = length results
       /\ output_fieldnames (cleaned_write cleaned) = fieldnames ++ [cleaned_column args]
       /\ output_rows (cleaned_write cleaned)
          = zip_with (fun row result =>
                        row_set row (cleaned_column args) (cleaned_text result))
              rows results.
Proof.
  unfold _clean_csv, check_text_column, check_cleaned_column. intros Hrun.
  destruct (decide (text_column args ∉ fieldnames)) as [|Htext]; [done|].
  destruct (decide (cleaned_column args ∈ fieldnames)) as [|Hcleaned]; [done|].
  simpl in Hrun.
  destruct (clean_rows U md5 args cleaner rows 1 [] []) as [[items' rows']|] eqn:Hrows;
    [|done].
  simpl in Hrun. injection Hrun as <-.
  apply clean_rows_inv in Hrows as (results & Hall & -> & ->).
  split; [by apply dec_stable|]. split; [done|].
  exists results. simpl. repeat split; try done.
  clear Hall. generalize 1. induction results as [|r rs IH]; intros i; simpl; [done|].
  by rewrite IH.
Qed.

End csv_facts.

Section csv_commands.
Context (md5 : list N -> str).

Lemma rows_match_cons args expected row rows row_index :
  rows_match md5 args expected (row :: rows) row_index
  <-> (forall recorded,
         expected !! row_index = Some recorded ->
         md5_text md5 (row_text row (text_column args)) = Ok recorded)
      /\ rows_match md5 args expected rows (row_index + 1).
Proof.
  unfold rows_match. split.
  - intros Hall. split.
    + intros recorded Hrec. apply (Hall 0%nat row recorded eq_refl).
      by rewrite Z.add_0_r.
    + intros k row' recorded Hk Hrec. apply (Hall (S k) row' recorded Hk).
      by replace (row_index + Z.of_nat (S k)) with (row_index + 1 + Z.of_nat k) by lia.
  - intros [Hrow Hrest] [|k] row' recorded Hk Hrec.
    + injection Hk as <-. rewrite Z.add_0_r in Hrec. by apply Hrow.
    + apply (Hrest k row' recorded Hk).
      by replace (row_index + 1 + Z.of_nat k) with (row_index + Z.of_nat (S k)) by lia.
Qed.

(** What the loop of [_validate_csv] counts. *)
Lemma validate_rows_inv args expected rows :
  forall row_index mismatches lines mismatches' lines',
    validate_rows md5 args expected rows row_index mismatches lines
    = Done (mismatches', lines') ->
    (mismatches <= mismatches')%nat
    /\ length lines' = (length lines + (mismatches' - mismatches))%nat
    /\ (mismatches' = mismatches -> lines' = lines)
    /\ (mismatches' = mismatches <-> rows_match md5 args expected rows row_index).
Proof.
  induction rows as [|row rows IH];
    intros row_index mismatches lines mismatches' lines' Hrun; cbn [validate_rows] in Hrun.
  - injection Hrun as <- <-. split; [lia|]. split; [lia|]. split; [done|].
    split; [|done]. intros _ k row recorded Hk. by rewrite lookup_nil in Hk.
  - destruct (expected !! row_index) as [recorded|] eqn:Hexp.
    + destruct (md5_text md5 (row_text row (text_column args))) as [digest|] eqn:Hdigest;
        [|done].
      simpl in Hrun. destruct (decide (digest <> recorded)) as [Hne|Heq].
      * apply IH in Hrun as (Hle & Hlen & Hsame & Hok).
        rewrite length_app in Hlen. simpl in Hlen.
        split; [lia|]. split; [lia|]. split; [lia|]. split; [lia|].
        intros [Hrow _]%rows_match_cons. specialize (Hrow recorded Hexp). congruence.
      * apply dec_stable in Heq. subst digest.
        apply IH in Hrun as (Hle & Hlen & Hsame & Hok).
        split; [done|]. split; [done|]. split; [done|].
        rewrite rows_match_cons, Hok. split; [|tauto].
        intros Hrest. split; [|done]. intros recorded' Hrec. congruence.
    + apply IH in Hrun as (Hle & Hlen & Hsame & Hok).
      split; [done|]. split; [done|]. split; [done|].
      rewrite rows_match_cons, Hok. split; [|tauto].
      intros Hrest. split; [|done]. intros recorded' Hrec. congruence.
Qed.

(** What the loop of [_reproduce_csv] writes. *)
Lemma reproduce_rows_inv args by_row rows :
  forall row_index rows0 rows',
    reproduce_rows md5 args by_row rows row_index rows0 = Done rows' ->
    exists texts,
      rows' = rows0 ++ zip_with (fun row text => row_set row (cleaned_column args) text)
                         rows texts
      /\ length texts = length rows
      /\ forall k row text,
           rows !! k = Some row -> texts !! k = Some text ->
           reproduce_text md5 args (by_row !! (row_index + Z.of_nat k))
             (row_index + Z.of_nat k) (row_text row (text_column args))
           = Done text.
Proof.
  induction rows as [|row rows IH]; intros row_index rows0 rows' Hrun;
    cbn [reproduce_rows] in Hrun.
  - injection Hrun as <-. exists []. by rewrite app_nil_r.
  - destruct (reproduce_text md5 args (by_row !! row_index) row_index
                (row_text row (text_column args))) as [text|] eqn:Htext; [|done].
    simpl in Hrun. apply IH in Hrun as (texts & -> & Hlen & Hrows).
    exists (text :: texts). split; [simpl; by rewrite <- app_assoc|].
    split; [simpl; lia|]. intros [|k] row' text' Hk Ht.
    + injection Hk as <-. injection Ht as <-. by rewrite Z.add_0_r.
    + replace (row_index + Z.of_nat (S k)) with (row_index + 1 + Z.of_nat k) by lia.
      by apply Hrows.
Qed.

Lemma reproduce_text_inv args item row_index raw_text text :
  reproduce_text md5 args item row_index raw_text = Done text ->
  match item with
  | None => text = raw_text
  | Some item =>
      apply_edits raw_text (default [] (Item.edits item)) = Ok text
      /\ (strict_md5 args = true ->
          exists digest,
            md5_text md5 raw_text = Ok digest /\ Item.input_md5 item = Some digest)
  end.
Proof.
  unfold reproduce_text. destruct item as [item|]; [|by intros [= <-]].
  destruct (md5_text md5 raw_text) as [digest|]; [|done]. simpl.
  destruct (strict_md5 args).
  - destruct (Item.input_md5 item) as [recorded|]; [|done]. simpl.
    destruct (decide (digest <> recorded)) as [|Heq]; [done|]. simpl.
    apply dec_stable in Heq. subst recorded.
    destruct (apply_edits raw_text _) as [out|]; [|done].
    intros [= <-]. split; [done|]. intros _. by exists digest.
  - simpl. destruct (apply_edits raw_text _) as [out|]; [|done].
    intros [= <-]. by split.
Qed.

End csv_commands.

(** X15: what [_clean_csv] leaves when it returns. The text column is in
    the header and the cleaned column is not; the header written is the
    header read followed by the cleaned column; there is one item and one
    written row for each row read, in order: row number [k] (from 1) gives
    the item of the result of [clean] on its text, with [row_index = k] and
    [item_id = "row:k"], and the row itself with the cleaned text under the
    cleaned column. *)
Theorem clean_csv_rows (U : unicode_data) (md5 : list N -> str) (args : Args)
    (cleaner : TextCleaner) (rows : list Row) (fieldnames : list str)
    (cleaned : Cleaned) :
  _clean_csv U md5 args cleaner rows fieldnames = Done cleaned ->
  text_column args ∈ fieldnames
  /\ cleaned_column args ∉ fieldnames
  /\ output_fieldnames (cleaned_write cleaned) = fieldnames ++ [cleaned_column args]
  /\ cleaned_total cleaned = length rows
  /\ length (cleaned_items cleaned) = length rows
  /\ length (output_rows (cleaned_write cleaned)) = length rows
  /\ forall k row,
       rows !! k = Some row ->
       exists result,
         clean U md5 cleaner (row_text row (text_column args)) = Ok result
         /\ cleaned_items cleaned !! k
            = Some (changelog_item (1 + Z.of_nat k) result)
         /\ Item.item_id (changelog_item (1 + Z.of_nat k) result)
            = lit "row:" ++ str_of_int (1 + Z.of_nat k)
         /\ output_rows (cleaned_write cleaned) !! k
            = Some (row_set row (cleaned_column args) (cleaned_text result)).
Proof.
  intros (Htext & Hcleaned & results & Hall & Hitems & Htotal & Hnames & Hrows)%clean_csv_inv.
  pose proof (Forall2_length _ _ _ Hall) as Hlen.
  assert (Hfrom : forall results i k result,
            results !! k = Some result ->
            items_from i results !! k = Some (changelog_item (i + Z.of_nat k) result)).
  { clear. induction results as [|r rs IH]; intros i [|k] result Hk; simpl in *; [done..| |].
    - injection Hk as <-. by rewrite Z.add_0_r.
    - rewrite (IH (i + 1) k result Hk). do 2 f_equal. lia. }
  assert (Hilen : forall results i, length (items_from i results) = length results).
  { clear. induction results as [|r rs IH]; intros i; simpl; [done|]. by rewrite IH. }
  split; [done|]. split; [done|]. split; [done|]. split; [lia|].
  split; [rewrite Hitems, Hilen; lia|].
  split; [rewrite Hrows, length_zip_with; lia|].
  intros k row Hk.
  destruct (Forall2_lookup_l _ _ _ _ _ Hall Hk) as (result & Hresult & Hclean).
  exists result. split; [done|]. split; [rewrite Hitems; by apply Hfrom|].
  split; [done|]. rewrite Hrows, lookup_zip_with, Hk. simpl. by rewrite Hresult.
Qed.

Lemma clean_csv_rows_witness :
  exists cleaned,
    _clean_csv excerpt (fun data => data) (example_args true) (example_cleaner 2)
      example_rows [lit "text"] = Done cleaned
    /\ cleaned_total cleaned = 2%nat.
Proof.
  eexists. split; [vm_compute; reflexivity|].
  refine (proj1 (proj2 (proj2 (proj2 (clean_csv_rows excerpt (fun data => data)
            (example_args true) (example_cleaner 2) example_rows [lit "text"] _ _))))).
  vm_compute; reflexivity.
Defined.

(** X16: [reproduce] after [clean]. From the rows and header it cleaned
    and the items it recorded, [_reproduce_csv] writes the rows and the
    header that [_clean_csv] wrote, with or without the strict fingerprint
    check, and returns 0. *)
Theorem reproduce_after_clean (U : unicode_data) (md5 : list N -> str)
    (args args' : Args) (cleaner : TextCleaner) (rows : list Row)
    (fieldnames : list str) (cleaned : Cleaned) :
  _clean_csv U md5 args cleaner rows fieldnames = Done cleaned ->
  text_column args' = text_column args ->
  cleaned_column args' = cleaned_column args ->
  _reproduce_csv md5 args' rows fieldnames {| items := Some (cleaned_items cleaned) |}
  = Done {| written := Some (cleaned_write cleaned);
            printed := [lit "Reproduced CSV rows: "
                        ++ str_of_int (Z.of_nat (length rows))];
            code := 0 |}.
Proof.
  intros (Htext & Hcleaned & results & Hall & Hitems & Htotal & Hnames & Hrows)%clean_csv_inv
    Htext' Hcleaned'.
  unfold _reproduce_csv, check_text_column, check_cleaned_column.
  rewrite Htext', Hcleaned'.
  rewrite (decide_False (P := text_column args ∉ fieldnames))
    by (intros Hn; exact (Hn Htext)).
  rewrite (decide_False (P := cleaned_column args ∈ fieldnames)) by done. simpl.
  rewrite Hitems.
  destruct (by_row_loop_items results 1 ∅) as (by_row & -> & Hin & _). simpl.
  rewrite (reproduce_rows_results U md5 args args' cleaner by_row rows results
             Htext' Hcleaned' Hall 1 [] Hin). simpl.
  assert (Hlen : length (output_rows (cleaned_write cleaned)) = length rows).
  { rewrite Hrows, length_zip_with. pose proof (Forall2_length _ _ _ Hall). lia. }
  rewrite <- Hrows, Hlen, <- Hnames. by destruct cleaned as [[? ?] ? ?].
Qed.

Lemma reproduce_after_clean_witness :
  exists cleaned,
    _clean_csv excerpt (fun data => data) (example_args true) (example_cleaner 2)
      example_rows [lit "text"] = Done cleaned
    /\ _reproduce_csv (fun data => data) (example_args false) example_rows [lit "text"]
         {| items := Some (cleaned_items cleaned) |}
       = Done {| written := Some (cleaned_write cleaned);
                 printed := [lit "Reproduced CSV rows: 2"];
                 code := 0 |}.
Proof.
  eexists. split; [vm_compute; reflexivity|].
  refine (reproduce_after_clean excerpt (fun data => data) (example_args true)
            (example_args false) (example_cleaner 2) example_rows [lit "text"] _ _ _ _).
  - vm_compute; reflexivity.
  - reflexivity.
  - reflexivity.
Defined.

(** X17: [validate] after [clean]. On the rows it cleaned and the items it
    recorded, [_validate_csv] finds no mismatch: it prints
    "Validation passed." only and returns 0. *)
Theorem validate_after_clean (U : unicode_data) (md5 : list N -> str)
    (args args' : Args) (cleaner : TextCleaner) (rows : list Row)
    (fieldnames : list str) (cleaned : Cleaned) :
  _clean_csv U md5 args cleaner rows fieldnames = Done cleaned ->
  text_column args' = text_column args ->
  _validate_csv md5 args' rows fieldnames {| items := Some (cleaned_items cleaned) |}
  = Done {| written := None; printed := [lit "Validation passed."]; code := 0 |}.
Proof.
  intros (Htext & Hcleaned & results & Hall & Hitems & _)%clean_csv_inv Htext'.
  unfold _validate_csv, check_text_column. rewrite Htext'.
  rewrite (decide_False (P := text_column args ∉ fieldnames))
    by (intros Hn; exact (Hn Htext)).
  simpl. rewrite Hitems.
  destruct (expected_loop_items results 1 ∅) as (expected & -> & Hin & _). simpl.
  by rewrite (validate_rows_results U md5 args args' cleaner expected rows results
                Htext' Hall 1 0%nat [] Hin).
Qed.

Lemma validate_after_clean_witness :
  exists cleaned,
    _clean_csv excerpt (fun data => data) (example_args true) (example_cleaner 2)
      example_rows [lit "text"] = Done cleaned
    /\ _validate_csv (fun data => data) (example_args true) example_rows [lit "text"]
         {| items := Some (cleaned_items cleaned) |}
       = Done {| written := None; printed := [lit "Validation passed."]; code := 0 |}.
Proof.
  eexists. split; [vm_compute; reflexivity|].
  refine (validate_after_clean excerpt (fun data => data) (example_args true)
            (example_args true) (example_cleaner 2) example_rows [lit "text"] _ _ _).
  - vm_compute; reflexivity.
  - reflexivity.
Defined.

(** X18: what [_validate_csv] reports when it returns. It writes nothing;
    its code is 0 or 1; the code is 0 exactly when every row that has a
    recorded fingerprint (the one of the last item with its row number) has
    a text with that fingerprint, and then the only line printed is
    "Validation passed."; otherwise it prints one line for each mismatch and
    a closing line. *)
Theorem validate_csv_code (md5 : list N -> str) (args : Args) (rows : list Row)
    (fieldnames : list str) (payload : Payload) (finished : Finished) :
  _validate_csv md5 args rows fieldnames payload = Done finished ->
  exists expected,
    expected_loop (default [] (items payload)) ∅ = Done expected
    /\ text_column args ∈ fieldnames
    /\ written finished = None
    /\ (code finished = 0 \/ code finished = 1)
    /\ (code finished = 0 <-> rows_match md5 args expected rows 1)
    /\ (code finished = 0 -> printed finished = [lit "Validation passed."])
    /\ (code finished = 1 -> (2 <= length (printed finished))%nat).
Proof.
  unfold _validate_csv, check_text_column. intros Hrun.
  destruct (decide (text_column args ∉ fieldnames)) as [|Htext]; [done|].
  simpl in Hrun.
  destruct (expected_loop _ ∅) as [expected|]; [|done]. simpl in Hrun.
  exists expected. split; [done|]. split; [by apply dec_stable|].
  destruct (validate_rows md5 args expected rows 1 0%nat [])
    as [[mismatches lines]|] eqn:Hrows; [|done].
  simpl in Hrun.
  apply validate_rows_inv in Hrows as (_ & Hlen & Hsame & Hok). simpl in Hlen.
  destruct (decide (mismatches <> 0%nat)) as [Hne|Heq]; injection Hrun as <-; simpl.
  - split; [done|]. split; [by right|]. split; [split; [done|]; intros ?%Hok; lia|].
    split; [done|]. intros _. rewrite length_app. simpl. lia.
  - apply dec_stable in Heq. split; [done|]. split; [by left|].
    split; [split; [intros _; by apply Hok|done]|].
    split; [|done]. intros _. by rewrite Hsame.
Qed.

Lemma validate_csv_code_witness :
  exists finished,
    _validate_csv (fun data => data) (example_args true) example_rows [lit "text"]
      example_payload = Done finished
    /\ (code finished = 0 \/ code finished = 1).
Proof.
  eexists. split; [vm_compute; reflexivity|].
  destruct (validate_csv_code (fun data => data) (example_args true) example_rows
              [lit "text"] example_payload _ ltac:(vm_compute; reflexivity))
    as (expected & _ & _ & _ & Hcode & _).
  exact Hcode.
Defined.

(** X19: what [_reproduce_csv] writes when it returns. It returns 0 and
    writes one row for each row read, the row itself with a text under the
    cleaned column: the text of the row as it is when no item has its row
    number, and otherwise what [apply_edits] makes of it with the edits of
    the item (none when the item has no edits); with the strict check on,
    every row that has an item has the fingerprint the item records. So
    with no item at all every row gets a copy of its text. *)
Theorem reproduce_csv_rows (md5 : list N -> str) (args : Args) (rows : list Row)
    (fieldnames : list str) (payload : Payload) (finished : Finished) :
  _reproduce_csv md5 args rows fieldnames payload = Done finished ->
  exists by_row rows',
    by_row_loop (default [] (items payload)) ∅ = Done by_row
    /\ written finished
       = Some {| output_rows := rows';
                 output_fieldnames := fieldnames ++ [cleaned_column args] |}
    /\ code finished = 0
    /\ length rows' = length rows
    /\ (forall k row,
          rows !! k = Some row ->
          exists text,
            rows' !! k = Some (row_set row (cleaned_column args) text)
            /\ match by_row !! (1 + Z.of_nat k) with
               | None => text = row_text row (text_column args)
               | Some item =>
                   apply_edits (row_text row (text_column args))
                     (default [] (Item.edits item)) = Ok text
                   /\ (strict_md5 args = true ->
                       exists digest,
                         md5_text md5 (row_text row (text_column args)) = Ok digest
                         /\ Item.input_md5 item = Some digest)
               end)
    /\ (default [] (items payload) = [] ->
        rows' = map (fun row => row_set row (cleaned_column args)
                                  (row_text row (text_column args))) rows).
Proof.
  unfold _reproduce_csv, check_text_column, check_cleaned_column. intros Hrun.
  destruct (decide (text_column args ∉ fieldnames)) as [|Htext]; [done|].
  destruct (decide (cleaned_column args ∈ fieldnames)) as [|Hcleaned]; [done|].
  simpl in Hrun.
  destruct (by_row_loop _ ∅) as [by_row|] eqn:Hby; [|done]. simpl in Hrun.
  destruct (reproduce_rows md5 args by_row rows 1 []) as [rows'|] eqn:Hrows; [|done].
  simpl in Hrun. injection Hrun as <-. simpl.
  exists by_row, rows'. split; [done|]. split; [done|]. split; [done|].
  apply reproduce_rows_inv in Hrows as (texts & -> & Hlen & Htexts). simpl.
  split; [rewrite length_zip_with; lia|]. split.
  - intros k row Hk.
    destruct (lookup_lt_is_Some_2 texts k) as [text Htext'];
      [rewrite Hlen; by eapply lookup_lt_Some|].
    exists text. split; [by rewrite lookup_zip_with, Hk; simpl; rewrite Htext'|].
    by apply (reproduce_text_inv md5 args _ _ _ _ (Htexts k row text Hk Htext')).
  - intros Hnone. rewrite Hnone in Hby. injection Hby as <-.
    clear Htext Hcleaned. revert texts Hlen Htexts. generalize 1.
    induction rows as [|row rows IH]; intros i [|text texts] Hlen Htexts; simpl in *;
      [done..|].
    pose proof (Htexts 0%nat row text eq_refl eq_refl) as Htext.
    rewrite lookup_empty in Htext. injection Htext as <-.
    f_equal. apply (IH (i + 1)); [lia|].
    intros k row' text' Hk Ht. rewrite lookup_empty.
    pose proof (Htexts (S k) row' text' Hk Ht) as Htext. by rewrite lookup_empty in Htext.
Qed.

Lemma reproduce_csv_rows_witness :
  exists finished,
    _reproduce_csv (fun data => data) (example_args true) example_rows [lit "text"]
      {| items := None |} = Done finished
    /\ code finished = 0.
Proof.
  eexists. split; [vm_compute; reflexivity|].
  destruct (reproduce_csv_rows (fun data => data) (example_args true) example_rows
              [lit "text"] {| items := None |} _ ltac:(vm_compute; reflexivity))
    as (by_row & rows' & _ & _ & Hcode & _).
  exact Hcode.
Defined.

(** ** The file written for a cleaned text *)

Lemma utf8_bytes_ascii text :
  Forall (fun ch => (ch < 128)%N) text -> flat_map utf8_bytes text = text.
Proof.
  induction 1 as [|ch text Hch _ IH]; [done|]. simpl. rewrite IH.
  unfold utf8_bytes. by destruct (N.ltb_spec ch 128); [|lia].
Qed.

Lemma encodable_filter text :
  encodable text -> List.filter (fun ch => negb (is_surrogate ch)) text = text.
Proof.
  intros Henc. apply filter_all. intros ch Hch%list_elem_of_In.
  unfold encodable in Henc. rewrite Forall_forall in Henc. by rewrite (Henc ch Hch).
Qed.

Lemma encode_ignore_below c text :
  Forall (fun ch => (ch < codec_limit c)%N) text -> encode_ignore c text = text.
Proof.
  intros Hall. apply filter_all. intros ch Hch%list_elem_of_In.
  rewrite Forall_forall in Hall. by apply N.ltb_lt, Hall.
Qed.

(** X20: the file [write_text_file] writes for a cleaned text, where the
    line separator of the platform is the line feed. Written as UTF-8, the
    bytes of the file have the fingerprint [output_md5]. When every
    character of the cleaned text is below 128, the bytes are the code
    points of the text for every charset, and have that fingerprint; when
    every character is below 256, the "latin-1" file has one byte for each
    character and loses none. A charset other than "utf-8" and "latin-1" is
    written as "ascii", on every platform. *)
Theorem write_text_file_fingerprint (U : unicode_data) (md5 : list N -> str)
    (self : TextCleaner) (raw_text : str) (result : CleaningResult) :
  clean U md5 self raw_text = Ok result ->
  let text := cleaned_text result in
  md5 (write_text_file [LF] text (lit "utf-8")) = output_md5 result
  /\ (Forall (fun ch => (ch < 128)%N) text ->
      forall charset,
        write_text_file [LF] text charset = text
        /\ md5 (write_text_file [LF] text charset) = output_md5 result)
  /\ (Forall (fun ch => (ch < 256)%N) text ->
      write_text_file [LF] text (lit "latin-1") = text)
  /\ (forall linesep charset,
        charset <> lit "utf-8" -> charset <> lit "latin-1" ->
        write_text_file linesep text charset
        = write_text_file linesep text (lit "ascii")).
Proof.
  intros (normalized & counter & _ & _ & _ & _ & Hout & _)%clean_inv text.
  fold text in Hout.
  destruct (md5_text_spec md5 text) as [[Henc Hmd5]|[_ Hmd5]];
    rewrite Hmd5 in Hout; [|done].
  injection Hout as Hout.
  assert (Hutf8 : write_text_file [LF] text (lit "utf-8") = flat_map utf8_bytes text).
  { unfold write_text_file. rewrite !decide_True by done. by rewrite encodable_filter. }
  split; [by rewrite Hutf8|]. split; [|split].
  - intros Hascii charset.
    assert (Hsame : write_text_file [LF] text charset = text).
    { unfold write_text_file. rewrite (decide_True (P := [LF] = [LF])) by done.
      destruct (decide (charset = lit "utf-8")).
      - by rewrite encodable_filter, utf8_bytes_ascii.
      - destruct (decide (charset = lit "latin-1")); apply encode_ignore_below; [|done].
        eapply Forall_impl; [exact Hascii|]. simpl. intros ch ?. lia. }
    split; [done|]. by rewrite Hsame, <- Hout, utf8_bytes_ascii.
  - intros Hlatin. unfold write_text_file.
    rewrite (decide_True (P := [LF] = [LF])) by done.
    rewrite (decide_False (P := lit "latin-1" = lit "utf-8")) by done.
    rewrite (decide_True (P := lit "latin-1" = lit "latin-1")) by done.
    by apply encode_ignore_below.
  - intros linesep charset Hutf Hlatin. unfold write_text_file.
    by rewrite !(decide_False (P := charset = _)) by done.
Qed.

Lemma write_text_file_fingerprint_witness :
  exists result,
    clean excerpt (fun data => data) (plain_cleaner (lit "ascii")) [112; 233; 108]%N
    = Ok result
    /\ write_text_file [LF] (cleaned_text result) (lit "ascii") = cleaned_text result.
Proof.
  eexists. split; [vm_compute; reflexivity|].
  refine (proj1 (proj1 (proj2 (write_text_file_fingerprint excerpt (fun data => data)
                                 (plain_cleaner (lit "ascii")) [112; 233; 108]%N _ _))
                   _ (lit "ascii"))).
  - vm_compute; reflexivity.
  - by repeat constructor.
Defined.
